(** * stock-data-pipeline: indicator engine, batch processor and upsert writer

    A shallow embedding of [src/indicators.py], [src/config.py],
    [src/database.py] and [src/data_processor.py].

    Numbers.  The pipeline computes in float64.  A float64 is modelled by
    [float64]: an exact rational, one of the two infinities, or NaN.  The
    IEEE rules for the special values are spelled out; rounding, overflow and
    the sign of zero are abstracted (finite arithmetic is exact).  pandas
    writes "undefined" as NaN, and so does this model.  The five price and
    volume columns of a bar hold finite numbers, hence rationals. *)

From Stdlib Require Import QArith Qminmax Lia Lqa ZArith.
From stdpp Require Import base list sorting gmap strings pretty.

(** ** float64 *)

Module Float64.

Inductive float64 : Type :=
  | Fin (q : Q)
  | PInf
  | NInf
  | NaN.

(** Sign of a value, as a [comparison] with zero; [Eq] also stands for NaN. *)
Definition fsgn (x : float64) : comparison :=
  match x with
  | Fin q => (q ?= 0)%Q
  | PInf => Gt
  | NInf => Lt
  | NaN => Eq
  end.

Definition sgn_mul (a b : comparison) : comparison :=
  match a, b with
  | Eq, _ | _, Eq => Eq
  | Gt, Gt | Lt, Lt => Gt
  | _, _ => Lt
  end.

(** The infinity of a given sign; a zero sign gives NaN (0 * inf, 0 / 0). *)
Definition inf_of (c : comparison) : float64 :=
  match c with Gt => PInf | Lt => NInf | Eq => NaN end.

Definition fneg (x : float64) : float64 :=
  match x with
  | Fin q => Fin (- q)
  | PInf => NInf
  | NInf => PInf
  | NaN => NaN
  end.

Definition fadd (x y : float64) : float64 :=
  match x, y with
  | NaN, _ | _, NaN => NaN
  | Fin a, Fin b => Fin (a + b)
  | PInf, NInf | NInf, PInf => NaN
  | PInf, _ | _, PInf => PInf
  | NInf, _ | _, NInf => NInf
  end.

Definition fsub (x y : float64) : float64 := fadd x (fneg y).

Definition fmul (x y : float64) : float64 :=
  match x, y with
  | NaN, _ | _, NaN => NaN
  | Fin a, Fin b => Fin (a * b)
  | _, _ => inf_of (sgn_mul (fsgn x) (fsgn y))
  end.

(** A finite value over zero is an infinity of its sign, 0/0 is NaN. *)
Definition fdiv (x y : float64) : float64 :=
  match x, y with
  | NaN, _ | _, NaN => NaN
  | Fin a, Fin b =>
      if Qeq_bool b 0 then inf_of (a ?= 0)%Q else Fin (a / b)
  | Fin _, _ => Fin 0
  | _, Fin b =>
      inf_of (sgn_mul (fsgn x) (if Qeq_bool b 0 then Gt else (b ?= 0)%Q))
  | _, _ => NaN
  end.

(** Comparisons: every comparison with NaN is false. *)
Definition fle (x y : float64) : bool :=
  match x, y with
  | NaN, _ | _, NaN => false
  | Fin a, Fin b => Qle_bool a b
  | NInf, _ | _, PInf => true
  | _, _ => false
  end.

Definition flt (x y : float64) : bool :=
  match x, y with
  | NaN, _ | _, NaN => false
  | Fin a, Fin b => negb (Qle_bool b a)
  | PInf, _ | _, NInf => false
  | _, _ => true
  end.

Definition fgt (x y : float64) : bool := flt y x.
Definition fge (x y : float64) : bool := fle y x.

End Float64.
Export Float64.

(** ** The pandas operations the pipeline calls

    Series are lists in row order.  The raw columns never hold NaN, so the
    number of observations of a window is its length. *)

Module Pandas.

Definition Qsum (l : list Q) : Q := foldr Qplus 0%Q l.

(** Arithmetic mean of a list of observations. *)
Definition mean (l : list Q) : Q := (Qsum l / inject_Z (Z.of_nat (length l)))%Q.

Definition agg_mean (win : list Q) : float64 :=
  match win with [] => NaN | _ => Fin (mean win) end.

Definition agg_max (win : list Q) : float64 :=
  match win with [] => NaN | a :: l => Fin (foldl Qmax a l) end.

Definition agg_min (win : list Q) : float64 :=
  match win with [] => NaN | a :: l => Fin (foldl Qmin a l) end.

(** The trailing window of row [i]: rows [max 0 (i+1-w) .. i]. *)
Definition window {A} (w i : nat) (x : list A) : list A :=
  let s := (i + 1 - w)%nat in take (i + 1 - s) (drop s x).

(** [x.rolling(window=w, min_periods=minp).agg()] *)
Definition rolling (w minp : nat) (agg : list Q → float64) (x : list Q)
    : list float64 :=
  imap (λ i _, let win := window w i x in
               if decide (minp ≤ length win) then agg win else NaN) x.

(** [x.expanding(min_periods=minp).agg()] *)
Definition expanding (minp : nat) (agg : list Q → float64) (x : list Q)
    : list float64 :=
  imap (λ i _, let win := take (i + 1) x in
               if decide (minp ≤ length win) then agg win else NaN) x.

(** [x.ewm(span=span, adjust=False, min_periods=minp).mean()].

    pandas turns the span into a centre of mass, [com = (span - 1) / 2], and
    the smoothing constant is [alpha = 1 / (1 + com)]. *)
Definition ewm_alpha (span : nat) : Q :=
  let com := ((inject_Z (Z.of_nat span) - 1) / 2)%Q in
  (1 / (1 + com))%Q.

(** One step of the unadjusted recursion: the running value is kept when it
    equals the new observation, and is otherwise the weighted sum of both,
    normalised by the sum of the two weights. *)
Definition ewm_step (alpha weighted cur : Q) : Q :=
  let old_wt := (1 * (1 - alpha))%Q in
  let new_wt := alpha in
  if Qeq_bool weighted cur then weighted
  else ((old_wt * weighted + new_wt * cur) / (old_wt + new_wt))%Q.

Fixpoint ewm_go (alpha : Q) (minp nobs : nat) (weighted : Q) (vals : list Q)
    : list float64 :=
  match vals with
  | [] => []
  | cur :: rest =>
      let weighted' := ewm_step alpha weighted cur in
      let nobs' := S nobs in
      (if decide (minp ≤ nobs') then Fin weighted' else NaN)
        :: ewm_go alpha minp nobs' weighted' rest
  end.

Definition ewm_mean (span minp : nat) (vals : list Q) : list float64 :=
  match vals with
  | [] => []
  | x0 :: rest =>
      (if decide (minp ≤ 1) then Fin x0 else NaN)
        :: ewm_go (ewm_alpha span) minp 1 x0 rest
  end.

(** [x.shift(k)]: row [i] holds [x[i-k]], the first [k] rows NaN. *)
Definition shift (k : nat) (x : list float64) : list float64 :=
  take (length x) (replicate k NaN ++ x).

(** [x.pct_change(k)], computed as [x / x.shift(k) - 1]. *)
Definition pct_change (k : nat) (x : list float64) : list float64 :=
  zip_with (λ a b, fsub (fdiv a b) (Fin 1)) x (shift k x).

(** [x.unique()]: the distinct values in order of first appearance. *)
Fixpoint unique (l : list string) : list string :=
  match l with
  | [] => []
  | s :: l' => s :: filter (λ t, t ≠ s) (unique l')
  end.

End Pandas.
Export Pandas.

(** ** src/config.py *)

Module Config.

Definition DMA_PERIODS : list nat := [10; 21; 50; 100]%nat.
Definition EMA_PERIODS : list nat := [10; 21; 50; 100]%nat.
Definition WEEK_52_DAYS : nat := 252%nat.
Definition LOOKBACK_DAYS : nat := 200%nat.

End Config.

(** ** Data frames

    A bar carries the seven columns the fetcher delivers; a date is the
    ordinal of its calendar day.  A frame is the list of its rows, and a row
    keeps, next to its bar, the columns that were assigned to the frame
    later, by name. *)

Module Frame.

Record Bar : Type := mkBar {
  symbol : string;
  date : Z;
  open : Q;
  high : Q;
  low : Q;
  close : Q;
  volume : Q
}.

Inductive Cell : Type :=
  | CFloat (x : float64)
  | CInt (n : Z)
  | CBool (b : bool).

Record Row : Type := mkRow {
  bar : Bar;
  ind : gmap string Cell
}.

Abbreviation DataFrame := (list Row) (only parsing).

(** [df[name]] for a raw column, as a float64 series. *)
Definition col (f : Bar → Q) (df : DataFrame) : list Q := (f ∘ bar) <$> df.
Definition fcol (f : Bar → Q) (df : DataFrame) : list float64 := Fin <$> col f df.

(** The value of an assigned column on every row ([None]: no such column). *)
Definition column (name : string) (df : DataFrame) : list (option Cell) :=
  (λ r, ind r !! name) <$> df.

(** [df[name] = values], row by row. *)
Definition assign (name : string) (values : list Cell) (df : DataFrame)
    : DataFrame :=
  zip_with (λ r c, {| bar := bar r; ind := <[name := c]> (ind r) |}) df values.

(** [df[df['symbol'] == s]] *)
Definition select_symbol (s : string) (df : DataFrame) : DataFrame :=
  filter (λ r, symbol (bar r) = s) df.

(** [df.sort_values('date')], as a stable insertion sort.  (On rows with
    equal dates the order numpy leaves is unspecified; a series has none.) *)
Fixpoint insert_by_date (r : Row) (l : DataFrame) : DataFrame :=
  match l with
  | [] => [r]
  | r' :: l' =>
      if decide (date (bar r) ≤ date (bar r'))%Z then r :: l
      else r' :: insert_by_date r l'
  end.

Definition sort_by_date (df : DataFrame) : DataFrame :=
  foldr insert_by_date [] df.

(** *** Frames as objects

    Python frames are objects: a column assignment changes the frame it is
    applied to, for every holder of a reference.  The heap lists the frames
    allocated so far, a reference is an index into it, and a computation
    threads the heap and may raise. *)

Definition loc : Type := nat.
Abbreviation Heap := (list (list Row)) (only parsing).
Definition M (A : Type) : Type := Heap → option (A * Heap).

Definition ret {A} (a : A) : M A := λ h, Some (a, h).
Definition bind {A B} (m : M A) (k : A → M B) : M B :=
  λ h, match m h with Some (a, h') => k a h' | None => None end.
Definition raise {A} : M A := λ _, None.

Declare Scope heap_scope.
Delimit Scope heap_scope with heap.
Notation "'let*' x := m 'in' k" := (bind m (λ x, k))
  (at level 10, x name, m at level 100, k at level 200) : heap_scope.
Notation "m ;; k" := (bind m (λ _, k))
  (at level 100, k at level 200, right associativity) : heap_scope.
Bind Scope heap_scope with M.

Definition read (l : loc) : M DataFrame :=
  λ h, match h !! l with Some v => Some (v, h) | None => None end.
Definition alloc (v : DataFrame) : M loc :=
  λ h, Some (length h, h ++ [v]).
Definition write (l : loc) (v : DataFrame) : M unit :=
  λ h, if decide (l < length h)%nat then Some (tt, <[l := v]> h) else None.

(** [df.copy()], [df[df['symbol'] == s]] and [df.sort_values('date')] build a
    new frame; [df[name] = f(df)] changes [df] in place. *)
Definition copy (l : loc) : M loc :=
  (let* v := read l in alloc v)%heap.
Definition getitem_symbol (l : loc) (s : string) : M loc :=
  (let* v := read l in alloc (select_symbol s v))%heap.
Definition sort_values (l : loc) : M loc :=
  (let* v := read l in alloc (sort_by_date v))%heap.
Definition setitem (l : loc) (name : string) (f : DataFrame → list Cell)
    : M unit :=
  (let* v := read l in write l (assign name (f v) v))%heap.

Fixpoint for_each {A} (l : list A) (body : A → M unit) : M unit :=
  match l with
  | [] => ret tt
  | a :: l' => (body a ;; for_each l' body)%heap
  end.

Fixpoint collect {A B} (l : list A) (body : A → M B) : M (list B) :=
  match l with
  | [] => ret []
  | a :: l' =>
      (let* b := body a in let* bs := collect l' body in ret (b :: bs))%heap
  end.

(** [pd.concat(frames, ignore_index=True)]; no frame to concatenate is a
    ValueError. *)
Definition pd_concat (ls : list loc) : M loc :=
  (let* frames := collect ls read in
   match frames with
   | [] => raise
   | _ => alloc (concat frames)
   end)%heap.

End Frame.
Export Frame.

(** ** src/indicators.py *)

Module TechnicalIndicators.

Definition calculate_sma (data : list Q) (period : nat) : list float64 :=
  rolling period period agg_mean data.

Definition calculate_ema (data : list Q) (period : nat) : list float64 :=
  ewm_mean period period data.

(** The constant [1e-10] of the T-Score denominator. *)
Definition epsilon : Q := 1 # 10000000000.

Definition calculate_t_score (df : DataFrame) : list float64 :=
  let lookback := 14%nat in
  let high_n := rolling lookback lookback agg_max (col high df) in
  let low_n := rolling lookback lookback agg_min (col low df) in
  let num := zip_with fsub (fcol close df) low_n in
  let den := (λ v, fadd v (Fin epsilon)) <$> zip_with fsub high_n low_n in
  (λ v, fmul v (Fin 100)) <$> zip_with fdiv num den.

(** [score += cond.astype(int)] *)
Definition add_flags (score : list Z) (cond : list bool) : list Z :=
  zip_with Z.add score (Z.b2z <$> cond).

(** The nine components of the F-Score, in the order the source adds them:
    the derived series a component reads (moving averages, shifts, percent
    changes), and its condition. *)
Definition f_score_components (df : DataFrame)
    : list (list (list float64) * list bool) :=
  let close_ := fcol close df in
  let volume_ := fcol volume df in
  let ma_50 := rolling 50 50 agg_mean (col close df) in
  let price_20d_ago := shift 20 close_ in
  let ma_50_20d_ago := shift 20 ma_50 in
  let avg_volume := rolling 50 50 agg_mean (col volume df) in
  let ma_10 := rolling 10 10 agg_mean (col close df) in
  let ma_20 := rolling 20 20 agg_mean (col close df) in
  let ma_200 := rolling 200 200 agg_mean (col close df) in
  let returns_5d := pct_change 5 close_ in
  let returns_20d := pct_change 20 close_ in
  [ ([ma_50], zip_with fgt close_ ma_50);
    ([price_20d_ago], zip_with fgt close_ price_20d_ago);
    ([ma_50; ma_50_20d_ago], zip_with fgt ma_50 ma_50_20d_ago);
    ([avg_volume], zip_with fgt volume_ avg_volume);
    ([ma_10; ma_20], zip_with fgt ma_10 ma_20);
    ([ma_20; ma_50], zip_with fgt ma_20 ma_50);
    ([ma_200], zip_with fgt close_ ma_200);
    ([returns_5d], (λ v, fgt v (Fin 0)) <$> returns_5d);
    ([returns_20d], (λ v, fgt v (Fin 0)) <$> returns_20d) ].

Definition calculate_f_score (df : DataFrame) : list Z :=
  let score := replicate (length df) 0%Z in
  foldl add_flags score (snd <$> f_score_components df).

Definition calculate_52_week_high (df : DataFrame) : list bool :=
  let period := Config.WEEK_52_DAYS in
  let rolling_max := rolling period 1 agg_max (col high df) in
  zip_with fge (fcol high df) rolling_max.

Definition calculate_52_week_low (df : DataFrame) : list bool :=
  let period := Config.WEEK_52_DAYS in
  let rolling_min := rolling period 1 agg_min (col low df) in
  zip_with fle (fcol low df) rolling_min.

Definition calculate_all_time_high (df : DataFrame) : list bool :=
  let expanding_max := expanding 1 agg_max (col high df) in
  zip_with fge (fcol high df) expanding_max.

Definition calculate_all_time_low (df : DataFrame) : list bool :=
  let expanding_min := expanding 1 agg_min (col low df) in
  zip_with fle (fcol low df) expanding_min.

(** [add_all_indicators(df)], called without a symbol as
    [process_multiple_symbols] does: the frame is copied, the copy is sorted
    by date, and the fourteen columns are assigned to the sorted copy, which
    is returned. *)
Definition add_all_indicators (df : loc) : M loc :=
  (let* result_df := copy df in
   let* symbol_df := (let* c := copy result_df in sort_values c) in
   setitem symbol_df "t_score" (λ d, CFloat <$> calculate_t_score d) ;;
   setitem symbol_df "f_score" (λ d, CInt <$> calculate_f_score d) ;;
   for_each Config.DMA_PERIODS (λ period,
     setitem symbol_df ("dma_" +:+ pretty period)
       (λ d, CFloat <$> calculate_sma (col close d) period)) ;;
   for_each Config.EMA_PERIODS (λ period,
     setitem symbol_df ("ema_" +:+ pretty period)
       (λ d, CFloat <$> calculate_ema (col close d) period)) ;;
   setitem symbol_df "is_52_week_high" (λ d, CBool <$> calculate_52_week_high d) ;;
   setitem symbol_df "is_52_week_low" (λ d, CBool <$> calculate_52_week_low d) ;;
   setitem symbol_df "is_all_time_high" (λ d, CBool <$> calculate_all_time_high d) ;;
   setitem symbol_df "is_all_time_low" (λ d, CBool <$> calculate_all_time_low d) ;;
   ret symbol_df)%heap.

Definition process_multiple_symbols (df : loc) : M loc :=
  (let* d := read df in
   let symbols := unique (symbol ∘ bar <$> d) in
   let* all_processed := collect symbols (λ s,
     let* symbol_data := (let* sel := getitem_symbol df s in copy sel) in
     let* symbol_data := sort_values symbol_data in
     add_all_indicators symbol_data) in
   pd_concat all_processed)%heap.

End TechnicalIndicators.
Export TechnicalIndicators.

(** ** src/database.py

    Table [stock_data].  A row has a surrogate [id], the key
    [(symbol, date)] under the unique constraint [uix_symbol_date], and
    nineteen value columns.  The table is a finite map from keys to the rest
    of the row, so the constraint holds by construction.  (The pipeline
    writes a number into every nullable column; SQL NULL is not modelled.) *)

Module Database.

Record Values : Type := mkValues {
  open : Q;
  high : Q;
  low : Q;
  close : Q;
  volume : Q;
  t_score : float64;
  f_score : float64;
  dma_10 : float64;
  dma_21 : float64;
  dma_50 : float64;
  dma_100 : float64;
  ema_10 : float64;
  ema_21 : float64;
  ema_50 : float64;
  ema_100 : float64;
  is_52_week_high : bool;
  is_52_week_low : bool;
  is_all_time_high : bool;
  is_all_time_low : bool
}.

Record StockData : Type := mkStockData {
  id : Z;
  vals : Values
}.

Abbreviation Key := (string * Z)%type (only parsing).

(** The committed table, and the sequence behind [autoincrement]. *)
Record Store : Type := mkStore {
  table : gmap Key StockData;
  id_seq : Z
}.

(** A session is a transaction on the store: statements change [pending],
    readers of the store see [committed]. *)
Record Session : Type := mkSession {
  committed : gmap Key StockData;
  pending : gmap Key StockData;
  next_id : Z
}.

Definition get_session (db : Store) : Session :=
  {| committed := table db; pending := table db; next_id := id_seq db |}.

Definition commit (s : Session) : Store :=
  {| table := pending s; id_seq := next_id s |}.

(** A rollback discards the pending writes; a sequence is not rolled back. *)
Definition rollback (s : Session) : Store :=
  {| table := committed s; id_seq := next_id s |}.

End Database.

(** ** src/data_processor.py *)

Module DataProcessor.

Import Database.

Inductive outcome (A : Type) : Type :=
  | Returned (a : A)
  | Raised.
Arguments Returned {A} a.
Arguments Raised {A}.

(** One record of [df.to_dict('records')], bound to the columns of the
    table: the key and the nineteen values. *)
Record IndicatorRow : Type := mkIndicatorRow {
  key : Key;
  values : Values
}.

Definition as_float (c : Cell) : option float64 :=
  match c with
  | CFloat x => Some x
  | CInt n => Some (Fin (inject_Z n))
  | CBool _ => None
  end.

Definition as_bool (c : Cell) : option bool :=
  match c with CBool b => Some b | _ => None end.

(** A record of the processed frame ("Processed DataFrame with all
    indicators"); a row that lacks one of the fourteen columns is not one. *)
Definition to_record (r : Row) : option IndicatorRow :=
  let b := bar r in
  let f name := ind r !! name ≫= as_float in
  let g name := ind r !! name ≫= as_bool in
  t ← f "t_score"; fs ← f "f_score";
  d10 ← f "dma_10"; d21 ← f "dma_21"; d50 ← f "dma_50"; d100 ← f "dma_100";
  e10 ← f "ema_10"; e21 ← f "ema_21"; e50 ← f "ema_50"; e100 ← f "ema_100";
  h52 ← g "is_52_week_high"; l52 ← g "is_52_week_low";
  ath ← g "is_all_time_high"; atl ← g "is_all_time_low";
  Some {| key := (Frame.symbol b, Frame.date b);
          values := mkValues (Frame.open b) (Frame.high b) (Frame.low b)
                      (Frame.close b) (Frame.volume b)
                      t fs d10 d21 d50 d100 e10 e21 e50 e100 h52 l52 ath atl |}.

Definition to_dict_records (df : DataFrame) : option (list IndicatorRow) :=
  mapM to_record df.

(** [stmt.on_conflict_do_update(index_elements=['symbol', 'date'],
    set_=update_dict)]: the nineteen entries of [update_dict], each taken
    from the excluded (proposed) row; [id] is not in the dictionary. *)
Definition on_conflict_do_update (old : StockData) (excluded : Values)
    : StockData :=
  {| id := id old;
     vals := {| open := open excluded;
                high := high excluded;
                low := low excluded;
                close := close excluded;
                volume := volume excluded;
                t_score := t_score excluded;
                f_score := f_score excluded;
                dma_10 := dma_10 excluded;
                dma_21 := dma_21 excluded;
                dma_50 := dma_50 excluded;
                dma_100 := dma_100 excluded;
                ema_10 := ema_10 excluded;
                ema_21 := ema_21 excluded;
                ema_50 := ema_50 excluded;
                ema_100 := ema_100 excluded;
                is_52_week_high := is_52_week_high excluded;
                is_52_week_low := is_52_week_low excluded;
                is_all_time_high := is_all_time_high excluded;
                is_all_time_low := is_all_time_low excluded |} |}.

(** One proposed row of [INSERT ... ON CONFLICT (symbol, date) DO UPDATE]. *)
Definition upsert_row (st : gmap Key StockData * Z) (r : IndicatorRow)
    : gmap Key StockData * Z :=
  let '(t, seq) := st in
  match t !! key r with
  | Some old => (<[key r := on_conflict_do_update old (values r)]> t, (seq + 1)%Z)
  | None => (<[key r := {| id := seq; vals := values r |}]> t, (seq + 1)%Z)
  end.

(** [session.execute(stmt)].  The statement raises when the store fails for
    a reason of its own ([fault]), and when two rows of the batch have the
    same key (PostgreSQL: "ON CONFLICT DO UPDATE command cannot affect row a
    second time"). *)
Definition execute (fault : bool) (s : Session) (batch : list IndicatorRow)
    : option Session :=
  if fault then None
  else if decide (NoDup (key <$> batch)) then
    let '(t, n) := foldl upsert_row (pending s, next_id s) batch in
    Some {| committed := committed s; pending := t; next_id := n |}
  else None.

(** [records[i:i + batch_size] for i in range(0, len(records), batch_size)] *)
Fixpoint batches_go {A} (fuel batch_size : nat) (records : list A)
    : list (list A) :=
  match fuel with
  | O => []
  | S fuel' =>
      match records with
      | [] => []
      | _ => take batch_size records
               :: batches_go fuel' batch_size (drop batch_size records)
      end
  end.

Definition batches {A} (batch_size : nat) (records : list A) : list (list A) :=
  batches_go (length records) batch_size records.

(** The loop over the batches; [i] counts the statements of the session. *)
Fixpoint execute_batches (fault : nat → bool) (i : nat) (s : Session)
    (bs : list (list IndicatorRow)) : Session * outcome unit :=
  match bs with
  | [] => (s, Returned tt)
  | batch :: bs' =>
      match execute (fault i) s batch with
      | Some s' => execute_batches fault (S i) s' bs'
      | None => (s, Raised)
      end
  end.

(** [_store_data(df)]: all batches in one transaction, committed at the
    end; on any exception the session is rolled back and the exception is
    raised again.  (Dates are date objects, as the fetcher delivers them: the
    conversion of string dates does nothing.  The progress messages are
    left out.) *)
Definition _store_data (fault : nat → bool) (db : Store) (df : DataFrame)
    : Store * outcome unit :=
  let session := get_session db in
  match to_dict_records df with
  | None => (rollback session, Raised)
  | Some records =>
      let batch_size := 1000%nat in
      match execute_batches fault 0 session (batches batch_size records) with
      | (s, Returned _) => (commit s, Returned tt)
      | (s, Raised) => (rollback s, Raised)
      end
  end.

(** The frame at the reference a heap computation returns. *)
Definition run_frame (m : M loc) (h : Heap) : option DataFrame :=
  match m h with
  | Some (l, h') => h' !! l
  | None => None
  end.

(** [process_and_store_stocks(symbols)], given the frame [raw_data] the
    fetcher delivers for [symbols] (the fetcher is outside this model; it
    catches its own exceptions).  The body is one [try] block whose handler
    is [except Exception: ... return False]. *)
Definition process_and_store_stocks (fault : nat → bool) (db : Store)
    (raw_data : DataFrame) : Store * outcome bool :=
  match raw_data with
  | [] => (db, Returned false)
  | _ =>
      match run_frame (process_multiple_symbols 0%nat) [raw_data] with
      | None => (db, Returned false)
      | Some processed_data =>
          match _store_data fault db processed_data with
          | (db', Returned _) => (db', Returned true)
          | (db', Raised) => (db', Returned false)
          end
      end
  end.

End DataProcessor.
Export DataProcessor.

(** ** Statements of the specification *)

Module Spec.

(** The smoothing constant the specification names, [2 / (p + 1)]. *)
Definition smoothing (p : nat) : Q := (2 / (inject_Z (Z.of_nat p) + 1))%Q.

(** The unadjusted exponential mean in the words of the specification,
    [e[i] = alpha * x[i] + (1 - alpha) * e[i-1]], started from [e[0] = x[0]]. *)
Fixpoint unadjusted_from (alpha prev : Q) (xs : list Q) : list Q :=
  match xs with
  | [] => []
  | xi :: rest =>
      let e := (alpha * xi + (1 - alpha) * prev)%Q in
      e :: unadjusted_from alpha e rest
  end.

Definition unadjusted_ema (alpha : Q) (x : list Q) : list Q :=
  match x with
  | [] => []
  | x0 :: rest => x0 :: unadjusted_from alpha x0 rest
  end.

(** The exponential mean as the specification words it: undefined before
    row [p - 1], seeded at row [p - 1] with the mean of the first [p]
    values, and continued by the recursion. *)
Definition ema_seeded_by_mean (x : list Q) (p : nat) : Prop :=
  (∀ i, (i < length x)%nat → (i < p - 1)%nat →
        calculate_ema x p !! i = Some NaN) ∧
  ((p ≤ length x)%nat →
        ∃ v, calculate_ema x p !! (p - 1)%nat = Some (Fin v) ∧
             (v == mean (take p x))%Q) ∧
  (∀ i xi, (p - 1 < i)%nat → x !! i = Some xi →
        ∃ v v', calculate_ema x p !! i = Some (Fin v) ∧
                calculate_ema x p !! (i - 1)%nat = Some (Fin v') ∧
                (v == smoothing p * xi + (1 - smoothing p) * v')%Q).

(** The failure policy as the specification words it: when the writer
    raises, the store is rolled back and the processing call raises as
    well. *)
Definition storage_failure_is_raised (fault : nat → bool)
    (db : Database.Store) (raw_data : DataFrame) : Prop :=
  ∀ processed,
    run_frame (process_multiple_symbols 0%nat) [raw_data] = Some processed →
    snd (_store_data fault db processed) = Raised →
    Database.table (fst (process_and_store_stocks fault db raw_data))
      = Database.table db ∧
    snd (process_and_store_stocks fault db raw_data) = Raised.

End Spec.
Export Spec.

(** ** Frames computed by the indicator engine

    What the heap computations of [src/indicators.py] leave in the frame
    they return, written as functions of the frame they are given
    (proved below, in [add_all_indicators_run] and
    [process_multiple_symbols_run]). *)

Module Denotation.

(** The effect of [df[name] = f(df)] on the frame. *)
Definition set_column (name : string) (f : DataFrame → list Cell)
    (d : DataFrame) : DataFrame :=
  assign name (f d) d.

Definition set_columns {A} (ps : list A) (name : A → string)
    (f : A → DataFrame → list Cell) (d : DataFrame) : DataFrame :=
  foldl (λ d p, set_column (name p) (f p) d) d ps.

(** The fourteen assignments of [add_all_indicators], in order. *)
Definition with_indicators (d : DataFrame) : DataFrame :=
  let d := set_column "t_score" (λ d, CFloat <$> calculate_t_score d) d in
  let d := set_column "f_score" (λ d, CInt <$> calculate_f_score d) d in
  let d := set_columns Config.DMA_PERIODS (λ p, "dma_" +:+ pretty p)
             (λ p d, CFloat <$> calculate_sma (col close d) p) d in
  let d := set_columns Config.EMA_PERIODS (λ p, "ema_" +:+ pretty p)
             (λ p d, CFloat <$> calculate_ema (col close d) p) d in
  let d := set_column "is_52_week_high" (λ d, CBool <$> calculate_52_week_high d) d in
  let d := set_column "is_52_week_low" (λ d, CBool <$> calculate_52_week_low d) d in
  let d := set_column "is_all_time_high" (λ d, CBool <$> calculate_all_time_high d) d in
  set_column "is_all_time_low" (λ d, CBool <$> calculate_all_time_low d) d.

(** One iteration of the loop of [process_multiple_symbols]: the rows of the
    symbol, sorted by the loop and again by [add_all_indicators]. *)
Definition process_symbol (s : string) (d : DataFrame) : DataFrame :=
  with_indicators (sort_by_date (sort_by_date (select_symbol s d))).

Definition symbols_of (d : DataFrame) : list string :=
  unique (symbol ∘ bar <$> d).

Definition process_frame (d : DataFrame) : DataFrame :=
  concat ((λ s, process_symbol s d) <$> symbols_of d).

(** The input rows in the order of the result: grouped by symbol, the
    symbols in order of first appearance. *)
Definition regroup (d : DataFrame) : DataFrame :=
  concat ((λ s, select_symbol s d) <$> symbols_of d).

(** A heap computation that changes the frame at [l] by [g] and nothing
    else, and returns [a]. *)
Definition transforms {A} (m : M A) (l : loc) (g : DataFrame → DataFrame)
    (a : A) : Prop :=
  ∀ (h : Heap) v, h !! l = Some v → m h = Some (a, <[l := g v]> h).

(** Rows in ascending date order. *)
Definition date_sorted (d : DataFrame) : Prop :=
  Sorted (λ r r', (date (bar r) ≤ date (bar r'))%Z) d.

End Denotation.
Export Denotation.

(** ** Columns computed from the bars *)

Module Columns.

(** A function that computes a column from the bars of the frame alone, one
    cell per row: what every indicator of [add_all_indicators] is. *)
Definition from_bars (g : DataFrame → list Cell) : Prop :=
  (∀ d : DataFrame, length (g d) = length d) ∧
  (∀ d d' : DataFrame, bar <$> d' = bar <$> d → g d' = g d).

(** The fourteen columns of [out] hold the indicators of the bars of
    [series], row by row. *)
Definition indicator_columns (series out : DataFrame) : Prop :=
  column "t_score" out = Some <$> (CFloat <$> calculate_t_score series) ∧
  column "f_score" out = Some <$> (CInt <$> calculate_f_score series) ∧
  (∀ p, p ∈ Config.DMA_PERIODS →
     column ("dma_" +:+ pretty p) out =
       Some <$> (CFloat <$> calculate_sma (col close series) p)) ∧
  (∀ p, p ∈ Config.EMA_PERIODS →
     column ("ema_" +:+ pretty p) out =
       Some <$> (CFloat <$> calculate_ema (col close series) p)) ∧
  column "is_52_week_high" out =
    Some <$> (CBool <$> calculate_52_week_high series) ∧
  column "is_52_week_low" out =
    Some <$> (CBool <$> calculate_52_week_low series) ∧
  column "is_all_time_high" out =
    Some <$> (CBool <$> calculate_all_time_high series) ∧
  column "is_all_time_low" out =
    Some <$> (CBool <$> calculate_all_time_low series).

(** The key of a row in the table: its symbol and its date. *)
Definition row_key (r : Row) : string * Z := (symbol (bar r), date (bar r)).

End Columns.
Export Columns.

(** ** src/data_fetcher.py

    The feed itself ([tvdatafeed]) is outside the repository.  One call of
    [tv.get_hist] raises, returns [None], or returns a frame indexed by
    [datetime] with the columns [symbol], [open], [high], [low], [close] and
    [volume]; a [datetime] is a calendar day and a time of day.  The feed is
    a parameter of the model, [get_hist]; where several calls are made it is
    indexed by the number of the call, since two calls for one symbol need
    not agree.  ([exchange], [n_bars] and [interval] are passed through to
    the feed, and are part of the parameter.) *)

Module DataFetcher.

Record Timestamp : Type := mkTimestamp {
  day : Z;
  time_of_day : Q
}.

Record FeedRow : Type := mkFeedRow {
  datetime : Timestamp;
  feed_symbol : string;
  feed_open : Q;
  feed_high : Q;
  feed_low : Q;
  feed_close : Q;
  feed_volume : Q
}.

Inductive feed : Type :=
  | FeedRaises
  | FeedNone
  | FeedFrame (data : list FeedRow).

(** The row of [data] after [reset_index], the renaming of [datetime] to
    [date], [pd.to_datetime(data['date']).dt.date] and
    [data['symbol'] = symbol]. *)
Definition fetched_row (symbol : string) (r : FeedRow) : Row :=
  {| bar := {| Frame.symbol := symbol;
               Frame.date := day (datetime r);
               Frame.open := feed_open r;
               Frame.high := feed_high r;
               Frame.low := feed_low r;
               Frame.close := feed_close r;
               Frame.volume := feed_volume r |};
     ind := ∅ |}.

(** [fetch_stock_data(symbol)]: [None] when the feed raises, returns [None]
    or returns an empty frame. *)
Definition fetch_stock_data (get_hist : string → feed) (symbol : string)
    : option DataFrame :=
  match get_hist symbol with
  | FeedRaises => None
  | FeedNone => None
  | FeedFrame [] => None
  | FeedFrame data => Some (fetched_row symbol <$> data)
  end.

(** The loop of [fetch_multiple_stocks]: the list [all_data]; [i] counts the
    calls of the feed. *)
Fixpoint all_data (get_hist : nat → string → feed) (i : nat)
    (symbols : list string) : list DataFrame :=
  match symbols with
  | [] => []
  | symbol :: symbols' =>
      match fetch_stock_data (get_hist i) symbol with
      | Some data => data :: all_data get_hist (S i) symbols'
      | None => all_data get_hist (S i) symbols'
      end
  end.

(** [fetch_multiple_stocks(symbols)]: [pd.concat(all_data)], or the empty
    frame [pd.DataFrame()] when nothing was fetched. *)
Definition fetch_multiple_stocks (get_hist : nat → string → feed)
    (symbols : list string) : DataFrame :=
  match all_data get_hist 0 symbols with
  | [] => []
  | frames => concat frames
  end.

End DataFetcher.
Export DataFetcher.

(** ** [get_data_stats] of src/data_processor.py

    The three queries read the committed table.  The order in which
    [SELECT DISTINCT symbol] returns its rows is the choice of the database,
    so the symbols are a set; [MIN] and [MAX] of no rows are NULL, which
    SQLAlchemy gives as [None]. *)

Module Statistics.
Import Database.

Definition func_min (l : list Z) : option Z :=
  match l with
  | [] => None
  | x :: l' => Some (foldr Z.min x l')
  end.

Definition func_max (l : list Z) : option Z :=
  match l with
  | [] => None
  | x :: l' => Some (foldr Z.max x l')
  end.

Record DataStats : Type := mkDataStats {
  total_records : nat;
  symbols : gset string;
  date_range : option Z * option Z
}.

Definition get_data_stats (db : Store) : DataStats :=
  let keys := elements (dom (table db)) in
  {| total_records := size (table db);
     symbols := list_to_set (fst <$> keys);
     date_range := (func_min (snd <$> keys), func_max (snd <$> keys)) |}.

End Statistics.
Export Statistics.
(** * Facts about series *)

Section SeriesFacts.

Lemma length_window {A} (w i : nat) (x : list A) :
  (i < length x)%nat → length (window w i x) = (i + 1) `min` w.
Proof.
  intros Hi. unfold window. rewrite length_take, length_drop. lia.
Qed.

Lemma window_full {A} (w i : nat) (x : list A) :
  (w - 1 ≤ i)%nat → window w i x = take w (drop (i + 1 - w) x).
Proof.
  intros Hi. unfold window. f_equal. lia.
Qed.

Lemma rolling_lookup w minp agg x i :
  rolling w minp agg x !! i =
    (λ _, if decide (minp ≤ length (window w i x))%nat
          then agg (window w i x) else NaN) <$> x !! i.
Proof. unfold rolling. by rewrite list_lookup_imap. Qed.

Lemma length_rolling w minp agg x : length (rolling w minp agg x) = length x.
Proof. unfold rolling. by rewrite length_imap. Qed.

Lemma expanding_lookup minp agg x i :
  expanding minp agg x !! i =
    (λ _, if decide (minp ≤ length (take (i + 1) x))%nat
          then agg (take (i + 1) x) else NaN) <$> x !! i.
Proof. unfold expanding. by rewrite list_lookup_imap. Qed.

Lemma length_expanding minp agg x : length (expanding minp agg x) = length x.
Proof. unfold expanding. by rewrite length_imap. Qed.

Lemma length_shift k x : length (shift k x) = length x.
Proof.
  unfold shift. rewrite length_take, length_app, length_replicate. lia.
Qed.

Lemma shift_lookup_lt k x i :
  (i < k)%nat → (i < length x)%nat → shift k x !! i = Some NaN.
Proof.
  intros Hk Hn. unfold shift. rewrite lookup_take_lt by done.
  rewrite lookup_app_l by (rewrite length_replicate; lia).
  by apply lookup_replicate_2.
Qed.

Lemma length_pct_change k x : length (pct_change k x) = length x.
Proof.
  unfold pct_change. rewrite length_zip_with, length_shift. lia.
Qed.

Lemma agg_mean_fin win : win ≠ [] → agg_mean win = Fin (mean win).
Proof. by destruct win. Qed.

Lemma col_lookup f df i :
  col f df !! i = (f ∘ bar) <$> df !! i.
Proof. unfold col. by rewrite list_lookup_fmap. Qed.

Lemma length_col f df : length (col f df) = length df.
Proof. unfold col. by rewrite length_fmap. Qed.

Lemma length_fcol f df : length (fcol f df) = length df.
Proof. unfold fcol. by rewrite length_fmap, length_col. Qed.

End SeriesFacts.

(** * Moving averages *)

Section MovingAverages.

Lemma configured_period_pos p :
  p ∈ Config.DMA_PERIODS ∨ p ∈ Config.EMA_PERIODS → (10 ≤ p)%nat.
Proof.
  unfold Config.DMA_PERIODS, Config.EMA_PERIODS.
  rewrite !elem_of_cons, !elem_of_nil. lia.
Qed.

Lemma sma_warm_up x p i :
  (i < length x)%nat → (i < p - 1)%nat → calculate_sma x p !! i = Some NaN.
Proof.
  intros Hn Hp. unfold calculate_sma. rewrite rolling_lookup.
  destruct (lookup_lt_is_Some_2 x i Hn) as [xi ->]. simpl.
  rewrite length_window by done. case_decide; [lia | done].
Qed.

Lemma sma_defined x p i :
  (0 < p)%nat → (i < length x)%nat → (p - 1 ≤ i)%nat →
  let win := take p (drop (i + 1 - p) x) in
  length win = p ∧ calculate_sma x p !! i = Some (Fin (mean win)).
Proof.
  intros Hp Hn Hi win.
  assert (Hlen : length win = p).
  { unfold win. rewrite length_take, length_drop. lia. }
  split; [done |]. unfold calculate_sma. rewrite rolling_lookup.
  destruct (lookup_lt_is_Some_2 x i Hn) as [xi ->]. simpl.
  rewrite window_full by done. fold win. rewrite Hlen.
  case_decide; [| lia]. rewrite agg_mean_fin; [done |].
  intros E. rewrite E in Hlen. simpl in Hlen. lia.
Qed.

(** C2: for a period [p] of the configured DMA set, [sma(x,p)[i]] is
    undefined on the rows [i < p - 1] and defined on the rows [i >= p - 1],
    where it is the arithmetic mean (sum over [p]) of the [p] values
    [x[i-p+1..i]]; a partial window never produces a value. *)
Theorem calculate_sma_full_window (x : list Q) (p i : nat) :
  p ∈ Config.DMA_PERIODS → (i < length x)%nat →
  ((i < p - 1)%nat → calculate_sma x p !! i = Some NaN) ∧
  ((p - 1 ≤ i)%nat →
     ∃ win, win = take p (drop (i + 1 - p) x) ∧ length win = p ∧
            calculate_sma x p !! i =
              Some (Fin (Qsum win / inject_Z (Z.of_nat p)))).
Proof.
  intros Hp Hn.
  assert (10 ≤ p)%nat by (apply configured_period_pos; by left).
  split; [by apply sma_warm_up |].
  intros Hi. eexists; split; [reflexivity |].
  destruct (sma_defined x p i) as [Hlen Hv]; [lia | done | done |].
  split; [done |]. rewrite Hv. unfold mean. by rewrite Hlen.
Qed.

Lemma calculate_sma_full_window_witness :
  let x := [1; 2; 3; 4; 5; 6; 7; 8; 9; 10; 11; 12]%Q in
  ((9 < 10 - 1)%nat → calculate_sma x 10 !! 9%nat = Some NaN) ∧
  ((10 - 1 ≤ 9)%nat →
     ∃ win, win = take 10 (drop (9 + 1 - 10) x) ∧ length win = 10%nat ∧
            calculate_sma x 10 !! 9%nat =
              Some (Fin (Qsum win / inject_Z (Z.of_nat 10)))).
Proof.
  intros x. apply (calculate_sma_full_window x 10 9).
  - unfold Config.DMA_PERIODS. apply list_elem_of_here.
  - simpl. lia.
Defined.

(** The smoothing constant of [ewm(span=p)] is [2 / (p + 1)]. *)
Lemma ewm_alpha_smoothing p : (ewm_alpha p == smoothing p)%Q.
Proof.
  unfold ewm_alpha, smoothing.
  assert (0 <= inject_Z (Z.of_nat p))%Q.
  { change 0%Q with (inject_Z 0). rewrite <- Zle_Qle. lia. }
  field. intros E. lra.
Qed.

Lemma ewm_step_spec alpha w c :
  (ewm_step alpha w c == alpha * c + (1 - alpha) * w)%Q.
Proof.
  unfold ewm_step. destruct (Qeq_bool w c) eqn:E.
  - apply Qeq_bool_iff in E. rewrite E. ring.
  - field. intros E'. lra.
Qed.

Lemma ewm_go_lookup alpha alpha' minp xs : ∀ nobs w w' i e,
  (alpha == alpha')%Q → (w == w')%Q →
  unadjusted_from alpha' w' xs !! i = Some e →
  ∃ v, (v == e)%Q ∧
       ewm_go alpha minp nobs w xs !! i =
         Some (if decide (minp ≤ nobs + S i)%nat then Fin v else NaN).
Proof.
  induction xs as [| c rest IH]; intros nobs w w' i e Ha Hw He; [done |].
  assert (Hstep : (ewm_step alpha w c == alpha' * c + (1 - alpha') * w')%Q).
  { rewrite ewm_step_spec, Ha, Hw. reflexivity. }
  destruct i as [| i]; simpl in *.
  - injection He as <-. eexists; split; [exact Hstep |].
    by replace (nobs + 1)%nat with (S nobs) by lia.
  - destruct (IH (S nobs) _ _ i e Ha Hstep He) as (v & Hv & ->).
    exists v; split; [done |].
    by replace (S nobs + S i)%nat with (nobs + S (S i))%nat by lia.
Qed.

Lemma length_unadjusted_from alpha w xs :
  length (unadjusted_from alpha w xs) = length xs.
Proof. revert w. induction xs; intros; simpl; [done | by rewrite IHxs]. Qed.

Lemma length_unadjusted_ema alpha x : length (unadjusted_ema alpha x) = length x.
Proof. destruct x; simpl; [done | by rewrite length_unadjusted_from]. Qed.

(** Every row of [calculate_ema]: the value of the recursion started at
    [x[0]], masked before row [p - 1]. *)
Lemma calculate_ema_lookup x p i e :
  (0 < p)%nat → unadjusted_ema (smoothing p) x !! i = Some e →
  ∃ v, (v == e)%Q ∧
       calculate_ema x p !! i =
         Some (if decide (p ≤ S i)%nat then Fin v else NaN).
Proof.
  intros Hp He. unfold calculate_ema, ewm_mean.
  destruct x as [| x0 rest]; [done |]. destruct i as [| i]; simpl in *.
  - injection He as <-. exists x0. split; [reflexivity |].
    repeat case_decide; done || lia.
  - destruct (ewm_go_lookup (ewm_alpha p) (smoothing p) p rest 1 x0 x0 i e)
      as (v & Hv & ->); [apply ewm_alpha_smoothing | reflexivity | done |].
    exists v. split; [done |]. repeat case_decide; done || lia.
Qed.

Lemma unadjusted_from_step alpha w xs i xi e :
  xs !! S i = Some xi → unadjusted_from alpha w xs !! i = Some e →
  unadjusted_from alpha w xs !! S i = Some (alpha * xi + (1 - alpha) * e)%Q.
Proof.
  revert w i. induction xs as [| c rest IH]; intros w i Hx He; [done |].
  destruct i as [| i]; simpl in *.
  - injection He as <-. destruct rest; simpl in *; [done |]. by injection Hx as ->.
  - by apply IH.
Qed.

Lemma unadjusted_ema_step alpha x i xi e :
  x !! S i = Some xi → unadjusted_ema alpha x !! i = Some e →
  unadjusted_ema alpha x !! S i = Some (alpha * xi + (1 - alpha) * e)%Q.
Proof.
  destruct x as [| x0 rest]; [done |]. simpl. intros Hx He.
  destruct i as [| i]; simpl in *.
  - injection He as <-. destruct rest; simpl in *; [done |]. by injection Hx as ->.
  - by apply unadjusted_from_step.
Qed.

End MovingAverages.

Section ExponentialAverage.

(** C1 (as stated) fails: with [p = 10] and the series of nine zeros
    followed by 11, row 9 of [calculate_ema] is 2, while the mean of the
    first ten values is 11/10. *)
Lemma ema_seed_is_not_the_mean :
  10%nat ∈ Config.EMA_PERIODS ∧
  ¬ ema_seeded_by_mean [0; 0; 0; 0; 0; 0; 0; 0; 0; 11]%Q 10.
Proof.
  split; [apply list_elem_of_here |].
  intros (_ & Hseed & _).
  destruct Hseed as (v & Hv & Hmean); [simpl; lia |].
  vm_compute in Hv. injection Hv as <-.
  vm_compute in Hmean. discriminate.
Qed.

(** C1 (amended): for a period [p] of the configured EMA set and
    [alpha = 2/(p+1)], [ema(x,p)[i]] is undefined on the rows [i < p - 1];
    on every row [i >= p - 1] it is the value [e[i]] of the recursion
    [e[0] = x[0]], [e[i] = alpha * x[i] + (1 - alpha) * e[i-1]], which runs
    from the first row (the value at row [p - 1] is [e[p-1]], not the mean of
    the first [p] values); hence for [i > p - 1],
    [ema[i] = alpha * x[i] + (1 - alpha) * ema[i-1]]. *)
Theorem calculate_ema_recursion (x : list Q) (p : nat) :
  p ∈ Config.EMA_PERIODS →
  (∀ i, (i < length x)%nat → (i < p - 1)%nat →
        calculate_ema x p !! i = Some NaN) ∧
  (∀ i, (i < length x)%nat → (p - 1 ≤ i)%nat →
        ∃ v e, calculate_ema x p !! i = Some (Fin v) ∧
               unadjusted_ema (smoothing p) x !! i = Some e ∧ (v == e)%Q) ∧
  (∀ i xi, (p - 1 < i)%nat → x !! i = Some xi →
        ∃ v v', calculate_ema x p !! i = Some (Fin v) ∧
                calculate_ema x p !! (i - 1)%nat = Some (Fin v') ∧
                (v == smoothing p * xi + (1 - smoothing p) * v')%Q).
Proof.
  intros Hp.
  assert (Hp10 : (10 ≤ p)%nat) by (apply configured_period_pos; by right).
  assert (Hrow : ∀ i, (i < length x)%nat →
            ∃ v e, unadjusted_ema (smoothing p) x !! i = Some e ∧ (v == e)%Q ∧
                   calculate_ema x p !! i =
                     Some (if decide (p ≤ S i)%nat then Fin v else NaN)).
  { intros i Hi.
    destruct (lookup_lt_is_Some_2 (unadjusted_ema (smoothing p) x) i) as [e He].
    { by rewrite length_unadjusted_ema. }
    destruct (calculate_ema_lookup x p i e) as (v & Hv & Hout); [lia | done |].
    by exists v, e. }
  split; [| split].
  - intros i Hi Hlt. destruct (Hrow i Hi) as (v & e & _ & _ & ->).
    case_decide; [lia | done].
  - intros i Hi Hge. destruct (Hrow i Hi) as (v & e & He & Hv & ->).
    exists v, e. case_decide; [done | lia].
  - intros i xi Hgt Hx. destruct i as [| j]; [lia |].
    assert (Hi : (S j < length x)%nat) by (by eapply lookup_lt_Some).
    destruct (Hrow j) as (v' & e' & He' & Hv' & Hout'); [lia |].
    destruct (Hrow (S j) Hi) as (v & e & He & Hv & Hout).
    rewrite (unadjusted_ema_step _ _ _ _ _ Hx He') in He. injection He as <-.
    exists v, v'. replace (S j - 1)%nat with j by lia.
    rewrite Hout, Hout'. repeat case_decide; try lia.
    split; [done |]. split; [done |]. by rewrite Hv, Hv'.
Qed.

Lemma calculate_ema_recursion_witness :
  let x := [0; 0; 0; 0; 0; 0; 0; 0; 0; 11; 22]%Q in
  (∀ i, (i < length x)%nat → (i < 10 - 1)%nat →
        calculate_ema x 10 !! i = Some NaN) ∧
  (∀ i, (i < length x)%nat → (10 - 1 ≤ i)%nat →
        ∃ v e, calculate_ema x 10 !! i = Some (Fin v) ∧
               unadjusted_ema (smoothing 10) x !! i = Some e ∧ (v == e)%Q) ∧
  (∀ i xi, (10 - 1 < i)%nat → x !! i = Some xi →
        ∃ v v', calculate_ema x 10 !! i = Some (Fin v) ∧
                calculate_ema x 10 !! (i - 1)%nat = Some (Fin v') ∧
                (v == smoothing 10 * xi + (1 - smoothing 10) * v')%Q).
Proof.
  intros x. apply (calculate_ema_recursion x 10). apply list_elem_of_here.
Defined.

End ExponentialAverage.

(** * T-Score *)

Section TScore.

Lemma foldl_Qmax_ge a l :
  (a <= foldl Qmax a l)%Q ∧ ∀ x, x ∈ l → (x <= foldl Qmax a l)%Q.
Proof.
  revert a. induction l as [| b l IH]; intros a; simpl.
  - split; [apply Qle_refl |]. intros x Hx. by apply elem_of_nil in Hx.
  - destruct (IH (Qmax a b)) as [H1 H2]. split.
    + eapply Qle_trans; [apply Q.le_max_l | exact H1].
    + intros x [-> | Hx]%elem_of_cons; [| by apply H2].
      eapply Qle_trans; [apply Q.le_max_r | exact H1].
Qed.

Lemma foldl_Qmin_le a l :
  (foldl Qmin a l <= a)%Q ∧ ∀ x, x ∈ l → (foldl Qmin a l <= x)%Q.
Proof.
  revert a. induction l as [| b l IH]; intros a; simpl.
  - split; [apply Qle_refl |]. intros x Hx. by apply elem_of_nil in Hx.
  - destruct (IH (Qmin a b)) as [H1 H2]. split.
    + eapply Qle_trans; [exact H1 | apply Q.le_min_l].
    + intros x [-> | Hx]%elem_of_cons; [| by apply H2].
      eapply Qle_trans; [exact H1 | apply Q.le_min_r].
Qed.

Lemma agg_max_ge win x :
  x ∈ win → ∃ m, agg_max win = Fin m ∧ (x <= m)%Q.
Proof.
  destruct win as [| a l]; [by intros ?%elem_of_nil |].
  intros Hx. eexists; split; [reflexivity |].
  destruct (foldl_Qmax_ge a l) as [H1 H2].
  apply elem_of_cons in Hx as [-> | Hx]; [done | by apply H2].
Qed.

Lemma agg_min_le win x :
  x ∈ win → ∃ m, agg_min win = Fin m ∧ (m <= x)%Q.
Proof.
  destruct win as [| a l]; [by intros ?%elem_of_nil |].
  intros Hx. eexists; split; [reflexivity |].
  destruct (foldl_Qmin_le a l) as [H1 H2].
  apply elem_of_cons in Hx as [-> | Hx]; [done | by apply H2].
Qed.

(** The current row belongs to its own trailing window. *)
Lemma elem_of_window {A} (w i : nat) (x : list A) xi :
  (0 < w)%nat → x !! i = Some xi → xi ∈ window w i x.
Proof.
  intros Hw Hx. apply list_elem_of_lookup. exists (i - (i + 1 - w))%nat.
  unfold window. rewrite lookup_take_lt by lia. rewrite lookup_drop.
  by replace (i + 1 - w + (i - (i + 1 - w)))%nat with i by lia.
Qed.

Lemma t_score_ratio_bounds c lm hm :
  (lm <= c)%Q → (c <= hm)%Q →
  let d := (hm - lm + epsilon)%Q in
  Qeq_bool d 0 = false ∧
  (0 <= (c - lm) / d * 100)%Q ∧ ((c - lm) / d * 100 <= 100)%Q.
Proof.
  intros Hlo Hhi d.
  assert (He : (0 < epsilon)%Q) by reflexivity.
  assert (Hd : (0 < d)%Q) by (unfold d; lra).
  split; [| split].
  - destruct (Qeq_bool d 0) eqn:E; [| done].
    apply Qeq_bool_iff in E. lra.
  - assert (0 <= (c - lm) / d)%Q by (apply Qle_shift_div_l; lra). lra.
  - assert ((c - lm) / d <= 1)%Q by (apply Qle_shift_div_r; unfold d; lra). lra.
Qed.

(** C4: on bars with [low <= close <= high], [t_score] is undefined on the
    first 13 rows; on every row [i >= 13] it is defined, a finite number
    (the denominator [high14max - low14min + 1e-10] is never zero, also on a
    flat 14-day range), and it lies in [0, 100] whenever
    [high14max[i] > low14min[i]]. *)
Theorem t_score_range (df : DataFrame) (i : nat) :
  Forall (λ r, (low (bar r) <= close (bar r))%Q ∧
               (close (bar r) <= high (bar r))%Q) df →
  (i < length df)%nat →
  ((i < 13)%nat → calculate_t_score df !! i = Some NaN) ∧
  ((13 ≤ i)%nat →
     ∃ v c hm lm,
       col close df !! i = Some c ∧
       rolling 14 14 agg_max (col high df) !! i = Some (Fin hm) ∧
       rolling 14 14 agg_min (col low df) !! i = Some (Fin lm) ∧
       calculate_t_score df !! i = Some (Fin v) ∧
       (v == (c - lm) / (hm - lm + epsilon) * 100)%Q ∧
       ((lm < hm)%Q → (0 <= v)%Q ∧ (v <= 100)%Q)).
Proof.
  intros Hbars Hi.
  destruct (lookup_lt_is_Some_2 df i Hi) as [r Hr].
  assert (Hrow := proj1 (Forall_lookup _ df) Hbars i r Hr). simpl in Hrow.
  destruct Hrow as [Hlc Hch].
  assert (Hc : col close df !! i = Some (close (bar r))).
  { by rewrite col_lookup, Hr. }
  assert (Hh : col high df !! i = Some (high (bar r))).
  { by rewrite col_lookup, Hr. }
  assert (Hl : col low df !! i = Some (low (bar r))).
  { by rewrite col_lookup, Hr. }
  assert (Hlenh : (i < length (col high df))%nat) by (by rewrite length_col).
  assert (Hlenl : (i < length (col low df))%nat) by (by rewrite length_col).
  unfold calculate_t_score.
  rewrite list_lookup_fmap, lookup_zip_with, list_lookup_fmap, !lookup_zip_with.
  unfold fcol. rewrite list_lookup_fmap, Hc, !rolling_lookup, Hh, Hl.
  rewrite !length_window by done. simpl. split.
  - intros Hlt. repeat case_decide; try lia. done.
  - intros Hge. repeat case_decide; try lia.
    destruct (agg_max_ge (window 14 i (col high df)) (high (bar r)))
      as (hm & -> & Hhm); [by apply elem_of_window; [lia |] |].
    destruct (agg_min_le (window 14 i (col low df)) (low (bar r)))
      as (lm & -> & Hlm); [by apply elem_of_window; [lia |] |].
    destruct (t_score_ratio_bounds (close (bar r)) lm hm) as (Hd & H0 & H100);
      [lra | lra |].
    simpl. unfold fsub. simpl.
    change (hm + - lm + epsilon)%Q with (hm - lm + epsilon)%Q.
    rewrite Hd. simpl.
    eexists _, _, hm, lm. repeat split; try reflexivity; done.
Qed.

Lemma t_score_range_witness :
  let df := (λ n : nat,
               mkRow (mkBar "X" (Z.of_nat n) 1 (inject_Z (Z.of_nat n) + 2)
                        (inject_Z (Z.of_nat n)) (inject_Z (Z.of_nat n) + 1)
                        100) ∅) <$> seq 0 15 in
  ((13 < 13)%nat → calculate_t_score df !! 13%nat = Some NaN) ∧
  ((13 ≤ 13)%nat →
     ∃ v c hm lm,
       col close df !! 13%nat = Some c ∧
       rolling 14 14 agg_max (col high df) !! 13%nat = Some (Fin hm) ∧
       rolling 14 14 agg_min (col low df) !! 13%nat = Some (Fin lm) ∧
       calculate_t_score df !! 13%nat = Some (Fin v) ∧
       (v == (c - lm) / (hm - lm + epsilon) * 100)%Q ∧
       ((lm < hm)%Q → (0 <= v)%Q ∧ (v <= 100)%Q)).
Proof.
  intros df. apply (t_score_range df 13).
  - unfold df. simpl.
    repeat (apply Forall_cons; split; [split; vm_compute; discriminate |]).
    apply Forall_nil_2.
  - simpl. lia.
Defined.

End TScore.

(** * F-Score *)

Section FScore.

Lemma add_flags_lookup score cond i z b :
  score !! i = Some z → cond !! i = Some b →
  add_flags score cond !! i = Some (z + Z.b2z b)%Z.
Proof.
  intros Hz Hb. unfold add_flags.
  by rewrite lookup_zip_with, list_lookup_fmap, Hz, Hb.
Qed.

Lemma foldl_add_flags_lookup i conds : ∀ score z bits,
  score !! i = Some z →
  Forall2 (λ (c : list bool) b, c !! i = Some b) conds bits →
  foldl add_flags score conds !! i =
    Some (z + foldr (λ b acc, Z.b2z b + acc) 0 bits)%Z.
Proof.
  induction conds as [| c conds IH]; intros score z bits Hz Hall.
  - apply Forall2_nil_inv_l in Hall as ->. simpl. rewrite Hz. f_equal. lia.
  - apply Forall2_cons_inv_l in Hall as (b & bits' & Hb & Hall & ->). simpl.
    rewrite (IH _ (z + Z.b2z b)%Z bits'); [f_equal; lia | | done].
    by apply add_flags_lookup.
Qed.

Lemma sum_bits_bounds bits :
  (0 ≤ foldr (λ b acc, Z.b2z b + acc) 0 bits ≤ Z.of_nat (length bits))%Z.
Proof.
  induction bits as [| [] bits IH]; simpl in *; lia.
Qed.

Lemma fgt_nan_l x : fgt NaN x = false.
Proof. by destruct x. Qed.

Lemma fgt_nan_r x : fgt x NaN = false.
Proof. by destruct x. Qed.

(** A comparison of two series is defined on every common row, and false
    where either side is NaN. *)
Lemma gt_component a b i :
  (i < length a)%nat → (i < length b)%nat →
  ∃ bit, zip_with fgt a b !! i = Some bit ∧
         (a !! i = Some NaN ∨ b !! i = Some NaN → bit = false).
Proof.
  intros [x Hx]%lookup_lt_is_Some_2 [y Hy]%lookup_lt_is_Some_2.
  exists (fgt x y). rewrite lookup_zip_with, Hx, Hy. split; [done |].
  intros [[= ->] | [= ->]]; [apply fgt_nan_l | apply fgt_nan_r].
Qed.

Lemma pos_component r i :
  (i < length r)%nat →
  ∃ bit, ((λ v, fgt v (Fin 0)) <$> r) !! i = Some bit ∧
         (r !! i = Some NaN → bit = false).
Proof.
  intros [x Hx]%lookup_lt_is_Some_2. exists (fgt x (Fin 0)).
  rewrite list_lookup_fmap, Hx. split; [done |]. by intros [= ->].
Qed.

(** C3: on every row, [f_score] is defined, an integer between 0 and 9: the
    sum of nine bits, one per component, and the bit of a component is 0
    on a row where a moving average, shift or percent change it reads is
    undefined. *)
Theorem f_score_bounds (df : DataFrame) (i : nat) :
  (i < length df)%nat →
  ∃ (z : Z) (bits : list bool),
    calculate_f_score df !! i = Some z ∧
    (0 ≤ z ≤ 9)%Z ∧
    length bits = 9%nat ∧
    z = foldr (λ b acc, Z.b2z b + acc)%Z 0%Z bits ∧
    Forall2 (λ comp b,
               comp.2 !! i = Some b ∧
               ((∃ s, s ∈ comp.1 ∧ s !! i = Some NaN) → b = false))
            (f_score_components df) bits.
Proof.
  intros Hi.
  assert (Hparts : ∃ bits,
            Forall2 (λ comp b,
               comp.2 !! i = Some b ∧
               ((∃ s, s ∈ comp.1 ∧ s !! i = Some NaN) → b = false))
            (f_score_components df) bits).
  { unfold f_score_components.
    assert (Hlen : ∀ w f, (i < length (rolling w w agg_mean (col f df)))%nat).
    { intros. by rewrite length_rolling, length_col. }
    assert (Hf : ∀ f, (i < length (fcol f df))%nat).
    { intros. by rewrite length_fcol. }
    assert (Hs : ∀ k x, (i < length x)%nat → (i < length (shift k x))%nat).
    { intros. by rewrite length_shift. }
    assert (Hp : ∀ k x, (i < length x)%nat → (i < length (pct_change k x))%nat).
    { intros. by rewrite length_pct_change. }
    destruct (gt_component (fcol close df)
                (rolling 50 50 agg_mean (col close df)) i) as (b1 & Hb1 & Hn1); auto.
    destruct (gt_component (fcol close df) (shift 20 (fcol close df)) i)
      as (b2 & Hb2 & Hn2); auto.
    destruct (gt_component (rolling 50 50 agg_mean (col close df))
                (shift 20 (rolling 50 50 agg_mean (col close df))) i)
      as (b3 & Hb3 & Hn3); auto.
    destruct (gt_component (fcol volume df)
                (rolling 50 50 agg_mean (col volume df)) i) as (b4 & Hb4 & Hn4); auto.
    destruct (gt_component (rolling 10 10 agg_mean (col close df))
                (rolling 20 20 agg_mean (col close df)) i) as (b5 & Hb5 & Hn5); auto.
    destruct (gt_component (rolling 20 20 agg_mean (col close df))
                (rolling 50 50 agg_mean (col close df)) i) as (b6 & Hb6 & Hn6); auto.
    destruct (gt_component (fcol close df)
                (rolling 200 200 agg_mean (col close df)) i) as (b7 & Hb7 & Hn7); auto.
    destruct (pos_component (pct_change 5 (fcol close df)) i) as (b8 & Hb8 & Hn8); auto.
    destruct (pos_component (pct_change 20 (fcol close df)) i) as (b9 & Hb9 & Hn9); auto.
    exists [b1; b2; b3; b4; b5; b6; b7; b8; b9].
    repeat (apply Forall2_cons_2; [split; [done |] |]); [.. | apply Forall2_nil_2];
      intros (s & Hs' & Hnan); simpl in Hs';
      rewrite ?elem_of_cons, elem_of_nil in Hs'; intuition (subst; auto). }
  destruct Hparts as [bits Hbits].
  assert (Hlen : length bits = 9%nat).
  { apply Forall2_length in Hbits. by rewrite <- Hbits. }
  exists (foldr (λ b acc, Z.b2z b + acc)%Z 0%Z bits), bits.
  split; [| split; [| done]].
  - unfold calculate_f_score.
    rewrite (foldl_add_flags_lookup i _ _ 0%Z bits).
    + f_equal.
    + by apply lookup_replicate_2.
    + apply Forall2_fmap_l. eapply Forall2_impl; [exact Hbits |].
      by intros comp b [? _].
  - pose proof (sum_bits_bounds bits) as Hb. rewrite Hlen in Hb. lia.
Qed.

Lemma f_score_bounds_witness :
  let df := [mkRow (mkBar "X" 1 10 10 9 10 100) ∅;
             mkRow (mkBar "X" 2 12 12 11 12 100) ∅] in
  ∃ (z : Z) (bits : list bool),
    calculate_f_score df !! 1%nat = Some z ∧
    (0 ≤ z ≤ 9)%Z ∧
    length bits = 9%nat ∧
    z = foldr (λ b acc, Z.b2z b + acc)%Z 0%Z bits ∧
    Forall2 (λ comp b,
               comp.2 !! 1%nat = Some b ∧
               ((∃ s, s ∈ comp.1 ∧ s !! 1%nat = Some NaN) → b = false))
            (f_score_components df) bits.
Proof.
  intros df. apply (f_score_bounds df 1). simpl. lia.
Defined.

End FScore.

(** * Frames as heap objects *)

Section HeapFacts.

Implicit Types (h : list (list Row)) (l : loc) (d v : list Row).

Lemma bind_run {A B} (m : M A) (k : A → M B) h a h' :
  m h = Some (a, h') → bind m k h = k a h'.
Proof. intros H. unfold bind. by rewrite H. Qed.

Lemma read_run h l v : h !! l = Some v → read l h = Some (v, h).
Proof. intros H. unfold read. by rewrite H. Qed.

Lemma copy_run h l v : h !! l = Some v → copy l h = Some (length h, h ++ [v]).
Proof. intros H. unfold copy. by rewrite (bind_run _ _ _ _ _ (read_run _ _ _ H)). Qed.

Lemma getitem_symbol_run h l s v :
  h !! l = Some v →
  getitem_symbol l s h = Some (length h, h ++ [select_symbol s v]).
Proof.
  intros H. unfold getitem_symbol.
  by rewrite (bind_run _ _ _ _ _ (read_run _ _ _ H)).
Qed.

Lemma sort_values_run h l v :
  h !! l = Some v → sort_values l h = Some (length h, h ++ [sort_by_date v]).
Proof.
  intros H. unfold sort_values.
  by rewrite (bind_run _ _ _ _ _ (read_run _ _ _ H)).
Qed.

Lemma transforms_ret {A} l (a : A) : transforms (ret a) l id a.
Proof. intros h v H. unfold ret. by rewrite list_insert_id. Qed.

Lemma transforms_setitem l name f :
  transforms (setitem l name f) l (set_column name f) tt.
Proof.
  intros h v H. unfold setitem.
  rewrite (bind_run _ _ _ _ _ (read_run _ _ _ H)). unfold write.
  apply lookup_lt_Some in H. by case_decide.
Qed.

Lemma transforms_seq {A} m1 (m2 : M A) l g1 g2 a :
  transforms m1 l g1 tt → transforms m2 l g2 a →
  transforms (bind m1 (λ _, m2)) l (g2 ∘ g1) a.
Proof.
  intros H1 H2 h v H. rewrite (bind_run _ _ _ _ _ (H1 _ _ H)).
  assert (Hl : (l < length h)%nat) by (by eapply lookup_lt_Some).
  rewrite (H2 _ (g1 v)) by (by apply list_lookup_insert_eq).
  by rewrite list_insert_insert_eq.
Qed.

Lemma transforms_for_each {A} (ps : list A) l name f :
  transforms (for_each ps (λ p, setitem l (name p) (f p))) l
    (set_columns ps name f) tt.
Proof.
  induction ps as [| p ps IH].
  - apply transforms_ret.
  - simpl. intros h v H.
    pose proof (transforms_seq _ _ _ _ _ _
                  (transforms_setitem l (name p) (f p)) IH) as Hs.
    by rewrite (Hs h v H).
Qed.

(** The fourteen assignments of [add_all_indicators] change the sorted copy
    by [with_indicators]. *)
Lemma transforms_indicator_columns l :
  ∃ g, (∀ v, g v = with_indicators v) ∧
  transforms
   (setitem l "t_score" (λ d, CFloat <$> calculate_t_score d) ;;
    setitem l "f_score" (λ d, CInt <$> calculate_f_score d) ;;
    for_each Config.DMA_PERIODS (λ period,
      setitem l ("dma_" +:+ pretty period)
        (λ d, CFloat <$> calculate_sma (col close d) period)) ;;
    for_each Config.EMA_PERIODS (λ period,
      setitem l ("ema_" +:+ pretty period)
        (λ d, CFloat <$> calculate_ema (col close d) period)) ;;
    setitem l "is_52_week_high" (λ d, CBool <$> calculate_52_week_high d) ;;
    setitem l "is_52_week_low" (λ d, CBool <$> calculate_52_week_low d) ;;
    setitem l "is_all_time_high" (λ d, CBool <$> calculate_all_time_high d) ;;
    setitem l "is_all_time_low" (λ d, CBool <$> calculate_all_time_low d) ;;
    ret l)%heap l g l.
Proof.
  eexists. split; last first.
  - eapply transforms_seq; [apply transforms_setitem |].
    eapply transforms_seq; [apply transforms_setitem |].
    eapply transforms_seq;
      [apply (transforms_for_each Config.DMA_PERIODS l
                (λ p, "dma_" +:+ pretty p)
                (λ p d, CFloat <$> calculate_sma (col close d) p)) |].
    eapply transforms_seq;
      [apply (transforms_for_each Config.EMA_PERIODS l
                (λ p, "ema_" +:+ pretty p)
                (λ p d, CFloat <$> calculate_ema (col close d) p)) |].
    eapply transforms_seq; [apply transforms_setitem |].
    eapply transforms_seq; [apply transforms_setitem |].
    eapply transforms_seq; [apply transforms_setitem |].
    eapply transforms_seq; [apply transforms_setitem |].
    apply transforms_ret.
  - intros v. reflexivity.
Qed.

Lemma add_all_indicators_run h l d :
  h !! l = Some d →
  add_all_indicators l h =
    Some (length h + 2, h ++ [d; d; with_indicators (sort_by_date d)])%nat.
Proof.
  intros Hd. unfold add_all_indicators.
  rewrite (bind_run _ _ _ _ _ (copy_run _ _ _ Hd)).
  assert (H1 : (h ++ [d]) !! length h = Some d).
  { by rewrite lookup_app_r, Nat.sub_diag. }
  assert (H2 : ((h ++ [d]) ++ [d]) !! length (h ++ [d]) = Some d).
  { by rewrite lookup_app_r, Nat.sub_diag. }
  rewrite (bind_run _ _ (h ++ [d]) (length h + 2)%nat
             (((h ++ [d]) ++ [d]) ++ [sort_by_date d])); last first.
  { rewrite (bind_run _ _ _ _ _ (copy_run _ _ _ H1)).
    rewrite (sort_values_run _ _ _ H2). rewrite !length_app. simpl.
    do 2 f_equal. lia. }
  set (l' := (length h + 2)%nat).
  set (h' := ((h ++ [d]) ++ [d]) ++ [sort_by_date d]).
  assert (Hl' : h' !! l' = Some (sort_by_date d)).
  { unfold h', l'. rewrite lookup_app_r; rewrite !length_app; simpl; [| lia].
    by replace (length h + 2 - (length h + 1 + 1))%nat with 0%nat by lia. }
  destruct (transforms_indicator_columns l') as (g & Hg & Hrun).
  rewrite (Hrun h' _ Hl'), Hg. f_equal. f_equal.
  unfold h', l'.
  rewrite <- !(assoc_L (++)). simpl.
  rewrite insert_app_r_alt by lia.
  by replace (length h + 2 - length h)%nat with 2%nat by lia.
Qed.

Lemma process_symbol_run h df d s :
  h !! df = Some d →
  ∃ l ext,
    (let* symbol_data := (let* sel := getitem_symbol df s in copy sel) in
     let* symbol_data := sort_values symbol_data in
     add_all_indicators symbol_data)%heap h = Some (l, h ++ ext) ∧
    (h ++ ext) !! l = Some (process_symbol s d).
Proof.
  intros Hd. set (sel := select_symbol s d).
  set (h1 := h ++ [sel]). set (h2 := h1 ++ [sel]).
  set (h3 := h2 ++ [sort_by_date sel]).
  assert (H1 : h1 !! length h = Some sel).
  { unfold h1. by rewrite lookup_app_r, Nat.sub_diag. }
  assert (H2 : h2 !! length h1 = Some sel).
  { unfold h2. by rewrite lookup_app_r, Nat.sub_diag. }
  assert (H3 : h3 !! length h2 = Some (sort_by_date sel)).
  { unfold h3. by rewrite lookup_app_r, Nat.sub_diag. }
  exists (length h3 + 2)%nat,
    ([sel; sel; sort_by_date sel] ++
     [sort_by_date sel; sort_by_date sel;
      with_indicators (sort_by_date (sort_by_date sel))]).
  assert (E : h ++ ([sel; sel; sort_by_date sel] ++
     [sort_by_date sel; sort_by_date sel;
      with_indicators (sort_by_date (sort_by_date sel))]) =
     h3 ++ [sort_by_date sel; sort_by_date sel;
      with_indicators (sort_by_date (sort_by_date sel))]).
  { unfold h3, h2, h1. by rewrite <- !(assoc_L (++)). }
  rewrite E. split.
  - rewrite (bind_run _ _ h (length h1) h2); last first.
    { rewrite (bind_run _ _ _ _ _ (getitem_symbol_run _ _ s _ Hd)).
      fold sel. fold h1. by rewrite (copy_run _ _ _ H1). }
    rewrite (bind_run _ _ _ _ _ (sort_values_run _ _ _ H2)). fold h3.
    by rewrite (add_all_indicators_run _ _ _ H3).
  - rewrite lookup_app_r by lia.
    by replace (length h3 + 2 - length h3)%nat with 2%nat by lia.
Qed.

Lemma collect_symbols_run df d ss : ∀ h,
  h !! df = Some d →
  ∃ locs ext,
    collect ss (λ s,
      let* symbol_data := (let* sel := getitem_symbol df s in copy sel) in
      let* symbol_data := sort_values symbol_data in
      add_all_indicators symbol_data)%heap h = Some (locs, h ++ ext) ∧
    Forall2 (λ l s, (h ++ ext) !! l = Some (process_symbol s d)) locs ss.
Proof.
  induction ss as [| s ss IH]; intros h Hd.
  - exists [], []. simpl. unfold ret. by rewrite app_nil_r.
  - destruct (process_symbol_run h df d s Hd) as (l & ext1 & Hrun & Hl).
    destruct (IH (h ++ ext1)) as (locs & ext2 & Hrest & Hall).
    { by apply lookup_app_l_Some. }
    exists (l :: locs), (ext1 ++ ext2). simpl.
    rewrite (bind_run _ _ _ _ _ Hrun), (bind_run _ _ _ _ _ Hrest).
    unfold ret. rewrite (assoc_L (++)). split; [done |].
    apply Forall2_cons_2; [| done]. by apply lookup_app_l_Some.
Qed.

Lemma collect_read_run h locs frames :
  Forall2 (λ l (f : list Row), h !! l = Some f) locs frames →
  collect locs read h = Some (frames, h).
Proof.
  induction 1 as [| l f locs frames Hl _ IH]; [done |]. simpl.
  by rewrite (bind_run _ _ _ _ _ (read_run _ _ _ Hl)), (bind_run _ _ _ _ _ IH).
Qed.

Lemma symbols_of_nil d : symbols_of d = [] ↔ d = [].
Proof. unfold symbols_of. by destruct d. Qed.

(** [process_multiple_symbols] on an empty frame raises (nothing to
    concatenate); on any other frame it only allocates, and returns a new
    frame holding [process_frame]. *)
Lemma process_multiple_symbols_run h df d :
  h !! df = Some d →
  (d = [] → process_multiple_symbols df h = None) ∧
  (d ≠ [] → ∃ l ext,
     process_multiple_symbols df h = Some (l, h ++ ext) ∧
     (h ++ ext) !! l = Some (process_frame d)).
Proof.
  intros Hd. unfold process_multiple_symbols.
  rewrite (bind_run _ _ _ _ _ (read_run _ _ _ Hd)).
  fold (symbols_of d).
  destruct (collect_symbols_run df d (symbols_of d) h Hd)
    as (locs & ext & Hrun & Hall).
  rewrite (bind_run _ _ _ _ _ Hrun). unfold pd_concat.
  assert (Hframes : Forall2 (λ l (f : list Row), (h ++ ext) !! l = Some f) locs
            ((λ s, process_symbol s d) <$> symbols_of d)).
  { by apply Forall2_fmap_r. }
  rewrite (bind_run _ _ _ _ _ (collect_read_run _ _ _ Hframes)).
  split.
  - intros ->. by rewrite (proj2 (symbols_of_nil [])).
  - intros Hne.
    exists (length (h ++ ext)), (ext ++ [process_frame d]).
    rewrite (assoc_L (++)). split; [| by rewrite lookup_app_r, Nat.sub_diag].
    unfold process_frame.
    destruct (symbols_of d) as [| s ss] eqn:E; [by apply symbols_of_nil in E |].
    rewrite fmap_cons. reflexivity.
Qed.

End HeapFacts.

(** * Frames *)

Section FrameFacts.

Implicit Types (d : list Row) (s : string).

Lemma assign_bars name values d :
  length values = length d → bar <$> assign name values d = bar <$> d.
Proof.
  unfold assign. revert values.
  induction d as [| r d IH]; intros [| c values] Hlen; simplify_eq/=; [done |].
  by rewrite IH.
Qed.

Lemma length_ewm_go alpha minp nobs w xs :
  length (ewm_go alpha minp nobs w xs) = length xs.
Proof.
  revert nobs w. induction xs as [| c xs IH]; intros; simpl; [done |].
  by rewrite IH.
Qed.

Lemma length_calculate_ema x p : length (calculate_ema x p) = length x.
Proof.
  unfold calculate_ema, ewm_mean. destruct x; simpl; [done |].
  by rewrite length_ewm_go.
Qed.

Lemma length_calculate_sma x p : length (calculate_sma x p) = length x.
Proof. apply length_rolling. Qed.

Lemma length_calculate_t_score d : length (calculate_t_score d) = length d.
Proof.
  unfold calculate_t_score.
  rewrite !length_fmap, !length_zip_with, length_fmap, !length_zip_with.
  rewrite length_fcol, !length_rolling, !length_col. lia.
Qed.

Lemma length_foldl_add_flags (n : nat) conds : ∀ score,
  length score = n → Forall (λ c : list bool, length c = n) conds →
  length (foldl add_flags score conds) = n.
Proof.
  induction conds as [| c conds IH]; intros score Hs Hall; [done |].
  apply Forall_cons in Hall as [Hc Hall]. simpl. apply IH; [| done].
  unfold add_flags. rewrite length_zip_with, length_fmap. lia.
Qed.

Lemma length_calculate_f_score d : length (calculate_f_score d) = length d.
Proof.
  unfold calculate_f_score. apply length_foldl_add_flags.
  - apply length_replicate.
  - unfold f_score_components. simpl.
    repeat (apply Forall_cons; split;
      [rewrite ?length_fmap, ?length_zip_with, ?length_pct_change,
         ?length_shift, ?length_fcol, ?length_rolling, ?length_col; lia |]).
    apply Forall_nil_2.
Qed.

Lemma length_calculate_52_week_high d :
  length (calculate_52_week_high d) = length d.
Proof.
  unfold calculate_52_week_high.
  rewrite length_zip_with, length_fcol, length_rolling, length_col. lia.
Qed.

Lemma length_calculate_52_week_low d :
  length (calculate_52_week_low d) = length d.
Proof.
  unfold calculate_52_week_low.
  rewrite length_zip_with, length_fcol, length_rolling, length_col. lia.
Qed.

Lemma length_calculate_all_time_high d :
  length (calculate_all_time_high d) = length d.
Proof.
  unfold calculate_all_time_high.
  rewrite length_zip_with, length_fcol, length_expanding, length_col. lia.
Qed.

Lemma length_calculate_all_time_low d :
  length (calculate_all_time_low d) = length d.
Proof.
  unfold calculate_all_time_low.
  rewrite length_zip_with, length_fcol, length_expanding, length_col. lia.
Qed.

Lemma set_column_bars name f d :
  (∀ d', length (f d') = length d') →
  bar <$> set_column name f d = bar <$> d.
Proof. intros Hf. unfold set_column. by apply assign_bars. Qed.

Lemma set_columns_bars {A} (ps : list A) name f d :
  (∀ p d', length (f p d') = length d') →
  bar <$> set_columns ps name f d = bar <$> d.
Proof.
  intros Hf. unfold set_columns. revert d.
  induction ps as [| p ps IH]; intros d; simpl; [done |].
  rewrite IH. by apply set_column_bars.
Qed.

(** The assignments keep the seven columns of every bar. *)
Lemma with_indicators_bars d : bar <$> with_indicators d = bar <$> d.
Proof.
  unfold with_indicators.
  repeat first
    [ rewrite set_column_bars
    | rewrite set_columns_bars ];
    try done; intros; rewrite length_fmap;
    rewrite ?length_calculate_sma, ?length_calculate_ema, ?length_col;
    auto using length_calculate_t_score, length_calculate_f_score,
      length_calculate_52_week_high, length_calculate_52_week_low,
      length_calculate_all_time_high, length_calculate_all_time_low.
Qed.

Lemma insert_by_date_sorted r d :
  date_sorted (r :: d) → insert_by_date r d = r :: d.
Proof.
  intros H. destruct d as [| r' d]; [done |]. simpl.
  apply Sorted_inv in H as [_ Hhd]. apply HdRel_inv in Hhd.
  by case_decide.
Qed.

(** Sorting a frame that is in ascending date order leaves it as it is. *)
Lemma sort_by_date_sorted d : date_sorted d → sort_by_date d = d.
Proof.
  induction d as [| r d IH]; intros H; [done |]. simpl.
  rewrite IH by (by apply Sorted_inv in H as [? _]).
  by apply insert_by_date_sorted.
Qed.

Lemma insert_by_date_perm r d : insert_by_date r d ≡ₚ r :: d.
Proof.
  induction d as [| r' d IH]; simpl; [done |].
  case_decide; [done |]. rewrite IH. apply perm_swap.
Qed.

Lemma sort_by_date_perm d : sort_by_date d ≡ₚ d.
Proof.
  induction d as [| r d IH]; simpl; [done |].
  by rewrite insert_by_date_perm, IH.
Qed.

Lemma select_symbol_Forall s d :
  Forall (λ r, symbol (bar r) = s) (select_symbol s d).
Proof.
  unfold select_symbol. apply Forall_forall. by intros r [? _]%list_elem_of_filter.
Qed.

Lemma bars_Forall (P : Bar → Prop) d d' :
  bar <$> d = bar <$> d' → Forall (λ r, P (bar r)) d' → Forall (λ r, P (bar r)) d.
Proof.
  intros E H. apply (Forall_fmap bar P). rewrite E. by apply Forall_fmap.
Qed.

Lemma process_symbol_Forall s d :
  Forall (λ r, symbol (bar r) = s) (process_symbol s d).
Proof.
  unfold process_symbol.
  eapply (bars_Forall (λ b, symbol b = s)); [apply with_indicators_bars |].
  rewrite !sort_by_date_perm. apply select_symbol_Forall.
Qed.

Lemma process_symbol_bars s d :
  date_sorted (select_symbol s d) →
  bar <$> process_symbol s d = bar <$> select_symbol s d.
Proof.
  intros H. unfold process_symbol.
  by rewrite with_indicators_bars, !sort_by_date_sorted
    by (by rewrite ?sort_by_date_sorted).
Qed.

Lemma elem_of_unique x l : x ∈ unique l ↔ x ∈ l.
Proof.
  induction l as [| y l IH]; simpl; [done |].
  rewrite !elem_of_cons, list_elem_of_filter, IH.
  destruct (decide (x = y)); tauto.
Qed.

Lemma NoDup_unique l : NoDup (unique l).
Proof.
  induction l as [| y l IH]; simpl; [apply NoDup_nil_2 |].
  apply NoDup_cons_2.
  - rewrite list_elem_of_filter. by intros [? _].
  - by apply NoDup_filter.
Qed.

Lemma select_symbol_absent s d :
  s ∉ symbols_of d → select_symbol s d = [].
Proof.
  unfold symbols_of. rewrite elem_of_unique. intros H.
  unfold select_symbol. induction d as [| r d IH]; [done |].
  rewrite fmap_cons, not_elem_of_cons in H. destruct H as [Hne Hd].
  rewrite filter_cons_False by (simpl in Hne; congruence). by apply IH.
Qed.

(** The rows of one symbol in a concatenation of per-symbol groups. *)
Lemma select_symbol_groups (F : string → list Row) ss s :
  (∀ t, Forall (λ r, symbol (bar r) = t) (F t)) → NoDup ss →
  select_symbol s (concat (F <$> ss)) = if decide (s ∈ ss) then F s else [].
Proof.
  intros HF. unfold select_symbol.
  assert (Hsame : filter (λ r, symbol (bar r) = s) (F s) = F s).
  { specialize (HF s). induction HF as [| r l Hr _ IH]; [done |].
    by rewrite filter_cons_True, IH. }
  assert (Hother : ∀ t, t ≠ s → filter (λ r, symbol (bar r) = s) (F t) = []).
  { intros t Hne. specialize (HF t). induction HF as [| r l Hr _ IH]; [done |].
    rewrite filter_cons_False by congruence. done. }
  induction ss as [| t ss IH]; intros Hnd; [done |].
  apply NoDup_cons in Hnd as [Ht Hnd]. rewrite fmap_cons. simpl.
  rewrite filter_app, IH by done.
  destruct (decide (t = s)) as [-> | Hne].
  - rewrite Hsame. destruct (decide (s ∈ ss)) as [| _]; [done |].
    destruct (decide (s ∈ s :: ss)) as [_ | Hout]; [by rewrite app_nil_r |].
    destruct Hout. apply list_elem_of_here.
  - rewrite Hother by done. simpl.
    destruct (decide (s ∈ ss)) as [Hin | Hout].
    + destruct (decide (s ∈ t :: ss)) as [_ | Hout']; [done |].
      destruct Hout'. by apply list_elem_of_further.
    + destruct (decide (s ∈ t :: ss)) as [Hin' | _]; [| done].
      apply elem_of_cons in Hin' as [-> | ?]; done.
Qed.

Lemma with_indicators_nil : with_indicators [] = [].
Proof. reflexivity. Qed.

(** The rows of a symbol in the result are the rows its own iteration
    computed. *)
Lemma select_symbol_process_frame s d :
  select_symbol s (process_frame d) = process_symbol s d.
Proof.
  unfold process_frame.
  rewrite (select_symbol_groups (λ t, process_symbol t d));
    [| intros; apply process_symbol_Forall | apply NoDup_unique].
  case_decide as Hs; [done |].
  unfold process_symbol. by rewrite (select_symbol_absent _ _ Hs).
Qed.

Lemma select_symbol_regroup s d :
  select_symbol s (regroup d) = select_symbol s d.
Proof.
  unfold regroup.
  rewrite (select_symbol_groups (λ t, select_symbol t d));
    [| intros; apply select_symbol_Forall | apply NoDup_unique].
  case_decide as Hs; [done |]. by rewrite (select_symbol_absent _ _ Hs).
Qed.

Lemma groups_perm d ss :
  NoDup ss →
  concat ((λ s, select_symbol s d) <$> ss) ≡ₚ
    filter (λ r, symbol (bar r) ∈ ss) d.
Proof.
  induction ss as [| s ss IH]; intros Hnd.
  - simpl. induction d as [| r d IHd]; [done |].
    rewrite filter_cons_False; [done | by intros ?%elem_of_nil].
  - apply NoDup_cons in Hnd as [Hs Hnd]. rewrite fmap_cons. simpl.
    rewrite IH by done. unfold select_symbol. clear IH.
    induction d as [| r d IHd]; [done |].
    rewrite !filter_cons.
    destruct (decide (symbol (bar r) = s)) as [E | Hne].
    + destruct (decide (symbol (bar r) ∈ ss)) as [Hin | _];
        [by rewrite E in Hin |].
      destruct (decide (symbol (bar r) ∈ s :: ss)) as [_ | Hout].
      * simpl. by rewrite IHd.
      * destruct Hout. rewrite E. apply list_elem_of_here.
    + destruct (decide (symbol (bar r) ∈ ss)) as [Hin | Hout].
      * destruct (decide (symbol (bar r) ∈ s :: ss)) as [_ | Hout'].
        -- rewrite <- IHd. by rewrite Permutation_middle.
        -- destruct Hout'. by apply list_elem_of_further.
      * destruct (decide (symbol (bar r) ∈ s :: ss)) as [Hin' | _]; [| done].
        apply elem_of_cons in Hin' as [? | ?]; done.
Qed.

(** Regrouping by symbol rearranges the rows, and loses or adds none. *)
Lemma regroup_perm d : regroup d ≡ₚ d.
Proof.
  unfold regroup. rewrite groups_perm by apply NoDup_unique.
  induction d as [| r d IH]; [done |].
  assert (Hall : ∀ l (P : Row → Prop) `{∀ x, Decision (P x)},
            Forall P l → filter P l = l).
  { intros l P ? H. induction H as [| x l' Hx _ IHl]; [done |].
    by rewrite filter_cons_True, IHl. }
  apply reflexive_eq, Hall. apply Forall_forall. intros x Hx.
  unfold symbols_of. rewrite elem_of_unique.
  apply list_elem_of_fmap. by exists x.
Qed.

Lemma process_frame_bars d :
  (∀ s, date_sorted (select_symbol s d)) →
  bar <$> process_frame d = bar <$> regroup d.
Proof.
  intros H. unfold process_frame, regroup.
  induction (symbols_of d) as [| s ss IH]; [reflexivity |].
  rewrite !fmap_cons. change (concat (?x :: ?l)) with (x ++ concat l).
  rewrite !fmap_app, IH. by rewrite process_symbol_bars.
Qed.

End FrameFacts.

(** * The batch processor *)

Section BatchProcessor.

Implicit Types (h : list (list Row)) (d : list Row).

(** Called on a frame in ascending date order, [add_all_indicators] returns
    a new frame with the bars of its argument, and changes no frame that
    existed before the call. *)
Lemma add_all_indicators_frame h l d :
  h !! l = Some d → date_sorted d →
  ∃ l' h' out,
    add_all_indicators l h = Some (l', h') ∧ h' !! l' = Some out ∧
    bar <$> out = bar <$> d ∧
    (∀ k v, h !! k = Some v → h' !! k = Some v).
Proof.
  intros Hd Hs. eexists _, _, _. split; [by apply add_all_indicators_run |].
  split; [| split].
  - rewrite lookup_app_r by lia.
    by replace (length h + 2 - length h)%nat with 2%nat by lia.
  - by rewrite with_indicators_bars, sort_by_date_sorted.
  - intros k v Hk. by apply lookup_app_l_Some.
Qed.

(** C10: on a bar collection whose rows are, symbol by symbol, in ascending
    date order, the indicator computation only adds columns: the result is a
    new frame whose rows carry, in order, the symbol, date, open, high, low,
    close and volume of the input rows regrouped by symbol (a rearrangement
    of the input rows), and every frame that existed before the call, the
    caller's input among them, is left as it was. *)
Theorem indicators_only_add_columns h (l : loc) d :
  h !! l = Some d → d ≠ [] →
  (∀ s, date_sorted (select_symbol s d)) →
  ∃ l' h' out,
    process_multiple_symbols l h = Some (l', h') ∧
    h' !! l' = Some out ∧
    bar <$> out = bar <$> regroup d ∧
    regroup d ≡ₚ d ∧
    (∀ s, bar <$> select_symbol s out = bar <$> select_symbol s d) ∧
    h' !! l = Some d ∧
    (∀ k v, h !! k = Some v → h' !! k = Some v).
Proof.
  intros Hd Hne Hsorted.
  destruct (process_multiple_symbols_run h l d Hd) as [_ Hrun].
  destruct (Hrun Hne) as (l' & ext & Hr & Hl).
  exists l', (h ++ ext), (process_frame d).
  split; [done |]. split; [done |].
  split; [by apply process_frame_bars |].
  split; [apply regroup_perm |].
  split; [| split].
  - intros s. rewrite select_symbol_process_frame. by apply process_symbol_bars.
  - by apply lookup_app_l_Some.
  - intros k v Hk. by apply lookup_app_l_Some.
Qed.

Lemma indicators_only_add_columns_witness :
  let d := [ mkRow (mkBar "X" 1 10 10 9 10 100) ∅;
             mkRow (mkBar "Y" 1 20 21 19 20 300) ∅;
             mkRow (mkBar "X" 2 12 12 11 12 200) ∅ ] in
  ∃ l' h' out,
    process_multiple_symbols 0%nat [d] = Some (l', h') ∧
    h' !! l' = Some out ∧
    bar <$> out = bar <$> regroup d ∧
    regroup d ≡ₚ d ∧
    (∀ s, bar <$> select_symbol s out = bar <$> select_symbol s d) ∧
    h' !! 0%nat = Some d ∧
    (∀ k v, [d] !! k = Some v → h' !! k = Some v).
Proof.
  intros d. apply (indicators_only_add_columns [d] 0%nat d).
  - reflexivity.
  - discriminate.
  - intros s. unfold d, select_symbol, date_sorted. rewrite !filter_cons, filter_nil.
    cbn [bar symbol]. repeat case_decide; repeat constructor; cbn; lia.
Defined.

Lemma select_symbol_filter_ne A B d :
  A ≠ B →
  select_symbol B (filter (λ r, symbol (bar r) ≠ A) d) = select_symbol B d.
Proof.
  intros Hne. unfold select_symbol.
  induction d as [| r d IH]; [done |].
  destruct (decide (symbol (bar r) = B)) as [E | Hn].
  - rewrite (filter_cons_True (λ r, symbol (bar r) ≠ A)) by congruence.
    by rewrite !filter_cons_True, IH by done.
  - rewrite (filter_cons_False (λ r, symbol (bar r) = B) r d) by done.
    rewrite <- IH. destruct (decide (symbol (bar r) = A)).
    + by rewrite (filter_cons_False (λ r, symbol (bar r) ≠ A)) by tauto.
    + rewrite (filter_cons_True (λ r, symbol (bar r) ≠ A)) by done.
      by rewrite filter_cons_False by done.
Qed.

(** C8: two runs of the batch processing on bar collections that differ
    only in the rows of symbol [A] (other rows, corrupted rows, or none at
    all) compute the same indicator rows for every other symbol [B]. *)
Theorem per_symbol_isolation h1 (l1 : loc) d1 h2 (l2 : loc) d2 (A B : string) :
  h1 !! l1 = Some d1 → h2 !! l2 = Some d2 →
  d1 ≠ [] → d2 ≠ [] → A ≠ B →
  filter (λ r, symbol (bar r) ≠ A) d1 = filter (λ r, symbol (bar r) ≠ A) d2 →
  ∃ l1' h1' out1 l2' h2' out2,
    process_multiple_symbols l1 h1 = Some (l1', h1') ∧
    h1' !! l1' = Some out1 ∧
    process_multiple_symbols l2 h2 = Some (l2', h2') ∧
    h2' !! l2' = Some out2 ∧
    select_symbol B out1 = select_symbol B out2.
Proof.
  intros Hd1 Hd2 Hne1 Hne2 HAB Hsame.
  destruct (process_multiple_symbols_run h1 l1 d1 Hd1) as [_ Hrun1].
  destruct (Hrun1 Hne1) as (l1' & ext1 & Hr1 & Hl1).
  destruct (process_multiple_symbols_run h2 l2 d2 Hd2) as [_ Hrun2].
  destruct (Hrun2 Hne2) as (l2' & ext2 & Hr2 & Hl2).
  exists l1', (h1 ++ ext1), (process_frame d1), l2', (h2 ++ ext2), (process_frame d2).
  repeat (split; [done |]).
  rewrite !select_symbol_process_frame. unfold process_symbol.
  rewrite <- (select_symbol_filter_ne A B d1), <- (select_symbol_filter_ne A B d2)
    by done.
  by rewrite Hsame.
Qed.

Lemma per_symbol_isolation_witness :
  let d1 := [ mkRow (mkBar "A" 1 10 10 9 10 100) ∅;
              mkRow (mkBar "B" 1 20 21 19 20 300) ∅;
              mkRow (mkBar "A" 2 0 (-5) 7 12 200) ∅ ] in
  let d2 := [ mkRow (mkBar "B" 1 20 21 19 20 300) ∅ ] in
  ∃ l1' h1' out1 l2' h2' out2,
    process_multiple_symbols 0%nat [d1] = Some (l1', h1') ∧
    h1' !! l1' = Some out1 ∧
    process_multiple_symbols 0%nat [d2] = Some (l2', h2') ∧
    h2' !! l2' = Some out2 ∧
    select_symbol "B" out1 = select_symbol "B" out2.
Proof.
  intros d1 d2. apply (per_symbol_isolation [d1] 0%nat d1 [d2] 0%nat d2 "A" "B").
  - reflexivity.
  - reflexivity.
  - discriminate.
  - discriminate.
  - discriminate.
  - reflexivity.
Defined.

(** C9: the three-row series of symbol "X" with closes 10, 12, 11, highs
    10, 12, 11 and lows 9, 11, 10 (any opens and volumes, ascending dates):
    T-Score, every DMA and every EMA are undefined on all three rows,
    [is_all_time_high] is true, true, false and [is_all_time_low] is true,
    false, false. *)
Theorem three_row_example h (l : loc) (o0 o1 o2 v0 v1 v2 : Q) (d0 d1 d2 : Z) :
  let df := [ mkRow (mkBar "X" d0 o0 10 9 10 v0) ∅;
              mkRow (mkBar "X" d1 o1 12 11 12 v1) ∅;
              mkRow (mkBar "X" d2 o2 11 10 11 v2) ∅ ] in
  h !! l = Some df → (d0 < d1)%Z → (d1 < d2)%Z →
  ∃ l' h' out,
    add_all_indicators l h = Some (l', h') ∧ h' !! l' = Some out ∧
    column "t_score" out = replicate 3 (Some (CFloat NaN)) ∧
    (∀ p, p ∈ Config.DMA_PERIODS →
       column ("dma_" +:+ pretty p) out = replicate 3 (Some (CFloat NaN))) ∧
    (∀ p, p ∈ Config.EMA_PERIODS →
       column ("ema_" +:+ pretty p) out = replicate 3 (Some (CFloat NaN))) ∧
    column "is_all_time_high" out =
      [Some (CBool true); Some (CBool true); Some (CBool false)] ∧
    column "is_all_time_low" out =
      [Some (CBool true); Some (CBool false); Some (CBool false)].
Proof.
  intros df Hd H01 H12.
  assert (Hs : date_sorted df).
  { unfold df, date_sorted. repeat constructor; simpl; lia. }
  eexists _, _, _. split; [by apply add_all_indicators_run |].
  split.
  { rewrite lookup_app_r by lia.
    by replace (length h + 2 - length h)%nat with 2%nat by lia. }
  rewrite (sort_by_date_sorted _ Hs). unfold df.
  split; [by vm_compute |].
  split.
  { intros p Hp. unfold Config.DMA_PERIODS in Hp.
    rewrite !elem_of_cons, elem_of_nil in Hp.
    destruct Hp as [-> | [-> | [-> | [-> | []]]]]; by vm_compute. }
  split.
  { intros p Hp. unfold Config.EMA_PERIODS in Hp.
    rewrite !elem_of_cons, elem_of_nil in Hp.
    destruct Hp as [-> | [-> | [-> | [-> | []]]]]; by vm_compute. }
  split; by vm_compute.
Qed.

Lemma three_row_example_witness :
  let df := [ mkRow (mkBar "X" 1 10 10 9 10 100) ∅;
              mkRow (mkBar "X" 2 12 12 11 12 200) ∅;
              mkRow (mkBar "X" 3 11 11 10 11 300) ∅ ] in
  ∃ l' h' out,
    add_all_indicators 0%nat [df] = Some (l', h') ∧ h' !! l' = Some out ∧
    column "t_score" out = replicate 3 (Some (CFloat NaN)) ∧
    (∀ p, p ∈ Config.DMA_PERIODS →
       column ("dma_" +:+ pretty p) out = replicate 3 (Some (CFloat NaN))) ∧
    (∀ p, p ∈ Config.EMA_PERIODS →
       column ("ema_" +:+ pretty p) out = replicate 3 (Some (CFloat NaN))) ∧
    column "is_all_time_high" out =
      [Some (CBool true); Some (CBool true); Some (CBool false)] ∧
    column "is_all_time_low" out =
      [Some (CBool true); Some (CBool false); Some (CBool false)].
Proof.
  intros df. apply (three_row_example [df] 0%nat 10 12 11 100 200 300 1 2 3).
  - reflexivity.
  - lia.
  - lia.
Defined.

End BatchProcessor.

(** * The upsert writer *)

Section UpsertWriter.

Import Database.

Implicit Types (t : gmap (string * Z) StockData) (n : Z) (r : IndicatorRow)
  (rs : list IndicatorRow) (k : string * Z) (s : Session).

(** The nineteen assignments of [update_dict] replace the whole value part
    of the row and keep its [id]. *)
Lemma on_conflict_do_update_values old excluded :
  on_conflict_do_update old excluded = {| id := id old; vals := excluded |}.
Proof. by destruct excluded. Qed.

Lemma upsert_row_same t n r :
  ∃ x, (upsert_row (t, n) r).1 !! key r = Some x ∧ vals x = values r ∧
       (∀ old, t !! key r = Some old → id x = id old).
Proof.
  unfold upsert_row. destruct (t !! key r) as [old |] eqn:E; simpl.
  - rewrite on_conflict_do_update_values. eexists. rewrite lookup_insert_eq.
    split; [done |]. split; [done |]. by intros ? [= <-].
  - eexists. rewrite lookup_insert_eq. split; [done |]. split; [done |]. done.
Qed.

Lemma upsert_row_other t n r k :
  k ≠ key r → (upsert_row (t, n) r).1 !! k = t !! k.
Proof.
  intros Hne. unfold upsert_row.
  destruct (t !! key r); simpl; by rewrite lookup_insert_ne.
Qed.

Lemma foldl_upsert_other rs : ∀ t n k,
  k ∉ key <$> rs → (foldl upsert_row (t, n) rs).1 !! k = t !! k.
Proof.
  induction rs as [| r rs IH]; intros t n k Hk; [done |].
  rewrite fmap_cons, not_elem_of_cons in Hk. destruct Hk as [Hne Hk].
  cbn [foldl]. destruct (upsert_row (t, n) r) as [t' n'] eqn:E.
  rewrite IH by done. change t' with (t', n').1. rewrite <- E.
  by apply upsert_row_other.
Qed.

Lemma foldl_upsert_id rs : ∀ t n k old,
  t !! k = Some old →
  ∃ x, (foldl upsert_row (t, n) rs).1 !! k = Some x ∧ id x = id old.
Proof.
  induction rs as [| r rs IH]; intros t n k old Hold; [by exists old |].
  cbn [foldl]. destruct (upsert_row (t, n) r) as [t' n'] eqn:E.
  assert (Hx : ∃ x, t' !! k = Some x ∧ id x = id old).
  { change t' with (t', n').1. rewrite <- E.
    destruct (decide (k = key r)) as [-> | Hne].
    - destruct (upsert_row_same t n r) as (x & Hx & _ & Hid).
      exists x. split; [done |]. by apply Hid.
    - rewrite upsert_row_other by done. by exists old. }
  destruct Hx as (x & Hx & Hid).
  destruct (IH t' n' k x Hx) as (y & Hy & Hid'). exists y.
  split; [done |]. congruence.
Qed.

(** The last row proposed for a key decides its values. *)
Lemma foldl_upsert_last rs1 r rs2 t n :
  key r ∉ key <$> rs2 →
  ∃ x, (foldl upsert_row (t, n) (rs1 ++ r :: rs2)).1 !! key r = Some x ∧
       vals x = values r.
Proof.
  intros Hk. rewrite foldl_app. cbn [foldl].
  destruct (foldl upsert_row (t, n) rs1) as [t1 n1].
  destruct (upsert_row (t1, n1) r) as [t2 n2] eqn:E.
  rewrite foldl_upsert_other by done.
  destruct (upsert_row_same t1 n1 r) as (x & Hx & Hv & _).
  rewrite E in Hx. by exists x.
Qed.

Lemma last_occurrence rs k :
  k ∈ key <$> rs →
  ∃ rs1 r rs2, rs = rs1 ++ r :: rs2 ∧ key r = k ∧ k ∉ key <$> rs2.
Proof.
  induction rs as [| r rs IH]; [by intros ?%elem_of_nil |].
  intros Hk. destruct (decide (k ∈ key <$> rs)) as [Hin | Hout].
  - destruct (IH Hin) as (rs1 & r' & rs2 & -> & Hr & Hn).
    by exists (r :: rs1), r', rs2.
  - rewrite fmap_cons in Hk. apply elem_of_cons in Hk as [-> | ?]; [| done].
    by exists [], r, rs.
Qed.

(** Proposing the same rows a second time changes no row of the table. *)
Lemma foldl_upsert_idempotent rs t n n' :
  (foldl upsert_row ((foldl upsert_row (t, n) rs).1, n') rs).1 =
    (foldl upsert_row (t, n) rs).1.
Proof.
  set (t1 := (foldl upsert_row (t, n) rs).1).
  apply map_eq. intros k.
  destruct (decide (k ∈ key <$> rs)) as [Hin | Hout];
    [| by apply foldl_upsert_other].
  destruct (last_occurrence rs k Hin) as (rs1 & r & rs2 & Hrs & <- & Hn).
  destruct (foldl_upsert_last rs1 r rs2 t n Hn) as (x & Hx & Hvx).
  rewrite <- Hrs in Hx. fold t1 in Hx.
  destruct (foldl_upsert_last rs1 r rs2 t1 n' Hn) as (y & Hy & Hvy).
  rewrite <- Hrs in Hy.
  destruct (foldl_upsert_id rs t1 n' (key r) x Hx) as (y' & Hy' & Hid).
  rewrite Hy in Hy'. injection Hy' as <-.
  rewrite Hy, Hx. f_equal. destruct x, y; simpl in *; congruence.
Qed.

(** *** Batches and the session *)

Lemma concat_batches_go {A} (size : nat) : ∀ fuel (l : list A),
  (0 < size)%nat → (length l ≤ fuel)%nat →
  concat (batches_go fuel size l) = l.
Proof.
  induction fuel as [| fuel IH]; intros l Hs Hl.
  - destruct l; [done | simpl in Hl; lia].
  - destruct l as [| a l]; [done |].
    change (batches_go (S fuel) size (a :: l))
      with (take size (a :: l) :: batches_go fuel size (drop size (a :: l))).
    change (concat (?x :: ?y)) with (x ++ concat y).
    rewrite IH; [apply take_drop | done |].
    rewrite length_drop. simpl in *. lia.
Qed.

Lemma concat_batches {A} (size : nat) (l : list A) :
  (0 < size)%nat → concat (batches size l) = l.
Proof. intros. by apply concat_batches_go. Qed.

Lemma batches_nonempty {A} (size : nat) (l : list A) :
  l ≠ [] → batches size l ≠ [].
Proof. by destruct l. Qed.

(** A statement keeps the committed table. *)
Lemma execute_committed fault s batch s' :
  execute fault s batch = Some s' → committed s' = committed s.
Proof.
  unfold execute. destruct fault; [done |]. case_decide; [| done].
  destruct (foldl upsert_row (pending s, next_id s) batch). by intros [= <-].
Qed.

Lemma execute_pending s batch s' :
  execute false s batch = Some s' →
  (pending s', next_id s') = foldl upsert_row (pending s, next_id s) batch.
Proof.
  unfold execute. case_decide; [| done].
  destruct (foldl upsert_row (pending s, next_id s) batch). by intros [= <-].
Qed.

(** Whether a statement raises does not depend on the table. *)
Lemma execute_is_Some fault s s' batch :
  is_Some (execute fault s batch) → is_Some (execute fault s' batch).
Proof.
  unfold execute. destruct fault; [done |]. case_decide; [| done].
  intros _. by destruct (foldl upsert_row (pending s', next_id s') batch).
Qed.

Lemma execute_batches_committed fault bs : ∀ i s,
  committed (execute_batches fault i s bs).1 = committed s.
Proof.
  induction bs as [| b bs IH]; intros i s; [done |]. simpl.
  destruct (execute (fault i) s b) as [s' |] eqn:E; [| done].
  rewrite IH. by eapply execute_committed.
Qed.

Lemma execute_batches_outcome fault bs : ∀ i s s',
  (execute_batches fault i s bs).2 = (execute_batches fault i s' bs).2.
Proof.
  induction bs as [| b bs IH]; intros i s s'; [done |]. simpl.
  destruct (execute (fault i) s b) as [s1 |] eqn:E1,
           (execute (fault i) s' b) as [s1' |] eqn:E2.
  - apply IH.
  - destruct (execute_is_Some (fault i) s s' b) as [? ?]; [by eexists | congruence].
  - destruct (execute_is_Some (fault i) s' s b) as [? ?]; [by eexists | congruence].
  - done.
Qed.

Lemma execute_batches_returned fault bs : ∀ i s s',
  execute_batches fault i s bs = (s', Returned tt) →
  (pending s', next_id s') =
    foldl upsert_row (pending s, next_id s) (concat bs).
Proof.
  induction bs as [| b bs IH]; intros i s s' H.
  - simpl in H. by injection H as <-.
  - simpl in H. destruct (execute (fault i) s b) as [s1 |] eqn:E; [| done].
    change (concat (b :: bs)) with (b ++ concat bs). rewrite foldl_app.
    rewrite (IH _ _ _ H). f_equal.
    unfold execute in E. destruct (fault i); [done |].
    by apply execute_pending.
Qed.

(** Without a fault of the store, batches without a repeated key are all
    executed. *)
Lemma execute_batches_ok fault bs : ∀ i s,
  (∀ j, fault j = false) → Forall (λ b, NoDup (key <$> b)) bs →
  (execute_batches fault i s bs).2 = Returned tt.
Proof.
  induction bs as [| b bs IH]; intros i s Hf Hall; [done |].
  apply Forall_cons in Hall as [Hb Hall]. simpl.
  unfold execute at 1. rewrite Hf. rewrite decide_True by done.
  destruct (foldl upsert_row (pending s, next_id s) b). by apply IH.
Qed.

Lemma batches_NoDup (size : nat) rs :
  (0 < size)%nat → NoDup (key <$> rs) →
  Forall (λ b, NoDup (key <$> b)) (batches size rs).
Proof.
  intros Hs Hnd. rewrite <- (concat_batches size rs Hs) in Hnd.
  induction (batches size rs) as [| b bs IH]; [done |].
  change (concat (b :: bs)) with (b ++ concat bs) in Hnd.
  rewrite fmap_app in Hnd. apply NoDup_app in Hnd as (Hb & _ & Hrest).
  apply Forall_cons. split; [done | by apply IH].
Qed.

(** What [_store_data] leaves in the table: on a raise, the table it
    found; on a return, the table after all the proposed rows. *)
Lemma store_data_raised fault db df :
  (_store_data fault db df).2 = Raised →
  table (_store_data fault db df).1 = table db.
Proof.
  unfold _store_data. destruct (to_dict_records df) as [records |]; [| done].
  pose proof (execute_batches_committed fault (batches 1000 records) 0
                (get_session db)) as Hc.
  destruct (execute_batches fault 0 (get_session db) (batches 1000 records))
    as [s [[] |]]; [done |].
  intros _. simpl in *. done.
Qed.

Lemma store_data_returned fault db df :
  (_store_data fault db df).2 = Returned tt →
  ∃ records, to_dict_records df = Some records ∧
    table (_store_data fault db df).1 =
      (foldl upsert_row (table db, id_seq db) records).1.
Proof.
  unfold _store_data. destruct (to_dict_records df) as [records |]; [| done].
  destruct (execute_batches fault 0 (get_session db) (batches 1000 records))
    as [s [[] |]] eqn:E; [| done].
  intros _. exists records. split; [done |]. simpl.
  apply execute_batches_returned in E.
  rewrite concat_batches in E by lia. simpl in E. by rewrite <- E.
Qed.

Lemma store_data_outcome fault db db' df :
  (_store_data fault db df).2 = (_store_data fault db' df).2.
Proof.
  unfold _store_data. destruct (to_dict_records df) as [records |]; [| done].
  pose proof (execute_batches_outcome fault (batches 1000 records) 0
                (get_session db) (get_session db')) as Ho.
  destruct (execute_batches fault 0 (get_session db) (batches 1000 records))
    as [s [[] |]],
    (execute_batches fault 0 (get_session db') (batches 1000 records))
    as [s' [[] |]]; simpl in *; done.
Qed.

Lemma store_data_ok fault db df records :
  to_dict_records df = Some records → NoDup (key <$> records) →
  (∀ j, fault j = false) →
  (_store_data fault db df).2 = Returned tt.
Proof.
  intros Hrec Hnd Hf. unfold _store_data. rewrite Hrec.
  pose proof (execute_batches_ok fault (batches 1000 records) 0
                (get_session db) Hf (batches_NoDup 1000 records ltac:(lia) Hnd))
    as Hok.
  by destruct (execute_batches fault 0 (get_session db) (batches 1000 records))
    as [s [[] |]].
Qed.

(** C5: when the rows of a frame, no two with the same key, are written to
    a store that does not fail, then for every row whose key is already in
    the store the stored row keeps its [id] and holds, in all nineteen
    value columns (open, high, low, close, volume, t_score, f_score, the
    four dma and the four ema columns, the four flags), the value just
    submitted, whatever the value stored before. *)
Theorem upsert_overwrites_every_value_column (fault : nat → bool)
    (db : Store) (df : list Row) (records : list IndicatorRow)
    (r : IndicatorRow) (old : StockData) :
  to_dict_records df = Some records → NoDup (key <$> records) →
  (∀ j, fault j = false) →
  r ∈ records → table db !! key r = Some old →
  ∃ db' stored,
    _store_data fault db df = (db', Returned tt) ∧
    table db' !! key r = Some stored ∧
    vals stored = values r ∧
    id stored = id old.
Proof.
  intros Hrec Hnd Hf Hr Hold.
  pose proof (store_data_ok fault db df records Hrec Hnd Hf) as Hok.
  destruct (store_data_returned fault db df Hok) as (records' & Hrec' & Ht).
  rewrite Hrec in Hrec'. injection Hrec' as <-.
  apply list_elem_of_split in Hr as (rs1 & rs2 & ->).
  assert (Hlast : key r ∉ key <$> rs2).
  { rewrite fmap_app, fmap_cons in Hnd.
    apply NoDup_app in Hnd as (_ & _ & Hnd). by apply NoDup_cons in Hnd as [? _]. }
  destruct (foldl_upsert_last rs1 r rs2 (table db) (id_seq db) Hlast)
    as (x & Hx & Hv).
  destruct (foldl_upsert_id (rs1 ++ r :: rs2) (table db) (id_seq db) (key r)
              old Hold) as (x' & Hx' & Hid).
  rewrite Hx in Hx'. injection Hx' as <-.
  exists (_store_data fault db df).1, x.
  split; [| by rewrite Ht].
  destruct (_store_data fault db df) as [db' o]. simpl in Hok. by rewrite Hok.
Qed.

Lemma upsert_overwrites_every_value_column_witness :
  let df := process_frame [mkRow (mkBar "X" 1 10 10 9 10 100) ∅] in
  let r := {| key := ("X", 1%Z);
              values := mkValues 10 10 9 10 100 NaN (Fin 0) NaN NaN NaN NaN
                          NaN NaN NaN NaN true true true true |} in
  let old := {| id := 7;
                vals := mkValues 1 2 3 4 5 (Fin 6) (Fin 9) (Fin 1) (Fin 1)
                          (Fin 1) (Fin 1) (Fin 1) (Fin 1) (Fin 1) (Fin 1)
                          false false false false |} in
  let db := {| table := {[ ("X", 1%Z) := old ]}; id_seq := 8 |} in
  ∃ db' stored,
    _store_data (λ _, false) db df = (db', Returned tt) ∧
    table db' !! key r = Some stored ∧
    vals stored = values r ∧
    id stored = id old.
Proof.
  intros df r old db.
  apply (upsert_overwrites_every_value_column (λ _, false) db df [r] r old).
  - vm_compute. reflexivity.
  - vm_compute. repeat constructor. by intros ?%elem_of_nil.
  - reflexivity.
  - apply list_elem_of_here.
  - vm_compute. reflexivity.
Defined.

(** C6: writing the same frame a second time leaves the table of the store
    as the first write left it (whether the write succeeds or raises). *)
Theorem store_data_idempotent (fault : nat → bool) (db : Store)
    (df : list Row) :
  table (_store_data fault (_store_data fault db df).1 df).1 =
    table (_store_data fault db df).1.
Proof.
  set (db1 := (_store_data fault db df).1).
  pose proof (store_data_outcome fault db1 db df) as Hsame.
  destruct ((_store_data fault db df).2) as [[] |] eqn:E.
  - destruct (store_data_returned fault db df E) as (records & Hrec & Ht).
    destruct (store_data_returned fault db1 df Hsame) as (records' & Hrec' & Ht').
    rewrite Hrec in Hrec'. injection Hrec' as <-.
    rewrite Ht'. unfold db1 at 1. rewrite Ht. fold db1.
    unfold db1 at 2. rewrite Ht. apply foldl_upsert_idempotent.
  - by apply store_data_raised.
Qed.

(** [process_and_store_stocks] returns in every case: its handler catches
    whatever the body raises. *)
Lemma process_and_store_stocks_returns fault db raw_data :
  ∃ b, (process_and_store_stocks fault db raw_data).2 = Returned b.
Proof.
  unfold process_and_store_stocks.
  destruct raw_data; [by eexists |].
  destruct (run_frame _ _); [| by eexists].
  destruct (_store_data _ _ _) as [db' [[] |]]; by eexists.
Qed.

Lemma store_data_fault_raises fault db df :
  fault 0%nat = true → df ≠ [] → (_store_data fault db df).2 = Raised.
Proof.
  intros Hf Hne. unfold _store_data.
  destruct (to_dict_records df) as [records |] eqn:E; [| done].
  apply length_mapM in E.
  destruct records as [| r records]; [by destruct df |].
  unfold batches. cbn [length batches_go execute_batches].
  unfold execute. by rewrite Hf.
Qed.

Lemma run_frame_process h l d :
  h !! l = Some d →
  run_frame (process_multiple_symbols l) h =
    if decide (d = []) then None else Some (process_frame d).
Proof.
  intros Hd. unfold run_frame.
  destruct (process_multiple_symbols_run h l d Hd) as [Hnil Hrun].
  case_decide as E; [by rewrite Hnil |].
  destruct (Hrun E) as (l' & ext & -> & Hl). done.
Qed.

(** C7 (as stated) fails: when the store fails at the first statement, the
    processing call does not raise; it returns. *)
Lemma storage_failure_is_swallowed :
  ¬ storage_failure_is_raised (λ _, true)
      {| table := ∅; id_seq := 1 |}
      [mkRow (mkBar "X" 1 10 10 9 10 100) ∅].
Proof.
  intros H.
  set (raw := [mkRow (mkBar "X" 1 10 10 9 10 100) ∅]) in *.
  set (db := {| table := ∅; id_seq := 1 |}) in *.
  unfold storage_failure_is_raised in H.
  specialize (H (process_frame raw)).
  rewrite (run_frame_process [raw] 0%nat raw eq_refl) in H.
  rewrite decide_False in H by discriminate.
  specialize (H eq_refl).
  assert (Hne : process_frame raw ≠ []).
  { intros E. apply (f_equal length) in E. vm_compute in E. discriminate. }
  specialize (H (store_data_fault_raises (λ _, true) db _ eq_refl Hne)).
  destruct H as [_ Hraised].
  destruct (process_and_store_stocks_returns (λ _, true) db raw) as [b Hb].
  congruence.
Qed.

(** C7 (amended): when the write of the processed frame raises, the writer
    has rolled the store back (its table is the one before the run, no
    partial write is visible) and raises; the processing call
    [process_and_store_stocks] catches the exception and returns [False],
    with the table unchanged. *)
Theorem storage_failure_rolled_back_and_reported (fault : nat → bool)
    (db : Store) (raw_data processed : list Row) :
  run_frame (process_multiple_symbols 0%nat) [raw_data] = Some processed →
  (_store_data fault db processed).2 = Raised →
  table (_store_data fault db processed).1 = table db ∧
  process_and_store_stocks fault db raw_data =
    ((_store_data fault db processed).1, Returned false) ∧
  table (process_and_store_stocks fault db raw_data).1 = table db.
Proof.
  intros Hrun Hraised.
  pose proof (store_data_raised fault db processed Hraised) as Ht.
  assert (Hp : process_and_store_stocks fault db raw_data =
                 ((_store_data fault db processed).1, Returned false)).
  { unfold process_and_store_stocks. destruct raw_data as [| r raw].
    - rewrite (run_frame_process [[]] 0%nat [] eq_refl) in Hrun.
      rewrite decide_True in Hrun by reflexivity. discriminate.
    - rewrite Hrun. destruct (_store_data fault db processed) as [db' o].
      simpl in Hraised. by rewrite Hraised. }
  split; [done |]. split; [done |]. by rewrite Hp.
Qed.

Lemma storage_failure_rolled_back_and_reported_witness :
  let fault := λ _ : nat, true in
  let db := {| table := ∅; id_seq := 1 |} in
  let raw_data := [mkRow (mkBar "X" 1 10 10 9 10 100) ∅] in
  let processed := process_frame raw_data in
  table (_store_data fault db processed).1 = table db ∧
  process_and_store_stocks fault db raw_data =
    ((_store_data fault db processed).1, Returned false) ∧
  table (process_and_store_stocks fault db raw_data).1 = table db.
Proof.
  intros fault db raw_data processed.
  apply (storage_failure_rolled_back_and_reported fault db raw_data processed).
  - vm_compute. reflexivity.
  - vm_compute. reflexivity.
Defined.

End UpsertWriter.

(** * Extremum flags *)

Section ExtremumFlags.

Implicit Types (df : list Row) (x : list Q).

Lemma foldl_Qmax_elem a l : foldl Qmax a l ∈ a :: l.
Proof.
  revert a. induction l as [| b l IH]; intros a; simpl.
  - apply list_elem_of_here.
  - specialize (IH (Qmax a b)). apply elem_of_cons in IH as [-> | IH].
    + unfold Qmax, GenericMinMax.gmax. destruct (a ?= b)%Q.
      * apply list_elem_of_here.
      * apply list_elem_of_further, list_elem_of_here.
      * apply list_elem_of_here.
    + by do 2 apply list_elem_of_further.
Qed.

Lemma foldl_Qmin_elem a l : foldl Qmin a l ∈ a :: l.
Proof.
  revert a. induction l as [| b l IH]; intros a; simpl.
  - apply list_elem_of_here.
  - specialize (IH (Qmin a b)). apply elem_of_cons in IH as [-> | IH].
    + unfold Qmin, GenericMinMax.gmin. destruct (a ?= b)%Q.
      * apply list_elem_of_here.
      * apply list_elem_of_here.
      * apply list_elem_of_further, list_elem_of_here.
    + by do 2 apply list_elem_of_further.
Qed.

(** A value is at least the maximum of a window exactly when it is at least
    every value of the window. *)
Lemma fge_agg_max win h :
  win ≠ [] →
  fge (Fin h) (agg_max win) = true ↔ ∀ q, q ∈ win → (q <= h)%Q.
Proof.
  destruct win as [| a l]; [done |]. intros _. simpl.
  unfold fge, fle. rewrite Qle_bool_iff.
  destruct (foldl_Qmax_ge a l) as [H1 H2]. split.
  - intros Hm q [-> | Hq]%elem_of_cons.
    + by eapply Qle_trans.
    + eapply Qle_trans; [by apply H2 | done].
  - intros Hall. apply Hall, foldl_Qmax_elem.
Qed.

Lemma fle_agg_min win h :
  win ≠ [] →
  fle (Fin h) (agg_min win) = true ↔ ∀ q, q ∈ win → (h <= q)%Q.
Proof.
  destruct win as [| a l]; [done |]. intros _. simpl.
  rewrite Qle_bool_iff.
  destruct (foldl_Qmin_le a l) as [H1 H2]. split.
  - intros Hm q [-> | Hq]%elem_of_cons.
    + by eapply Qle_trans.
    + eapply Qle_trans; [done | by apply H2].
  - intros Hall. apply Hall, foldl_Qmin_elem.
Qed.

(** The rows of a trailing window, by their index in the series. *)
Lemma elem_of_window_iff (w i : nat) x q :
  (0 < w)%nat → (i < length x)%nat →
  q ∈ window w i x ↔ ∃ j, (i + 1 - w ≤ j ≤ i)%nat ∧ x !! j = Some q.
Proof.
  intros Hw Hi. unfold window. rewrite list_elem_of_lookup. split.
  - intros [k Hk]. apply lookup_take_Some in Hk as [Hk Hlt].
    rewrite lookup_drop in Hk. exists (i + 1 - w + k)%nat. split; [lia | done].
  - intros (j & Hj & Hq). exists (j - (i + 1 - w))%nat.
    rewrite lookup_take_lt by lia. rewrite lookup_drop.
    by replace (i + 1 - w + (j - (i + 1 - w)))%nat with j by lia.
Qed.

Lemma elem_of_take_iff (i : nat) x q :
  q ∈ take (i + 1) x ↔ ∃ j, (j ≤ i)%nat ∧ x !! j = Some q.
Proof.
  rewrite list_elem_of_lookup. split.
  - intros [k Hk]. apply lookup_take_Some in Hk as [Hk Hlt].
    exists k. split; [lia | done].
  - intros (j & Hj & Hq). exists j. by rewrite lookup_take_lt by lia.
Qed.

Lemma window_nonempty {A} (w i : nat) (x : list A) :
  (0 < w)%nat → (i < length x)%nat → window w i x ≠ [].
Proof.
  intros Hw Hi E. apply (f_equal length) in E.
  rewrite length_window in E by done. simpl in E. lia.
Qed.

Lemma take_nonempty {A} (i : nat) (x : list A) :
  (i < length x)%nat → take (i + 1) x ≠ [].
Proof.
  intros Hi E. apply (f_equal length) in E.
  rewrite length_take in E. simpl in E. lia.
Qed.

(** Row [i] of a comparison of a raw column with its rolling extremum
    ([min_periods = 1]: defined from the first row). *)
Lemma rolling_flag_lookup (cmp : float64 → float64 → bool) agg w f df i r :
  (0 < w)%nat → df !! i = Some r →
  zip_with cmp (fcol f df) (rolling w 1 agg (col f df)) !! i =
    Some (cmp (Fin (f (bar r))) (agg (window w i (col f df)))).
Proof.
  intros Hw Hr.
  assert (Hi : (i < length (col f df))%nat).
  { rewrite length_col. by eapply lookup_lt_Some. }
  rewrite lookup_zip_with. unfold fcol.
  rewrite list_lookup_fmap, rolling_lookup, col_lookup, Hr. simpl.
  rewrite length_window by done. case_decide; [done | lia].
Qed.

Lemma expanding_flag_lookup (cmp : float64 → float64 → bool) agg f df i r :
  df !! i = Some r →
  zip_with cmp (fcol f df) (expanding 1 agg (col f df)) !! i =
    Some (cmp (Fin (f (bar r))) (agg (take (i + 1) (col f df)))).
Proof.
  intros Hr.
  assert (Hi : (i < length (col f df))%nat).
  { rewrite length_col. by eapply lookup_lt_Some. }
  rewrite lookup_zip_with. unfold fcol.
  rewrite list_lookup_fmap, expanding_lookup, col_lookup, Hr. simpl.
  rewrite length_take. case_decide; [done | lia].
Qed.

Lemma all_time_high_row df i r :
  df !! i = Some r →
  ∃ b, calculate_all_time_high df !! i = Some b ∧
       (b = true ↔
        ∀ j r', (j ≤ i)%nat → df !! j = Some r' →
                (high (bar r') <= high (bar r))%Q).
Proof.
  intros Hr. unfold calculate_all_time_high.
  rewrite (expanding_flag_lookup fge agg_max high df i r Hr).
  eexists; split; [done |].
  rewrite fge_agg_max; last first.
  { apply take_nonempty. rewrite length_col. by eapply lookup_lt_Some. }
  split.
  - intros H j r' Hj Hr'. apply H, elem_of_take_iff.
    exists j. split; [done |]. by rewrite col_lookup, Hr'.
  - intros H q (j & Hj & Hq)%elem_of_take_iff.
    rewrite col_lookup in Hq. destruct (df !! j) as [r' |] eqn:E; [| done].
    injection Hq as <-. by eapply H.
Qed.

Lemma all_time_low_row df i r :
  df !! i = Some r →
  ∃ b, calculate_all_time_low df !! i = Some b ∧
       (b = true ↔
        ∀ j r', (j ≤ i)%nat → df !! j = Some r' →
                (low (bar r) <= low (bar r'))%Q).
Proof.
  intros Hr. unfold calculate_all_time_low.
  rewrite (expanding_flag_lookup fle agg_min low df i r Hr).
  eexists; split; [done |].
  rewrite fle_agg_min; last first.
  { apply take_nonempty. rewrite length_col. by eapply lookup_lt_Some. }
  split.
  - intros H j r' Hj Hr'. apply H, elem_of_take_iff.
    exists j. split; [done |]. by rewrite col_lookup, Hr'.
  - intros H q (j & Hj & Hq)%elem_of_take_iff.
    rewrite col_lookup in Hq. destruct (df !! j) as [r' |] eqn:E; [| done].
    injection Hq as <-. by eapply H.
Qed.

Lemma week_52_high_row df i r :
  df !! i = Some r →
  ∃ b, calculate_52_week_high df !! i = Some b ∧
       (b = true ↔
        ∀ j r', (i + 1 - Config.WEEK_52_DAYS ≤ j ≤ i)%nat → df !! j = Some r' →
                (high (bar r') <= high (bar r))%Q).
Proof.
  intros Hr. unfold calculate_52_week_high.
  assert (Hi : (i < length (col high df))%nat).
  { rewrite length_col. by eapply lookup_lt_Some. }
  rewrite (rolling_flag_lookup fge agg_max _ high df i r) by (done || (unfold Config.WEEK_52_DAYS; lia)).
  eexists; split; [done |].
  rewrite fge_agg_max
    by (apply window_nonempty; [unfold Config.WEEK_52_DAYS; lia | done]).
  split.
  - intros H j r' Hj Hr'. apply H, elem_of_window_iff;
      [unfold Config.WEEK_52_DAYS; lia | done |].
    exists j. split; [done |]. by rewrite col_lookup, Hr'.
  - intros H q (j & Hj & Hq)%elem_of_window_iff;
      [| unfold Config.WEEK_52_DAYS; lia | done].
    rewrite col_lookup in Hq. destruct (df !! j) as [r' |] eqn:E; [| done].
    injection Hq as <-. by eapply H.
Qed.

Lemma week_52_low_row df i r :
  df !! i = Some r →
  ∃ b, calculate_52_week_low df !! i = Some b ∧
       (b = true ↔
        ∀ j r', (i + 1 - Config.WEEK_52_DAYS ≤ j ≤ i)%nat → df !! j = Some r' →
                (low (bar r) <= low (bar r'))%Q).
Proof.
  intros Hr. unfold calculate_52_week_low.
  assert (Hi : (i < length (col low df))%nat).
  { rewrite length_col. by eapply lookup_lt_Some. }
  rewrite (rolling_flag_lookup fle agg_min _ low df i r) by (done || (unfold Config.WEEK_52_DAYS; lia)).
  eexists; split; [done |].
  rewrite fle_agg_min
    by (apply window_nonempty; [unfold Config.WEEK_52_DAYS; lia | done]).
  split.
  - intros H j r' Hj Hr'. apply H, elem_of_window_iff;
      [unfold Config.WEEK_52_DAYS; lia | done |].
    exists j. split; [done |]. by rewrite col_lookup, Hr'.
  - intros H q (j & Hj & Hq)%elem_of_window_iff;
      [| unfold Config.WEEK_52_DAYS; lia | done].
    rewrite col_lookup in Hq. destruct (df !! j) as [r' |] eqn:E; [| done].
    injection Hq as <-. by eapply H.
Qed.

(** Row [i] is flagged an all-time high exactly when its high is at least
    the high of every row up to and including [i], and an all-time low
    exactly when its low is at most the low of every such row. *)
Theorem all_time_flags_characterised (df : list Row) (i : nat) (r : Row) :
  df !! i = Some r →
  (∃ b, calculate_all_time_high df !! i = Some b ∧
        (b = true ↔
         ∀ j r', (j ≤ i)%nat → df !! j = Some r' →
                 (high (bar r') <= high (bar r))%Q)) ∧
  (∃ b, calculate_all_time_low df !! i = Some b ∧
        (b = true ↔
         ∀ j r', (j ≤ i)%nat → df !! j = Some r' →
                 (low (bar r) <= low (bar r'))%Q)).
Proof.
  intros Hr. split; [by apply all_time_high_row | by apply all_time_low_row].
Qed.

Lemma all_time_flags_characterised_witness :
  let r0 := mkRow (mkBar "X" 1 10 10 9 10 100) ∅ in
  let r1 := mkRow (mkBar "X" 2 12 12 11 12 200) ∅ in
  let df := [r0; r1] in
  (∃ b, calculate_all_time_high df !! 1%nat = Some b ∧
        (b = true ↔
         ∀ j r', (j ≤ 1)%nat → df !! j = Some r' →
                 (high (bar r') <= high (bar r1))%Q)) ∧
  (∃ b, calculate_all_time_low df !! 1%nat = Some b ∧
        (b = true ↔
         ∀ j r', (j ≤ 1)%nat → df !! j = Some r' →
                 (low (bar r1) <= low (bar r'))%Q)).
Proof.
  intros r0 r1 df. apply (all_time_flags_characterised df 1 r1). reflexivity.
Defined.

(** Row [i] is flagged a 52-week high exactly when its high is at least the
    high of every row of the trailing window of 252 rows (fewer at the start
    of the series), and a 52-week low exactly when its low is at most the
    low of every such row. *)
Theorem week_52_flags_characterised (df : list Row) (i : nat) (r : Row) :
  df !! i = Some r →
  (∃ b, calculate_52_week_high df !! i = Some b ∧
        (b = true ↔
         ∀ j r', (i + 1 - 252 ≤ j ≤ i)%nat → df !! j = Some r' →
                 (high (bar r') <= high (bar r))%Q)) ∧
  (∃ b, calculate_52_week_low df !! i = Some b ∧
        (b = true ↔
         ∀ j r', (i + 1 - 252 ≤ j ≤ i)%nat → df !! j = Some r' →
                 (low (bar r) <= low (bar r'))%Q)).
Proof.
  intros Hr. split; [by apply week_52_high_row | by apply week_52_low_row].
Qed.

Lemma week_52_flags_characterised_witness :
  let r0 := mkRow (mkBar "X" 1 10 10 9 10 100) ∅ in
  let r1 := mkRow (mkBar "X" 2 12 12 11 12 200) ∅ in
  let df := [r0; r1] in
  (∃ b, calculate_52_week_high df !! 1%nat = Some b ∧
        (b = true ↔
         ∀ j r', (1 + 1 - 252 ≤ j ≤ 1)%nat → df !! j = Some r' →
                 (high (bar r') <= high (bar r1))%Q)) ∧
  (∃ b, calculate_52_week_low df !! 1%nat = Some b ∧
        (b = true ↔
         ∀ j r', (1 + 1 - 252 ≤ j ≤ 1)%nat → df !! j = Some r' →
                 (low (bar r1) <= low (bar r'))%Q)).
Proof.
  intros r0 r1 df. apply (week_52_flags_characterised df 1 r1). reflexivity.
Defined.

(** An all-time high is a 52-week high and an all-time low is a 52-week
    low; on the first 252 rows of a series the 52-week flags and the
    all-time flags are the same. *)
Theorem all_time_extremum_is_52_week_extremum (df : list Row) (i : nat) :
  (i < length df)%nat →
  (calculate_all_time_high df !! i = Some true →
   calculate_52_week_high df !! i = Some true) ∧
  (calculate_all_time_low df !! i = Some true →
   calculate_52_week_low df !! i = Some true) ∧
  ((i < 252)%nat →
   calculate_52_week_high df !! i = calculate_all_time_high df !! i ∧
   calculate_52_week_low df !! i = calculate_all_time_low df !! i).
Proof.
  intros [r Hr]%lookup_lt_is_Some_2.
  destruct (all_time_high_row df i r Hr) as (a & Ha & Hai).
  destruct (all_time_low_row df i r Hr) as (a' & Ha' & Hai').
  destruct (week_52_high_row df i r Hr) as (w & Hw & Hwi).
  destruct (week_52_low_row df i r Hr) as (w' & Hw' & Hwi').
  unfold Config.WEEK_52_DAYS in *.
  rewrite Ha, Ha', Hw, Hw'. split; [| split].
  - intros [= ->]. f_equal. apply Hwi. intros j r' Hj. apply Hai; [done | lia].
  - intros [= ->]. f_equal. apply Hwi'. intros j r' Hj. apply Hai'; [done | lia].
  - intros Hlt. split; f_equal.
    + destruct a.
      * apply Hwi. intros j r' Hj. apply Hai; [done | lia].
      * destruct w; [| done]. symmetry. apply Hai.
        intros j r' Hj. apply Hwi; [done | lia].
    + destruct a'.
      * apply Hwi'. intros j r' Hj. apply Hai'; [done | lia].
      * destruct w'; [| done]. symmetry. apply Hai'.
        intros j r' Hj. apply Hwi'; [done | lia].
Qed.

Lemma all_time_extremum_is_52_week_extremum_witness :
  let df := [ mkRow (mkBar "X" 1 10 10 9 10 100) ∅;
              mkRow (mkBar "X" 2 12 12 11 12 200) ∅ ] in
  (calculate_all_time_high df !! 1%nat = Some true →
   calculate_52_week_high df !! 1%nat = Some true) ∧
  (calculate_all_time_low df !! 1%nat = Some true →
   calculate_52_week_low df !! 1%nat = Some true) ∧
  ((1 < 252)%nat →
   calculate_52_week_high df !! 1%nat = calculate_all_time_high df !! 1%nat ∧
   calculate_52_week_low df !! 1%nat = calculate_all_time_low df !! 1%nat).
Proof.
  intros df. apply (all_time_extremum_is_52_week_extremum df 1). simpl. lia.
Defined.

(** The first row of every non-empty series carries all four flags. *)
Theorem first_row_is_flagged (df : list Row) :
  df ≠ [] →
  calculate_52_week_high df !! 0%nat = Some true ∧
  calculate_52_week_low df !! 0%nat = Some true ∧
  calculate_all_time_high df !! 0%nat = Some true ∧
  calculate_all_time_low df !! 0%nat = Some true.
Proof.
  intros Hne. destruct df as [| r df]; [done |].
  assert (Hr : (r :: df) !! 0%nat = Some r) by done.
  destruct (all_time_high_row _ 0 r Hr) as (a & -> & Hai).
  destruct (all_time_low_row _ 0 r Hr) as (a' & -> & Hai').
  destruct (week_52_high_row _ 0 r Hr) as (w & -> & Hwi).
  destruct (week_52_low_row _ 0 r Hr) as (w' & -> & Hwi').
  assert (Hsame : ∀ j r', (j ≤ 0)%nat → (r :: df) !! j = Some r' → r' = r).
  { intros j r' Hj. replace j with 0%nat by lia. by intros [= <-]. }
  repeat split; f_equal.
  - apply Hwi. intros j r' [_ Hj] Hr'. rewrite (Hsame j r' Hj Hr'). apply Qle_refl.
  - apply Hwi'. intros j r' [_ Hj] Hr'. rewrite (Hsame j r' Hj Hr'). apply Qle_refl.
  - apply Hai. intros j r' Hj Hr'. rewrite (Hsame j r' Hj Hr'). apply Qle_refl.
  - apply Hai'. intros j r' Hj Hr'. rewrite (Hsame j r' Hj Hr'). apply Qle_refl.
Qed.

Lemma first_row_is_flagged_witness :
  let df := [ mkRow (mkBar "X" 1 10 10 9 10 100) ∅;
              mkRow (mkBar "X" 2 12 12 11 12 200) ∅ ] in
  calculate_52_week_high df !! 0%nat = Some true ∧
  calculate_52_week_low df !! 0%nat = Some true ∧
  calculate_all_time_high df !! 0%nat = Some true ∧
  calculate_all_time_low df !! 0%nat = Some true.
Proof.
  intros df. apply (first_row_is_flagged df). discriminate.
Defined.

End ExtremumFlags.

(** * Moving averages stay within the range of the data *)

Section AverageRange.

Implicit Types (x : list Q) (lo hi : Q).











End AverageRange.

(** * More on the two scores *)

Section Scores.

Implicit Types (df : list Row).

(** Row [i >= 13] of the T-Score, on any bars. *)
Lemma t_score_row df i r :
  (13 ≤ i)%nat → df !! i = Some r →
  ∃ hm lm,
    rolling 14 14 agg_max (col high df) !! i = Some (Fin hm) ∧
    rolling 14 14 agg_min (col low df) !! i = Some (Fin lm) ∧
    (high (bar r) <= hm)%Q ∧ (lm <= low (bar r))%Q ∧
    calculate_t_score df !! i =
      Some (fmul (fdiv (Fin (close (bar r) - lm)) (Fin (hm - lm + epsilon)))
              (Fin 100)).
Proof.
  intros Hge Hr.
  assert (Hi : (i < length df)%nat) by (by eapply lookup_lt_Some).
  assert (Hh : col high df !! i = Some (high (bar r))).
  { by rewrite col_lookup, Hr. }
  assert (Hl : col low df !! i = Some (low (bar r))).
  { by rewrite col_lookup, Hr. }
  assert (Hlenh : (i < length (col high df))%nat) by (by rewrite length_col).
  assert (Hlenl : (i < length (col low df))%nat) by (by rewrite length_col).
  destruct (agg_max_ge (window 14 i (col high df)) (high (bar r)))
    as (hm & Ehm & Hhm); [by apply elem_of_window; [lia |] |].
  destruct (agg_min_le (window 14 i (col low df)) (low (bar r)))
    as (lm & Elm & Hlm); [by apply elem_of_window; [lia |] |].
  exists hm, lm.
  assert (Hmax : rolling 14 14 agg_max (col high df) !! i = Some (Fin hm)).
  { rewrite rolling_lookup, Hh. simpl. rewrite length_window by done.
    case_decide; [by rewrite Ehm | lia]. }
  assert (Hmin : rolling 14 14 agg_min (col low df) !! i = Some (Fin lm)).
  { rewrite rolling_lookup, Hl. simpl. rewrite length_window by done.
    case_decide; [by rewrite Elm | lia]. }
  repeat (split; [done |]).
  unfold calculate_t_score.
  rewrite list_lookup_fmap, lookup_zip_with, list_lookup_fmap, !lookup_zip_with.
  unfold fcol. rewrite list_lookup_fmap, col_lookup, Hr, Hmax, Hmin.
  reflexivity.
Qed.

(** On a flat 14-day range (the highest high of the window equals its
    lowest low) the T-Score of bars with [low <= close <= high] is 0. *)
Theorem t_score_flat_range (df : list Row) (i : nat) (hm lm : Q) :
  Forall (λ r, (low (bar r) <= close (bar r))%Q ∧
               (close (bar r) <= high (bar r))%Q) df →
  (13 ≤ i)%nat →
  rolling 14 14 agg_max (col high df) !! i = Some (Fin hm) →
  rolling 14 14 agg_min (col low df) !! i = Some (Fin lm) →
  (hm == lm)%Q →
  ∃ v, calculate_t_score df !! i = Some (Fin v) ∧ (v == 0)%Q.
Proof.
  intros Hbars Hge Hmax Hmin Hflat.
  assert (Hi : (i < length df)%nat).
  { apply lookup_lt_Some in Hmax. by rewrite length_rolling, length_col in Hmax. }
  destruct (lookup_lt_is_Some_2 df i Hi) as [r Hr].
  assert (Hrow := proj1 (Forall_lookup _ df) Hbars i r Hr). simpl in Hrow.
  destruct Hrow as [Hlc Hch].
  destruct (t_score_row df i r Hge Hr) as (hm' & lm' & Hmax' & Hmin' & Hh & Hl & Ht).
  rewrite Hmax in Hmax'. rewrite Hmin in Hmin'.
  injection Hmax' as <-. injection Hmin' as <-.
  destruct (t_score_ratio_bounds (close (bar r)) lm hm) as (Hd & _ & _);
    [lra | lra |].
  rewrite Ht. simpl. rewrite Hd. simpl. eexists; split; [done |].
  assert (E : (close (bar r) - lm == 0)%Q) by lra.
  unfold Qdiv. rewrite E. ring.
Qed.

Lemma t_score_flat_range_witness :
  let df := (λ n : nat,
               mkRow (mkBar "X" (Z.of_nat n) 5 5 5 5 100) ∅) <$> seq 0 14 in
  ∃ v, calculate_t_score df !! 13%nat = Some (Fin v) ∧ (v == 0)%Q.
Proof.
  intros df. apply (t_score_flat_range df 13 5 5).
  - unfold df. simpl.
    repeat (apply Forall_cons; split; [split; vm_compute; discriminate |]).
    apply Forall_nil_2.
  - lia.
  - vm_compute. reflexivity.
  - vm_compute. reflexivity.
  - reflexivity.
Defined.

Lemma rolling_warm_up w agg x i :
  (i < w - 1)%nat → (i < length x)%nat → rolling w w agg x !! i = Some NaN.
Proof.
  intros Hw Hi. rewrite rolling_lookup.
  destruct (lookup_lt_is_Some_2 x i Hi) as [xi ->]. simpl.
  rewrite length_window by done. case_decide; [lia | done].
Qed.

Lemma shift_lookup_ge k x i :
  (k ≤ i)%nat → (i < length x)%nat → shift k x !! i = x !! (i - k)%nat.
Proof.
  intros Hk Hi. unfold shift. rewrite lookup_take_lt by done.
  rewrite lookup_app_r by (rewrite length_replicate; lia).
  by rewrite length_replicate.
Qed.

Lemma fdiv_nan_r a : fdiv a NaN = NaN.
Proof. by destruct a. Qed.

Lemma pct_change_warm_up k x i :
  (i < k)%nat → (i < length x)%nat → pct_change k x !! i = Some NaN.
Proof.
  intros Hk Hi. unfold pct_change. rewrite lookup_zip_with.
  destruct (lookup_lt_is_Some_2 x i Hi) as [xi ->]. simpl.
  rewrite shift_lookup_lt by done. simpl. by rewrite fdiv_nan_r.
Qed.

(** The nine bits of a row, each false where an operand is NaN. *)
Lemma f_score_bits df i :
  (i < length df)%nat →
  ∃ bits,
    calculate_f_score df !! i =
      Some (foldr (λ b acc, Z.b2z b + acc)%Z 0%Z bits) ∧
    Forall2 (λ comp b,
               comp.2 !! i = Some b ∧
               ((∃ s, s ∈ comp.1 ∧ s !! i = Some NaN) → b = false))
            (f_score_components df) bits.
Proof.
  intros Hi.
  assert (Hparts : ∃ bits,
            Forall2 (λ comp b,
               comp.2 !! i = Some b ∧
               ((∃ s, s ∈ comp.1 ∧ s !! i = Some NaN) → b = false))
            (f_score_components df) bits).
  { unfold f_score_components.
    assert (Hlen : ∀ w f, (i < length (rolling w w agg_mean (col f df)))%nat).
    { intros. by rewrite length_rolling, length_col. }
    assert (Hf : ∀ f, (i < length (fcol f df))%nat).
    { intros. by rewrite length_fcol. }
    assert (Hs : ∀ k x, (i < length x)%nat → (i < length (shift k x))%nat).
    { intros. by rewrite length_shift. }
    assert (Hp : ∀ k x, (i < length x)%nat → (i < length (pct_change k x))%nat).
    { intros. by rewrite length_pct_change. }
    destruct (gt_component (fcol close df)
                (rolling 50 50 agg_mean (col close df)) i) as (b1 & Hb1 & Hn1); auto.
    destruct (gt_component (fcol close df) (shift 20 (fcol close df)) i)
      as (b2 & Hb2 & Hn2); auto.
    destruct (gt_component (rolling 50 50 agg_mean (col close df))
                (shift 20 (rolling 50 50 agg_mean (col close df))) i)
      as (b3 & Hb3 & Hn3); auto.
    destruct (gt_component (fcol volume df)
                (rolling 50 50 agg_mean (col volume df)) i) as (b4 & Hb4 & Hn4); auto.
    destruct (gt_component (rolling 10 10 agg_mean (col close df))
                (rolling 20 20 agg_mean (col close df)) i) as (b5 & Hb5 & Hn5); auto.
    destruct (gt_component (rolling 20 20 agg_mean (col close df))
                (rolling 50 50 agg_mean (col close df)) i) as (b6 & Hb6 & Hn6); auto.
    destruct (gt_component (fcol close df)
                (rolling 200 200 agg_mean (col close df)) i) as (b7 & Hb7 & Hn7); auto.
    destruct (pos_component (pct_change 5 (fcol close df)) i) as (b8 & Hb8 & Hn8); auto.
    destruct (pos_component (pct_change 20 (fcol close df)) i) as (b9 & Hb9 & Hn9); auto.
    exists [b1; b2; b3; b4; b5; b6; b7; b8; b9].
    repeat (apply Forall2_cons_2; [split; [done |] |]); [.. | apply Forall2_nil_2];
      intros (s & Hs' & Hnan); simpl in Hs';
      rewrite ?elem_of_cons, elem_of_nil in Hs'; intuition (subst; auto). }
  destruct Hparts as [bits Hbits]. exists bits. split; [| done].
  unfold calculate_f_score.
  rewrite (foldl_add_flags_lookup i _ _ 0%Z bits).
  - f_equal.
  - by apply lookup_replicate_2.
  - apply Forall2_fmap_l. eapply Forall2_impl; [exact Hbits |].
    by intros comp b [? _].
Qed.

(** Warm-up of the F-Score: it is 0 on the first 5 rows, at most 1 before
    row 19, at most 4 before row 49, at most 7 before row 69, and at most 8
    before row 199 (the 200-row average is not yet defined): the score 9 can
    only appear from row 199 on. *)
Theorem f_score_warm_up (df : list Row) (i : nat) (z : Z) :
  calculate_f_score df !! i = Some z →
  ((i < 5)%nat → z = 0%Z) ∧
  ((i < 19)%nat → (z ≤ 1)%Z) ∧
  ((i < 49)%nat → (z ≤ 4)%Z) ∧
  ((i < 69)%nat → (z ≤ 7)%Z) ∧
  ((i < 199)%nat → (z ≤ 8)%Z).
Proof.
  intros Hz.
  assert (Hi : (i < length df)%nat).
  { apply lookup_lt_Some in Hz. by rewrite length_calculate_f_score in Hz. }
  destruct (f_score_bits df i Hi) as (bits & Hsum & Hbits).
  rewrite Hz in Hsum. injection Hsum as ->.
  unfold f_score_components in Hbits.
  apply Forall2_cons_inv_l in Hbits as (b1 & ? & [_ Hn1] & Hbits & ->).
  apply Forall2_cons_inv_l in Hbits as (b2 & ? & [_ Hn2] & Hbits & ->).
  apply Forall2_cons_inv_l in Hbits as (b3 & ? & [_ Hn3] & Hbits & ->).
  apply Forall2_cons_inv_l in Hbits as (b4 & ? & [_ Hn4] & Hbits & ->).
  apply Forall2_cons_inv_l in Hbits as (b5 & ? & [_ Hn5] & Hbits & ->).
  apply Forall2_cons_inv_l in Hbits as (b6 & ? & [_ Hn6] & Hbits & ->).
  apply Forall2_cons_inv_l in Hbits as (b7 & ? & [_ Hn7] & Hbits & ->).
  apply Forall2_cons_inv_l in Hbits as (b8 & ? & [_ Hn8] & Hbits & ->).
  apply Forall2_cons_inv_l in Hbits as (b9 & ? & [_ Hn9] & Hbits & ->).
  apply Forall2_nil_inv_l in Hbits as ->.
  cbn [fst] in *.
  assert (Hf : (i < length (fcol close df))%nat) by (by rewrite length_fcol).
  assert (Hma : ∀ w f, (i < w - 1)%nat →
            rolling w w agg_mean (col f df) !! i = Some NaN).
  { intros. apply rolling_warm_up; [done | by rewrite length_col]. }
  assert (H50 : (i < 69)%nat →
            shift 20 (rolling 50 50 agg_mean (col close df)) !! i = Some NaN).
  { intros Hlt. destruct (decide (i < 20)%nat).
    - apply shift_lookup_lt; [done |]. by rewrite length_rolling, length_col.
    - rewrite shift_lookup_ge by (rewrite ?length_rolling, ?length_col; lia).
      apply rolling_warm_up; [lia | rewrite length_col; lia]. }
  assert (N1 : (i < 49)%nat → b1 = false).
  { intros. apply Hn1. eexists. split; [apply list_elem_of_here |].
    apply Hma. lia. }
  assert (N2 : (i < 20)%nat → b2 = false).
  { intros. apply Hn2. eexists. split; [apply list_elem_of_here |].
    by apply shift_lookup_lt. }
  assert (N3 : (i < 69)%nat → b3 = false).
  { intros. apply Hn3. eexists.
    split; [apply list_elem_of_further, list_elem_of_here |]. by apply H50. }
  assert (N4 : (i < 49)%nat → b4 = false).
  { intros. apply Hn4. eexists. split; [apply list_elem_of_here |].
    apply Hma. lia. }
  assert (N5 : (i < 19)%nat → b5 = false).
  { intros. apply Hn5. eexists.
    split; [apply list_elem_of_further, list_elem_of_here |]. apply Hma. lia. }
  assert (N6 : (i < 49)%nat → b6 = false).
  { intros. apply Hn6. eexists.
    split; [apply list_elem_of_further, list_elem_of_here |]. apply Hma. lia. }
  assert (N7 : (i < 199)%nat → b7 = false).
  { intros. apply Hn7. eexists. split; [apply list_elem_of_here |].
    apply Hma. lia. }
  assert (N8 : (i < 5)%nat → b8 = false).
  { intros. apply Hn8. eexists. split; [apply list_elem_of_here |].
    by apply pct_change_warm_up. }
  assert (N9 : (i < 20)%nat → b9 = false).
  { intros. apply Hn9. eexists. split; [apply list_elem_of_here |].
    by apply pct_change_warm_up. }
  clear Hn1 Hn2 Hn3 Hn4 Hn5 Hn6 Hn7 Hn8 Hn9 Hz Hma H50.
  cbn [foldr].
  assert (B : ∀ b : bool, (0 ≤ Z.b2z b ≤ 1)%Z) by (by intros []).
  pose proof (B b1). pose proof (B b2). pose proof (B b3). pose proof (B b4).
  pose proof (B b5). pose proof (B b6). pose proof (B b7). pose proof (B b8).
  pose proof (B b9).
  repeat split; intros Hlt.
  - rewrite N1, N2, N3, N4, N5, N6, N7, N8, N9 by lia. done.
  - rewrite N1, N2, N3, N4, N5, N6, N7, N9 by lia. simpl. lia.
  - rewrite N1, N3, N4, N6, N7 by lia. simpl. lia.
  - rewrite N3, N7 by lia. simpl. lia.
  - rewrite N7 by lia. simpl. lia.
Qed.

Lemma f_score_warm_up_witness :
  let df := [ mkRow (mkBar "X" 1 10 10 9 10 100) ∅;
              mkRow (mkBar "X" 2 12 12 11 12 200) ∅ ] in
  ((1 < 5)%nat → 0%Z = 0%Z) ∧
  ((1 < 19)%nat → (0 ≤ 1)%Z) ∧
  ((1 < 49)%nat → (0 ≤ 4)%Z) ∧
  ((1 < 69)%nat → (0 ≤ 7)%Z) ∧
  ((1 < 199)%nat → (0 ≤ 8)%Z).
Proof.
  intros df. apply (f_score_warm_up df 1 0). vm_compute. reflexivity.
Defined.

Lemma positive_return_iff c p :
  (0 < p)%Q →
  fgt (fsub (fdiv (Fin c) (Fin p)) (Fin 1)) (Fin 0) = fgt (Fin c) (Fin p).
Proof.
  intros Hp. unfold fdiv.
  destruct (Qeq_bool p 0) eqn:E; [apply Qeq_bool_iff in E; lra |].
  unfold fsub, fgt, flt, fneg, fadd. f_equal.
  assert (Hdiv : (c / p * p == c)%Q) by (field; lra).
  destruct (Qle_bool (c / p + - (1)) 0) eqn:E1, (Qle_bool c p) eqn:E2; try done.
  - apply Qle_bool_iff in E1.
    assert (c / p * p <= 1 * p)%Q by (apply Qmult_le_compat_r; lra).
    assert (E3 : (c <= p)%Q) by lra.
    apply Qle_bool_iff in E3. congruence.
  - apply Qle_bool_iff in E2.
    assert (c / p <= 1)%Q by (apply Qle_shift_div_r; lra).
    assert (E3 : (c / p + - (1) <= 0)%Q) by lra.
    apply Qle_bool_iff in E3. congruence.
Qed.

(** A positive [k]-row return and a close above the close [k] rows back
    are the same condition on series of positive closes. *)
Lemma positive_return_series k df :
  Forall (λ r, (0 < close (bar r))%Q) df →
  (λ v, fgt v (Fin 0)) <$> pct_change k (fcol close df) =
    zip_with fgt (fcol close df) (shift k (fcol close df)).
Proof.
  intros Hpos. apply list_eq. intros i.
  unfold pct_change. rewrite list_lookup_fmap, !lookup_zip_with.
  destruct (fcol close df !! i) as [c |] eqn:Ec; [| done]. simpl.
  assert (Hi : (i < length (fcol close df))%nat) by (by eapply lookup_lt_Some).
  unfold fcol in Ec. rewrite list_lookup_fmap, col_lookup in Ec.
  destruct (df !! i) as [r |] eqn:Er; [| done]. injection Ec as <-.
  destruct (decide (i < k)%nat) as [Hlt | Hge].
  - rewrite shift_lookup_lt by done. reflexivity.
  - rewrite shift_lookup_ge by (done || lia).
    unfold fcol. rewrite list_lookup_fmap, col_lookup.
    destruct (df !! (i - k)%nat) as [r' |] eqn:Er'.
    + simpl. f_equal. apply positive_return_iff.
      exact (proj1 (Forall_lookup _ df) Hpos _ _ Er').
    + apply lookup_ge_None in Er'. rewrite length_fcol in Hi. lia.
Qed.

(** On a series of positive closes, the second component of the F-Score
    (close above the close 20 rows back) and the ninth (positive 20-row
    return) are the same series of bits: the 20-row rise is counted
    twice. *)
Theorem f_score_counts_20_day_rise_twice (df : list Row) :
  Forall (λ r, (0 < close (bar r))%Q) df →
  ∃ bits,
    snd <$> f_score_components df !! 1%nat = Some bits ∧
    snd <$> f_score_components df !! 8%nat = Some bits.
Proof.
  intros Hpos. eexists. split; [reflexivity |].
  unfold f_score_components. cbn [lookup list_lookup fmap option_fmap option_map snd].
  f_equal. by apply positive_return_series.
Qed.

Lemma f_score_counts_20_day_rise_twice_witness :
  let df := [ mkRow (mkBar "X" 1 10 10 9 10 100) ∅;
              mkRow (mkBar "X" 2 12 12 11 12 200) ∅ ] in
  ∃ bits,
    snd <$> f_score_components df !! 1%nat = Some bits ∧
    snd <$> f_score_components df !! 8%nat = Some bits.
Proof.
  intros df. apply (f_score_counts_20_day_rise_twice df).
  unfold df. repeat (apply Forall_cons; split; [vm_compute; reflexivity |]).
  apply Forall_nil_2.
Defined.

End Scores.

(** * The columns of the processed frame *)

Section ProcessedFrame.

Implicit Types (d : list Row) (h : list (list Row)).

Lemma column_assign name values d :
  length values = length d →
  column name (assign name values d) = Some <$> values.
Proof.
  unfold column, assign. revert values.
  induction d as [| r d IH]; intros [| c values] Hlen; simplify_eq/=; [done |].
  rewrite lookup_insert_eq. f_equal. by apply IH.
Qed.

Lemma column_assign_ne name name' values d :
  name ≠ name' → length values = length d →
  column name' (assign name values d) = column name' d.
Proof.
  intros Hne. unfold column, assign. revert values.
  induction d as [| r d IH]; intros [| c values] Hlen; simplify_eq/=; [done |].
  rewrite lookup_insert_ne by done. f_equal. by apply IH.
Qed.

Lemma column_set_column name g d :
  from_bars g → column name (set_column name g d) = Some <$> g d.
Proof. intros [Hlen _]. by apply column_assign. Qed.

Lemma column_set_column_ne name name' g d :
  from_bars g → name ≠ name' →
  column name' (set_column name g d) = column name' d.
Proof. intros [Hlen _] Hne. by apply column_assign_ne. Qed.

Lemma from_bars_set_column_bars name g d :
  from_bars g → bar <$> set_column name g d = bar <$> d.
Proof. intros [Hlen _]. by apply set_column_bars. Qed.

Lemma from_bars_set_columns_bars {A} (ps : list A) name f d :
  (∀ p, from_bars (f p)) → bar <$> set_columns ps name f d = bar <$> d.
Proof. intros Hf. apply set_columns_bars. intros p d'. by destruct (Hf p). Qed.

Lemma from_bars_set_column g' name g d :
  from_bars g' → from_bars g → g' (set_column name g d) = g' d.
Proof.
  intros [_ Hext] [Hlen _]. apply Hext. by apply set_column_bars.
Qed.

Lemma from_bars_set_columns {A} g' (ps : list A) name f d :
  from_bars g' → (∀ p, from_bars (f p)) →
  g' (set_columns ps name f d) = g' d.
Proof.
  intros [_ Hext] Hf. apply Hext. apply set_columns_bars.
  intros p d'. by destruct (Hf p).
Qed.

Lemma column_set_columns_ne {A} (ps : list A) name f name' d :
  (∀ p, from_bars (f p)) → name' ∉ name <$> ps →
  column name' (set_columns ps name f d) = column name' d.
Proof.
  intros Hf. unfold set_columns. revert d.
  induction ps as [| p ps IH]; intros d Hn; [done |].
  rewrite fmap_cons, not_elem_of_cons in Hn. destruct Hn as [Hne Hn].
  cbn [foldl]. rewrite IH by done. by apply column_set_column_ne.
Qed.

Lemma column_set_columns {A} (ps : list A) name f p d :
  (∀ p, from_bars (f p)) → NoDup (name <$> ps) → p ∈ ps →
  column (name p) (set_columns ps name f d) = Some <$> f p d.
Proof.
  intros Hf. revert d.
  induction ps as [| p0 ps IH]; intros d Hnd Hp; [by apply elem_of_nil in Hp |].
  rewrite fmap_cons in Hnd. apply NoDup_cons in Hnd as [Hfresh Hnd].
  change (set_columns (p0 :: ps) name f d)
    with (set_columns ps name f (set_column (name p0) (f p0) d)).
  destruct (decide (name p = name p0)) as [E | Hne].
  - rewrite E, column_set_columns_ne by done.
    rewrite column_set_column by done.
    apply elem_of_cons in Hp as [-> | Hp]; [done |].
    destruct Hfresh. rewrite <- E. apply list_elem_of_fmap. by exists p.
  - apply elem_of_cons in Hp as [-> | Hp]; [done |].
    rewrite IH by done. f_equal. by apply from_bars_set_column.
Qed.

Lemma col_bars f d d' : bar <$> d' = bar <$> d → col f d' = col f d.
Proof. intros E. unfold col. by rewrite !list_fmap_compose, E. Qed.

Lemma fcol_bars f d d' : bar <$> d' = bar <$> d → fcol f d' = fcol f d.
Proof. intros E. unfold fcol. by rewrite (col_bars f d d' E). Qed.

Lemma from_bars_t_score : from_bars (λ d, CFloat <$> calculate_t_score d).
Proof.
  split.
  - intros d. by rewrite length_fmap, length_calculate_t_score.
  - intros d d' E. unfold calculate_t_score.
    by rewrite !(col_bars _ d d' E), (fcol_bars _ d d' E).
Qed.

Lemma from_bars_f_score : from_bars (λ d, CInt <$> calculate_f_score d).
Proof.
  split.
  - intros d. by rewrite length_fmap, length_calculate_f_score.
  - intros d d' E. unfold calculate_f_score, f_score_components.
    rewrite !(col_bars _ d d' E), !(fcol_bars _ d d' E).
    apply (f_equal length) in E. rewrite !length_fmap in E. by rewrite E.
Qed.

Lemma from_bars_sma p :
  from_bars (λ d, CFloat <$> calculate_sma (col close d) p).
Proof.
  split.
  - intros d. by rewrite length_fmap, length_calculate_sma, length_col.
  - intros d d' E. by rewrite (col_bars _ d d' E).
Qed.

Lemma from_bars_ema p :
  from_bars (λ d, CFloat <$> calculate_ema (col close d) p).
Proof.
  split.
  - intros d. by rewrite length_fmap, length_calculate_ema, length_col.
  - intros d d' E. by rewrite (col_bars _ d d' E).
Qed.

Lemma from_bars_52_week_high :
  from_bars (λ d, CBool <$> calculate_52_week_high d).
Proof.
  split.
  - intros d. by rewrite length_fmap, length_calculate_52_week_high.
  - intros d d' E. unfold calculate_52_week_high.
    by rewrite !(col_bars _ d d' E), (fcol_bars _ d d' E).
Qed.

Lemma from_bars_52_week_low :
  from_bars (λ d, CBool <$> calculate_52_week_low d).
Proof.
  split.
  - intros d. by rewrite length_fmap, length_calculate_52_week_low.
  - intros d d' E. unfold calculate_52_week_low.
    by rewrite !(col_bars _ d d' E), (fcol_bars _ d d' E).
Qed.

Lemma from_bars_all_time_high :
  from_bars (λ d, CBool <$> calculate_all_time_high d).
Proof.
  split.
  - intros d. by rewrite length_fmap, length_calculate_all_time_high.
  - intros d d' E. unfold calculate_all_time_high.
    by rewrite !(col_bars _ d d' E), (fcol_bars _ d d' E).
Qed.

Lemma from_bars_all_time_low :
  from_bars (λ d, CBool <$> calculate_all_time_low d).
Proof.
  split.
  - intros d. by rewrite length_fmap, length_calculate_all_time_low.
  - intros d d' E. unfold calculate_all_time_low.
    by rewrite !(col_bars _ d d' E), (fcol_bars _ d d' E).
Qed.

#[local] Hint Resolve from_bars_t_score from_bars_f_score from_bars_sma
  from_bars_ema from_bars_52_week_high from_bars_52_week_low
  from_bars_all_time_high from_bars_all_time_low : core.

Ltac column_name_side :=
  first
    [ by auto
    | by (intros; auto)
    | discriminate
    | by (apply (bool_decide_unpack _); vm_compute) ].

Ltac skip_later_columns :=
  repeat first
    [ rewrite column_set_column_ne by column_name_side
    | rewrite column_set_columns_ne by column_name_side ].

Ltac same_bars :=
  repeat first
    [ rewrite from_bars_set_column_bars by auto
    | rewrite from_bars_set_columns_bars by (intros; auto) ];
  reflexivity.

(** Every column that [with_indicators] assigns holds, in the result, the
    indicator of the bars of the frame: an assignment does not disturb the
    columns assigned before it. *)
Lemma with_indicators_columns d :
  indicator_columns d (with_indicators d).
Proof.
  unfold indicator_columns, with_indicators. cbv zeta.
  split; [| split; [| split; [| split; [| split; [| split; [| split]]]]]].
  - skip_later_columns. by rewrite column_set_column.
  - skip_later_columns. rewrite column_set_column by auto. f_equal.
    apply (proj2 from_bars_f_score). same_bars.
  - intros p Hp.
    rewrite !column_set_column_ne by (auto || by intros [=]).
    rewrite column_set_columns_ne; [| by auto |]; last first.
    { intros (q & E & _)%list_elem_of_fmap. by injection E. }
    rewrite (column_set_columns Config.DMA_PERIODS (λ p, "dma_" +:+ pretty p)
               (λ p d, CFloat <$> calculate_sma (col close d) p) p);
      [| by auto | by (apply (bool_decide_unpack _); vm_compute) | done].
    f_equal. apply (proj2 (from_bars_sma p)). same_bars.
  - intros p Hp.
    rewrite !column_set_column_ne by (auto || by intros [=]).
    rewrite (column_set_columns Config.EMA_PERIODS (λ p, "ema_" +:+ pretty p)
               (λ p d, CFloat <$> calculate_ema (col close d) p) p);
      [| by auto | by (apply (bool_decide_unpack _); vm_compute) | done].
    f_equal. apply (proj2 (from_bars_ema p)). same_bars.
  - skip_later_columns. rewrite column_set_column by auto. f_equal.
    apply (proj2 from_bars_52_week_high). same_bars.
  - skip_later_columns. rewrite column_set_column by auto. f_equal.
    apply (proj2 from_bars_52_week_low). same_bars.
  - skip_later_columns. rewrite column_set_column by auto. f_equal.
    apply (proj2 from_bars_all_time_high). same_bars.
  - rewrite column_set_column by auto. f_equal.
    apply (proj2 from_bars_all_time_low). same_bars.
Qed.

Lemma insert_by_date_Sorted r d :
  date_sorted d → date_sorted (insert_by_date r d).
Proof.
  unfold date_sorted. induction 1 as [| r' d Hd IH Hhd]; simpl.
  - by repeat constructor.
  - case_decide as Hle.
    + constructor; [by constructor | by constructor].
    + constructor; [done |].
      destruct Hhd as [| r'' d' Hr'']; simpl.
      * constructor. lia.
      * case_decide; constructor; [lia | done].
Qed.

(** [sort_by_date] returns its rows in ascending date order. *)
Lemma sort_by_date_Sorted d : date_sorted (sort_by_date d).
Proof.
  induction d as [| r d IH]; simpl; [constructor |].
  by apply insert_by_date_Sorted.
Qed.

Lemma date_sorted_bars d d' :
  bar <$> d' = bar <$> d → date_sorted d → date_sorted d'.
Proof.
  unfold date_sorted. intros E H. revert d' E.
  induction H as [| r d Hd IH Hhd]; intros [| r' d'] E; simplify_eq/=;
    [constructor |].
  constructor; [by apply IH |].
  destruct Hhd as [| r'' d1 Hr'']; destruct d' as [| r2 d2]; simplify_eq/=;
    constructor. congruence.
Qed.

Lemma process_symbol_sorted s d : date_sorted (process_symbol s d).
Proof.
  unfold process_symbol.
  eapply date_sorted_bars; [apply with_indicators_bars |].
  apply sort_by_date_Sorted.
Qed.

Lemma process_symbol_bars_perm s d :
  bar <$> process_symbol s d ≡ₚ bar <$> select_symbol s d.
Proof.
  unfold process_symbol.
  by rewrite with_indicators_bars, !sort_by_date_perm.
Qed.

Lemma process_frame_bars_perm d : bar <$> process_frame d ≡ₚ bar <$> d.
Proof.
  rewrite <- (regroup_perm d) at 2. unfold process_frame, regroup.
  induction (symbols_of d) as [| s ss IH]; [reflexivity |].
  rewrite !fmap_cons. change (concat (?x :: ?l)) with (x ++ concat l).
  rewrite !fmap_app, IH. by rewrite process_symbol_bars_perm.
Qed.

Lemma unique_block (s : string) (n : nat) (l : list string) :
  unique (replicate (S n) s ++ l) = s :: filter (λ t, t ≠ s) (unique l).
Proof.
  induction n as [| n IH]; [done |].
  change (replicate (S (S n)) s ++ l) with (s :: (replicate (S n) s ++ l)).
  cbn [unique]. rewrite IH. f_equal.
  rewrite filter_cons_False by (by intros ?).
  by apply list_filter_filter_l.
Qed.

Lemma symbol_column_block s d :
  Forall (λ r, symbol (bar r) = s) d →
  symbol ∘ bar <$> d = replicate (length d) s.
Proof.
  induction 1 as [| r d Hr _ IH]; [done |].
  rewrite fmap_cons, IH. cbn [length replicate]. f_equal. exact Hr.
Qed.

Lemma filter_ne_absent (s : string) (l : list string) :
  s ∉ l → filter (λ t, t ≠ s) l = l.
Proof.
  induction l as [| t l IH]; [done |]. intros [Hne Hn]%not_elem_of_cons.
  rewrite filter_cons_True by congruence. by rewrite IH.
Qed.

(** The symbols of a concatenation of non-empty per-symbol groups, in order
    of first appearance, are the symbols of the groups. *)
Lemma symbols_of_groups (G : string → list Row) ss :
  NoDup ss →
  (∀ s, s ∈ ss → G s ≠ [] ∧ Forall (λ r, symbol (bar r) = s) (G s)) →
  symbols_of (concat (G <$> ss)) = ss.
Proof.
  unfold symbols_of. induction ss as [| s ss IH]; intros Hnd HG; [done |].
  apply NoDup_cons in Hnd as [Hs Hnd].
  rewrite fmap_cons. change (concat (?x :: ?l)) with (x ++ concat l).
  rewrite fmap_app.
  destruct (HG s) as [Hne Hall]; [apply list_elem_of_here |].
  rewrite (symbol_column_block s _ Hall).
  destruct (G s) as [| r g]; [done |]. cbn [length].
  rewrite unique_block, IH; [| done |].
  - by rewrite filter_ne_absent.
  - intros t Ht. apply HG. by apply list_elem_of_further.
Qed.

Lemma select_symbol_nonempty s d :
  s ∈ symbols_of d → select_symbol s d ≠ [].
Proof.
  unfold symbols_of. rewrite elem_of_unique.
  intros (r & Hs & Hr)%list_elem_of_fmap E.
  assert (Hin : r ∈ select_symbol s d).
  { unfold select_symbol. apply list_elem_of_filter. by split. }
  rewrite E in Hin. by apply elem_of_nil in Hin.
Qed.

Lemma process_symbol_nonempty s d :
  s ∈ symbols_of d → process_symbol s d ≠ [].
Proof.
  intros Hs E. apply (select_symbol_nonempty s d Hs).
  pose proof (process_symbol_bars_perm s d) as Hp. rewrite E in Hp.
  apply Permutation_nil_l in Hp. by destruct (select_symbol s d).
Qed.

Lemma symbols_of_process_frame d : symbols_of (process_frame d) = symbols_of d.
Proof.
  unfold process_frame. apply symbols_of_groups; [apply NoDup_unique |].
  intros s Hs. split; [by apply process_symbol_nonempty |].
  apply process_symbol_Forall.
Qed.

(** [add_all_indicators] on any frame: the result is a new frame with the
    rows of the argument in ascending date order, and each of its fourteen
    columns holds the indicator of the date-sorted bars (an assignment does
    not disturb the columns assigned before it). *)
Theorem add_all_indicators_columns h (l : loc) d :
  h !! l = Some d →
  ∃ l' h' out,
    add_all_indicators l h = Some (l', h') ∧
    h' !! l' = Some out ∧
    bar <$> out = bar <$> sort_by_date d ∧
    date_sorted out ∧
    bar <$> out ≡ₚ bar <$> d ∧
    indicator_columns (sort_by_date d) out.
Proof.
  intros Hd. eexists _, _, _. split; [by apply add_all_indicators_run |].
  split.
  { rewrite lookup_app_r by lia.
    by replace (length h + 2 - length h)%nat with 2%nat by lia. }
  split; [apply with_indicators_bars |].
  split.
  { eapply date_sorted_bars; [apply with_indicators_bars |].
    apply sort_by_date_Sorted. }
  split; [by rewrite with_indicators_bars, sort_by_date_perm |].
  apply with_indicators_columns.
Qed.

Lemma add_all_indicators_columns_witness :
  let d := [ mkRow (mkBar "X" 2 12 12 11 12 200) ∅;
             mkRow (mkBar "X" 1 10 10 9 10 100) ∅ ] in
  ∃ l' h' out,
    add_all_indicators 0%nat [d] = Some (l', h') ∧
    h' !! l' = Some out ∧
    bar <$> out = bar <$> sort_by_date d ∧
    date_sorted out ∧
    bar <$> out ≡ₚ bar <$> d ∧
    indicator_columns (sort_by_date d) out.
Proof.
  intros d. apply (add_all_indicators_columns [d] 0%nat d). reflexivity.
Defined.

(** [process_multiple_symbols] on any non-empty frame, sorted or not: the
    result has as many rows as the input and the same bars, rearranged; the
    symbols appear in the order of their first appearance in the input; the
    rows of each symbol are its input rows in ascending date order, and
    their fourteen columns hold the indicators of that date-sorted series. *)
Theorem process_multiple_symbols_groups_and_sorts h (l : loc) d :
  h !! l = Some d → d ≠ [] →
  ∃ l' h' out,
    process_multiple_symbols l h = Some (l', h') ∧
    h' !! l' = Some out ∧
    length out = length d ∧
    bar <$> out ≡ₚ bar <$> d ∧
    symbols_of out = symbols_of d ∧
    (∀ s, date_sorted (select_symbol s out) ∧
          bar <$> select_symbol s out =
            bar <$> sort_by_date (select_symbol s d) ∧
          indicator_columns (sort_by_date (select_symbol s d))
            (select_symbol s out)).
Proof.
  intros Hd Hne.
  destruct (process_multiple_symbols_run h l d Hd) as [_ Hrun].
  destruct (Hrun Hne) as (l' & ext & Hr & Hl).
  exists l', (h ++ ext), (process_frame d).
  split; [done |]. split; [done |].
  split.
  { pose proof (process_frame_bars_perm d) as Hp.
    apply Permutation_length in Hp. by rewrite !length_fmap in Hp. }
  split; [apply process_frame_bars_perm |].
  split; [apply symbols_of_process_frame |].
  intros s. rewrite select_symbol_process_frame.
  split; [apply process_symbol_sorted |].
  unfold process_symbol.
  rewrite (sort_by_date_sorted (sort_by_date (select_symbol s d)))
    by apply sort_by_date_Sorted.
  split; [apply with_indicators_bars | apply with_indicators_columns].
Qed.

Lemma process_multiple_symbols_groups_and_sorts_witness :
  let d := [ mkRow (mkBar "X" 2 12 12 11 12 200) ∅;
             mkRow (mkBar "Y" 1 20 21 19 20 300) ∅;
             mkRow (mkBar "X" 1 10 10 9 10 100) ∅ ] in
  ∃ l' h' out,
    process_multiple_symbols 0%nat [d] = Some (l', h') ∧
    h' !! l' = Some out ∧
    length out = length d ∧
    bar <$> out ≡ₚ bar <$> d ∧
    symbols_of out = symbols_of d ∧
    (∀ s, date_sorted (select_symbol s out) ∧
          bar <$> select_symbol s out =
            bar <$> sort_by_date (select_symbol s d) ∧
          indicator_columns (sort_by_date (select_symbol s d))
            (select_symbol s out)).
Proof.
  intros d. apply (process_multiple_symbols_groups_and_sorts [d] 0%nat d).
  - reflexivity.
  - discriminate.
Defined.

(** On an empty frame [process_multiple_symbols] raises: there is no symbol,
    hence no frame to concatenate; no frame is allocated or changed. *)
Theorem process_multiple_symbols_empty_frame h (l : loc) :
  h !! l = Some [] → process_multiple_symbols l h = None.
Proof.
  intros Hd. by destruct (process_multiple_symbols_run h l [] Hd) as [-> _].
Qed.

Lemma process_multiple_symbols_empty_frame_witness :
  process_multiple_symbols 0%nat [[]] = None.
Proof.
  apply (process_multiple_symbols_empty_frame [[]] 0%nat). reflexivity.
Defined.

End ProcessedFrame.

(** * More on the upsert writer *)

Section WriterFacts.

Import Database.

Implicit Types (t : gmap (string * Z) StockData) (n : Z) (r : IndicatorRow)
  (rs : list IndicatorRow) (k : string * Z) (d df : list Row).

(** The batches are the consecutive slices [records[i*size : (i+1)*size]]. *)
Lemma batches_go_lookup {A} (size : nat) : ∀ fuel (l : list A) i,
  (0 < size)%nat → (length l ≤ fuel)%nat →
  batches_go fuel size l !! i =
    if decide (i * size < length l)%nat
    then Some (take size (drop (i * size) l)) else None.
Proof.
  induction fuel as [| fuel IH]; intros l i Hs Hl.
  - destruct l; [| simpl in Hl; lia].
    change (batches_go 0 size []) with (@nil (list A)). rewrite lookup_nil.
    destruct (decide (i * size < length (@nil A))%nat) as [H |]; [| done].
    simpl in H. lia.
  - destruct l as [| a l].
    { change (batches_go (S fuel) size []) with (@nil (list A)).
      rewrite lookup_nil.
      destruct (decide (i * size < length (@nil A))%nat) as [H |]; [| done].
      simpl in H. lia. }
    change (batches_go (S fuel) size (a :: l))
      with (take size (a :: l) :: batches_go fuel size (drop size (a :: l))).
    destruct i as [| i].
    + rewrite decide_True by (simpl; lia). done.
    + rewrite lookup_cons_ne_0 by done. cbn [pred].
      rewrite IH by (rewrite ?length_drop; simpl in *; lia).
      rewrite length_drop, drop_drop.
      replace (size + i * size)%nat with (S i * size)%nat by lia.
      destruct (decide (i * size < length (a :: l) - size)%nat),
               (decide (S i * size < length (a :: l))%nat); done || lia.
Qed.

(** The loop over the batches visits the slices
    [records[i*size : i*size + size]] for [i*size < len(records)], in
    order: they are non-empty, hold at most [size] rows, and together are
    the records. *)
Theorem batches_are_slices {A} (size : nat) (l : list A) :
  (0 < size)%nat →
  (∀ i, batches size l !! i =
          if decide (i * size < length l)%nat
          then Some (take size (drop (i * size) l)) else None) ∧
  Forall (λ b, (0 < length b ≤ size)%nat) (batches size l) ∧
  concat (batches size l) = l.
Proof.
  intros Hs.
  assert (Hlook : ∀ i, batches size l !! i =
            if decide (i * size < length l)%nat
            then Some (take size (drop (i * size) l)) else None).
  { intros i. by apply batches_go_lookup. }
  split; [done |]. split; [| by apply concat_batches].
  apply Forall_lookup. intros i b Hb. rewrite Hlook in Hb.
  case_decide; [| done]. injection Hb as <-.
  rewrite length_take, length_drop. lia.
Qed.

Lemma batches_are_slices_witness :
  (∀ i, batches 2 [1; 2; 3; 4; 5]%nat !! i =
          if decide (i * 2 < length [1; 2; 3; 4; 5]%nat)%nat
          then Some (take 2 (drop (i * 2) [1; 2; 3; 4; 5]%nat)) else None) ∧
  Forall (λ b, (0 < length b ≤ 2)%nat) (batches 2 [1; 2; 3; 4; 5]%nat) ∧
  concat (batches 2 [1; 2; 3; 4; 5]%nat) = [1; 2; 3; 4; 5]%nat.
Proof.
  apply (batches_are_slices 2 [1; 2; 3; 4; 5]%nat). lia.
Defined.

(** A record has the key and the five bar columns of its row. *)
Lemma to_record_bar (row : Row) r :
  to_record row = Some r →
  key r = row_key row ∧
  open (values r) = Frame.open (bar row) ∧
  high (values r) = Frame.high (bar row) ∧
  low (values r) = Frame.low (bar row) ∧
  close (values r) = Frame.close (bar row) ∧
  volume (values r) = Frame.volume (bar row).
Proof.
  unfold to_record. intros H.
  repeat match type of H with
  | (?m ≫= _) = Some _ =>
      let E := fresh "E" in
      destruct m eqn:E; [cbn [mbind option_bind] in H | discriminate]
  end.
  injection H as <-. done.
Qed.

Lemma to_dict_records_keys df rs :
  to_dict_records df = Some rs → key <$> rs = row_key <$> df.
Proof.
  unfold to_dict_records. intros H%mapM_Some_1.
  induction H as [| row r df rs Hr _ IH]; [done |].
  rewrite !fmap_cons, IH. f_equal. by apply to_record_bar in Hr as [? _].
Qed.

Lemma store_data_other_key fault db df k :
  (∀ row, row ∈ df → row_key row ≠ k) →
  table (_store_data fault db df).1 !! k = table db !! k.
Proof.
  intros Hk. destruct ((_store_data fault db df).2) as [[] |] eqn:E.
  - destruct (store_data_returned fault db df E) as (rs & Hrs & ->).
    apply foldl_upsert_other. rewrite (to_dict_records_keys df rs Hrs).
    intros (row & -> & Hrow)%list_elem_of_fmap. by apply (Hk row).
  - by rewrite store_data_raised.
Qed.

(** The writer touches only the keys of the rows it is given: whatever
    the outcome of the write, the row stored under any other key, or the
    absence of a row, is as before. *)
Theorem store_data_touches_only_submitted_keys (fault : nat → bool)
    (db : Store) (df : list Row) (k : string * Z) :
  (∀ row, row ∈ df → row_key row ≠ k) →
  table (_store_data fault db df).1 !! k = table db !! k.
Proof. apply store_data_other_key. Qed.

Lemma store_data_touches_only_submitted_keys_witness :
  let df := process_frame [mkRow (mkBar "X" 1 10 10 9 10 100) ∅] in
  let old := {| id := 7;
                vals := mkValues 1 2 3 4 5 (Fin 6) (Fin 9) (Fin 1) (Fin 1)
                          (Fin 1) (Fin 1) (Fin 1) (Fin 1) (Fin 1) (Fin 1)
                          false false false false |} in
  let db := {| table := {[ ("Y", 1%Z) := old ]}; id_seq := 8 |} in
  table (_store_data (λ _, false) db df).1 !! ("Y", 1%Z) =
    table db !! ("Y", 1%Z).
Proof.
  intros df old db.
  apply (store_data_touches_only_submitted_keys (λ _, false) db df ("Y", 1%Z)).
  intros row Hrow. vm_compute in Hrow.
  apply list_elem_of_singleton in Hrow as ->. discriminate.
Defined.

(** The writer never deletes: a key stored before the write is stored
    after it, under the same [id], whatever the outcome. *)
Theorem store_data_never_deletes (fault : nat → bool) (db : Store)
    (df : list Row) (k : string * Z) (old : StockData) :
  table db !! k = Some old →
  ∃ stored, table (_store_data fault db df).1 !! k = Some stored ∧
            id stored = id old.
Proof.
  intros Hold. destruct ((_store_data fault db df).2) as [[] |] eqn:E.
  - destruct (store_data_returned fault db df E) as (rs & Hrs & ->).
    by apply foldl_upsert_id.
  - rewrite store_data_raised by done. by exists old.
Qed.

Lemma store_data_never_deletes_witness :
  let df := process_frame [mkRow (mkBar "X" 1 10 10 9 10 100) ∅] in
  let old := {| id := 7;
                vals := mkValues 1 2 3 4 5 (Fin 6) (Fin 9) (Fin 1) (Fin 1)
                          (Fin 1) (Fin 1) (Fin 1) (Fin 1) (Fin 1) (Fin 1)
                          false false false false |} in
  let db := {| table := {[ ("X", 1%Z) := old ]}; id_seq := 8 |} in
  ∃ stored, table (_store_data (λ _, false) db df).1 !! ("X", 1%Z) = Some stored ∧
            id stored = id old.
Proof.
  intros df old db.
  apply (store_data_never_deletes (λ _, false) db df ("X", 1%Z) old).
  vm_compute. reflexivity.
Defined.

Lemma execute_batches_returned_NoDup fault bs : ∀ i s,
  (execute_batches fault i s bs).2 = Returned tt →
  Forall (λ b, NoDup (key <$> b)) bs.
Proof.
  induction bs as [| b bs IH]; intros i s H; [constructor |].
  cbn [execute_batches] in H.
  destruct (execute (fault i) s b) as [s' |] eqn:E; [| done].
  constructor; [| by eapply IH].
  unfold execute in E. destruct (fault i); [done |]. by case_decide.
Qed.

(** With a store that does not fail on its own, the write of a frame of
    processed rows raises exactly when some batch (a slice of 1000
    consecutive records) holds two rows with the same key; then nothing is
    written.  A key repeated in two different batches does not make the
    write raise. *)
Theorem store_data_raises_iff_duplicate_in_a_batch (fault : nat → bool)
    (db : Store) (df : list Row) (records : list IndicatorRow) :
  (∀ j, fault j = false) →
  to_dict_records df = Some records →
  ((_store_data fault db df).2 = Raised ↔
   ∃ b, b ∈ batches 1000 records ∧ ¬ NoDup (key <$> b)) ∧
  ((_store_data fault db df).2 = Raised →
   table (_store_data fault db df).1 = table db).
Proof.
  intros Hf Hrec. split; [| apply store_data_raised].
  destruct (decide (Forall (λ b, NoDup (key <$> b)) (batches 1000 records)))
    as [Hall | Hnot].
  - split.
    + intros Hraised. unfold _store_data in Hraised. rewrite Hrec in Hraised.
      pose proof (execute_batches_ok fault (batches 1000 records) 0
                    (get_session db) Hf Hall) as Hok.
      destruct (execute_batches fault 0 (get_session db)
                  (batches 1000 records)) as [s [[] |]]; done.
    + intros (b & Hb & Hdup). destruct Hdup.
      by apply (proj1 (Forall_forall _ _) Hall).
  - split.
    + intros _. apply not_Forall_Exists in Hnot; [| apply _].
      apply Exists_exists in Hnot as (b & Hb & Hdup). by exists b.
    + intros _. destruct ((_store_data fault db df).2) as [[] |] eqn:E; [| done].
      destruct Hnot. unfold _store_data in E. rewrite Hrec in E.
      apply (execute_batches_returned_NoDup fault _ 0 (get_session db)).
      by destruct (execute_batches fault 0 (get_session db)
                     (batches 1000 records)) as [s [[] |]].
Qed.

Lemma store_data_raises_iff_duplicate_in_a_batch_witness :
  let row := mkRow (mkBar "X" 1 10 10 9 10 100) ∅ in
  let df := process_frame [row; row] in
  let records := default [] (to_dict_records df) in
  let db := {| table := ∅; id_seq := 1 |} in
  ((_store_data (λ _, false) db df).2 = Raised ↔
   ∃ b, b ∈ batches 1000 records ∧ ¬ NoDup (key <$> b)) ∧
  ((_store_data (λ _, false) db df).2 = Raised →
   table (_store_data (λ _, false) db df).1 = table db).
Proof.
  intros row df records db.
  apply (store_data_raises_iff_duplicate_in_a_batch (λ _, false) db df records).
  - reflexivity.
  - vm_compute. reflexivity.
Defined.

Lemma upsert_row_dom t n r :
  dom (upsert_row (t, n) r).1 = {[ key r ]} ∪ dom t.
Proof.
  unfold upsert_row. destruct (t !! key r); simpl; by rewrite dom_insert_L.
Qed.

Lemma foldl_upsert_dom rs : ∀ t n,
  dom (foldl upsert_row (t, n) rs).1 = list_to_set (key <$> rs) ∪ dom t.
Proof.
  induction rs as [| r rs IH]; intros t n.
  - cbn [foldl fst]. by rewrite fmap_nil, list_to_set_nil, (left_id_L ∅ (∪)).
  - cbn [foldl]. destruct (upsert_row (t, n) r) as [t' n'] eqn:E.
    rewrite IH. change t' with (t', n').1. rewrite <- E, upsert_row_dom.
    rewrite fmap_cons, list_to_set_cons.
    rewrite (comm_L (∪) {[key r]} (list_to_set (key <$> rs))).
    by rewrite (assoc_L (∪)).
Qed.

(** After a write that returns, the table holds exactly the keys it held
    before and the keys of the records; under each submitted key the values
    are those of the last record with that key (an insert for a new key, an
    update for an old one), and rows that were stored before keep their
    [id]. *)
Theorem store_data_last_write_wins (fault : nat → bool) (db : Store)
    (df : list Row) (records : list IndicatorRow) :
  to_dict_records df = Some records →
  (_store_data fault db df).2 = Returned tt →
  dom (table (_store_data fault db df).1) =
    list_to_set (key <$> records) ∪ dom (table db) ∧
  (∀ rs1 r rs2, records = rs1 ++ r :: rs2 → key r ∉ key <$> rs2 →
     ∃ stored, table (_store_data fault db df).1 !! key r = Some stored ∧
               vals stored = values r ∧
               (∀ old, table db !! key r = Some old → id stored = id old)).
Proof.
  intros Hrec Hret.
  destruct (store_data_returned fault db df Hret) as (rs & Hrs & ->).
  rewrite Hrec in Hrs. injection Hrs as <-.
  split; [apply foldl_upsert_dom |].
  intros rs1 r rs2 -> Hlast.
  destruct (foldl_upsert_last rs1 r rs2 (table db) (id_seq db) Hlast)
    as (x & Hx & Hv).
  exists x. split; [done |]. split; [done |]. intros old Hold.
  destruct (foldl_upsert_id (rs1 ++ r :: rs2) (table db) (id_seq db) (key r)
              old Hold) as (x' & Hx' & Hid).
  rewrite Hx in Hx'. by injection Hx' as <-.
Qed.

Lemma store_data_last_write_wins_witness :
  let df := process_frame [mkRow (mkBar "X" 1 10 10 9 10 100) ∅] in
  let records := default [] (to_dict_records df) in
  let db := {| table := ∅; id_seq := 1 |} in
  dom (table (_store_data (λ _, false) db df).1) =
    list_to_set (key <$> records) ∪ dom (table db) ∧
  (∀ rs1 r rs2, records = rs1 ++ r :: rs2 → key r ∉ key <$> rs2 →
     ∃ stored, table (_store_data (λ _, false) db df).1 !! key r = Some stored ∧
               vals stored = values r ∧
               (∀ old, table db !! key r = Some old → id stored = id old)).
Proof.
  intros df records db.
  apply (store_data_last_write_wins (λ _, false) db df records).
  - vm_compute. reflexivity.
  - vm_compute. reflexivity.
Defined.

(** [process_and_store_stocks] always returns, never raises; it returns
    [False] on an empty fetch, and whenever it returns [False] the table of
    the store is the one before the call. *)
Theorem process_and_store_stocks_false_means_unchanged (fault : nat → bool)
    (db : Store) (raw_data : list Row) :
  ∃ b db',
    process_and_store_stocks fault db raw_data = (db', Returned b) ∧
    (raw_data = [] → b = false) ∧
    (b = false → table db' = table db).
Proof.
  unfold process_and_store_stocks.
  destruct raw_data as [| r raw]; [by eexists _, _ |].
  destruct (run_frame _ _) as [processed |]; [| by eexists _, _].
  pose proof (store_data_raised fault db processed) as Hr.
  destruct (_store_data fault db processed) as [db' [[] |]].
  - exists true, db'. by repeat split.
  - exists false, db'. split; [done |]. split; [done |]. intros _. by apply Hr.
Qed.

Lemma indicator_cell {A} name (out : list Row) (C : A → Cell) vals i row :
  column name out = Some <$> (C <$> vals) → out !! i = Some row →
  ∃ x, vals !! i = Some x ∧ ind row !! name = Some (C x).
Proof.
  intros Hcol Hrow. apply (f_equal (λ l, l !! i)) in Hcol.
  unfold column in Hcol. rewrite !list_lookup_fmap, Hrow in Hcol.
  destruct (vals !! i) as [x |]; [| done]. exists x. split; [done |].
  simpl in Hcol. by injection Hcol.
Qed.

(** A row of a frame that carries the indicator columns of a series has
    every column a record needs, with the values of the calculators. *)
Lemma indicator_columns_record (series out : list Row) (i : nat)
    (row : Row) :
  indicator_columns series out → out !! i = Some row →
  ∃ r, to_record row = Some r ∧
    key r = row_key row ∧
    open (values r) = Frame.open (bar row) ∧
    high (values r) = Frame.high (bar row) ∧
    low (values r) = Frame.low (bar row) ∧
    close (values r) = Frame.close (bar row) ∧
    volume (values r) = Frame.volume (bar row) ∧
    calculate_t_score series !! i = Some (t_score (values r)) ∧
    (Fin ∘ inject_Z) <$> calculate_f_score series !! i =
      Some (f_score (values r)) ∧
    calculate_sma (col Frame.close series) 10 !! i = Some (dma_10 (values r)) ∧
    calculate_sma (col Frame.close series) 21 !! i = Some (dma_21 (values r)) ∧
    calculate_sma (col Frame.close series) 50 !! i = Some (dma_50 (values r)) ∧
    calculate_sma (col Frame.close series) 100 !! i = Some (dma_100 (values r)) ∧
    calculate_ema (col Frame.close series) 10 !! i = Some (ema_10 (values r)) ∧
    calculate_ema (col Frame.close series) 21 !! i = Some (ema_21 (values r)) ∧
    calculate_ema (col Frame.close series) 50 !! i = Some (ema_50 (values r)) ∧
    calculate_ema (col Frame.close series) 100 !! i = Some (ema_100 (values r)) ∧
    calculate_52_week_high series !! i = Some (is_52_week_high (values r)) ∧
    calculate_52_week_low series !! i = Some (is_52_week_low (values r)) ∧
    calculate_all_time_high series !! i = Some (is_all_time_high (values r)) ∧
    calculate_all_time_low series !! i = Some (is_all_time_low (values r)).
Proof.
  intros (Ht & Hf & Hdma & Hema & H52h & H52l & Hath & Hatl) Hrow.
  assert (Hin : ∀ p, p ∈ [10; 21; 50; 100]%nat →
            p ∈ Config.DMA_PERIODS ∧ p ∈ Config.EMA_PERIODS) by done.
  pose proof (Hdma 10%nat ltac:(apply Hin; set_unfold; tauto)) as Hd10.
  pose proof (Hdma 21%nat ltac:(apply Hin; set_unfold; tauto)) as Hd21.
  pose proof (Hdma 50%nat ltac:(apply Hin; set_unfold; tauto)) as Hd50.
  pose proof (Hdma 100%nat ltac:(apply Hin; set_unfold; tauto)) as Hd100.
  pose proof (Hema 10%nat ltac:(apply Hin; set_unfold; tauto)) as He10.
  pose proof (Hema 21%nat ltac:(apply Hin; set_unfold; tauto)) as He21.
  pose proof (Hema 50%nat ltac:(apply Hin; set_unfold; tauto)) as He50.
  pose proof (Hema 100%nat ltac:(apply Hin; set_unfold; tauto)) as He100.
  change ("dma_" +:+ pretty 10%nat) with "dma_10" in Hd10.
  change ("dma_" +:+ pretty 21%nat) with "dma_21" in Hd21.
  change ("dma_" +:+ pretty 50%nat) with "dma_50" in Hd50.
  change ("dma_" +:+ pretty 100%nat) with "dma_100" in Hd100.
  change ("ema_" +:+ pretty 10%nat) with "ema_10" in He10.
  change ("ema_" +:+ pretty 21%nat) with "ema_21" in He21.
  change ("ema_" +:+ pretty 50%nat) with "ema_50" in He50.
  change ("ema_" +:+ pretty 100%nat) with "ema_100" in He100.
  destruct (indicator_cell _ _ _ _ i row Ht Hrow) as (x1 & Hx1 & Hc1).
  destruct (indicator_cell _ _ _ _ i row Hf Hrow) as (x2 & Hx2 & Hc2).
  destruct (indicator_cell _ _ _ _ i row Hd10 Hrow) as (x3 & Hx3 & Hc3).
  destruct (indicator_cell _ _ _ _ i row Hd21 Hrow) as (x4 & Hx4 & Hc4).
  destruct (indicator_cell _ _ _ _ i row Hd50 Hrow) as (x5 & Hx5 & Hc5).
  destruct (indicator_cell _ _ _ _ i row Hd100 Hrow) as (x6 & Hx6 & Hc6).
  destruct (indicator_cell _ _ _ _ i row He10 Hrow) as (x7 & Hx7 & Hc7).
  destruct (indicator_cell _ _ _ _ i row He21 Hrow) as (x8 & Hx8 & Hc8).
  destruct (indicator_cell _ _ _ _ i row He50 Hrow) as (x9 & Hx9 & Hc9).
  destruct (indicator_cell _ _ _ _ i row He100 Hrow) as (x10 & Hx10 & Hc10).
  destruct (indicator_cell _ _ _ _ i row H52h Hrow) as (x11 & Hx11 & Hc11).
  destruct (indicator_cell _ _ _ _ i row H52l Hrow) as (x12 & Hx12 & Hc12).
  destruct (indicator_cell _ _ _ _ i row Hath Hrow) as (x13 & Hx13 & Hc13).
  destruct (indicator_cell _ _ _ _ i row Hatl Hrow) as (x14 & Hx14 & Hc14).
  eexists. split.
  { unfold to_record.
    rewrite Hc1, Hc2, Hc3, Hc4, Hc5, Hc6, Hc7, Hc8, Hc9, Hc10, Hc11, Hc12,
      Hc13, Hc14. reflexivity. }
  cbn [key values open high low close volume t_score f_score dma_10 dma_21
       dma_50 dma_100 ema_10 ema_21 ema_50 ema_100 is_52_week_high
       is_52_week_low is_all_time_high is_all_time_low].
  rewrite Hx2. by repeat split.
Qed.

(** Every row that [add_all_indicators] computes from a series binds to the
    table: [to_dict('records')] finds all nineteen columns that [_store_data]
    names, the record has the key and the five bar columns of the row, and
    each of its fourteen indicator values is the value of the calculator of
    that name at that row ([f_score], an integer column, as a float). *)
Theorem processed_row_binds_to_table (series : list Row) (i : nat)
    (row : Row) :
  with_indicators series !! i = Some row →
  ∃ r, to_record row = Some r ∧
    key r = row_key row ∧
    open (values r) = Frame.open (bar row) ∧
    high (values r) = Frame.high (bar row) ∧
    low (values r) = Frame.low (bar row) ∧
    close (values r) = Frame.close (bar row) ∧
    volume (values r) = Frame.volume (bar row) ∧
    calculate_t_score series !! i = Some (t_score (values r)) ∧
    (Fin ∘ inject_Z) <$> calculate_f_score series !! i =
      Some (f_score (values r)) ∧
    calculate_sma (col Frame.close series) 10 !! i = Some (dma_10 (values r)) ∧
    calculate_sma (col Frame.close series) 21 !! i = Some (dma_21 (values r)) ∧
    calculate_sma (col Frame.close series) 50 !! i = Some (dma_50 (values r)) ∧
    calculate_sma (col Frame.close series) 100 !! i = Some (dma_100 (values r)) ∧
    calculate_ema (col Frame.close series) 10 !! i = Some (ema_10 (values r)) ∧
    calculate_ema (col Frame.close series) 21 !! i = Some (ema_21 (values r)) ∧
    calculate_ema (col Frame.close series) 50 !! i = Some (ema_50 (values r)) ∧
    calculate_ema (col Frame.close series) 100 !! i = Some (ema_100 (values r)) ∧
    calculate_52_week_high series !! i = Some (is_52_week_high (values r)) ∧
    calculate_52_week_low series !! i = Some (is_52_week_low (values r)) ∧
    calculate_all_time_high series !! i = Some (is_all_time_high (values r)) ∧
    calculate_all_time_low series !! i = Some (is_all_time_low (values r)).
Proof.
  apply indicator_columns_record, with_indicators_columns.
Qed.

Lemma processed_row_binds_to_table_witness :
  let series := [ mkRow (mkBar "X" 1 10 10 9 10 100) ∅;
                  mkRow (mkBar "X" 2 12 12 11 12 200) ∅ ] in
  ∃ row, with_indicators series !! 1%nat = Some row ∧
  ∃ r, to_record row = Some r ∧
    key r = row_key row ∧
    open (values r) = Frame.open (bar row) ∧
    high (values r) = Frame.high (bar row) ∧
    low (values r) = Frame.low (bar row) ∧
    close (values r) = Frame.close (bar row) ∧
    volume (values r) = Frame.volume (bar row) ∧
    calculate_t_score series !! 1%nat = Some (t_score (values r)) ∧
    (Fin ∘ inject_Z) <$> calculate_f_score series !! 1%nat =
      Some (f_score (values r)) ∧
    calculate_sma (col Frame.close series) 10 !! 1%nat = Some (dma_10 (values r)) ∧
    calculate_sma (col Frame.close series) 21 !! 1%nat = Some (dma_21 (values r)) ∧
    calculate_sma (col Frame.close series) 50 !! 1%nat = Some (dma_50 (values r)) ∧
    calculate_sma (col Frame.close series) 100 !! 1%nat = Some (dma_100 (values r)) ∧
    calculate_ema (col Frame.close series) 10 !! 1%nat = Some (ema_10 (values r)) ∧
    calculate_ema (col Frame.close series) 21 !! 1%nat = Some (ema_21 (values r)) ∧
    calculate_ema (col Frame.close series) 50 !! 1%nat = Some (ema_50 (values r)) ∧
    calculate_ema (col Frame.close series) 100 !! 1%nat = Some (ema_100 (values r)) ∧
    calculate_52_week_high series !! 1%nat = Some (is_52_week_high (values r)) ∧
    calculate_52_week_low series !! 1%nat = Some (is_52_week_low (values r)) ∧
    calculate_all_time_high series !! 1%nat = Some (is_all_time_high (values r)) ∧
    calculate_all_time_low series !! 1%nat = Some (is_all_time_low (values r)).
Proof.
  intros series. eexists. split; [vm_compute; reflexivity |].
  apply (processed_row_binds_to_table series 1%nat). vm_compute. reflexivity.
Defined.

End WriterFacts.

(** * The pipeline from the fetched frame to the table *)

Section Pipeline.
Import Database.

Lemma row_key_bars (d d' : list Row) :
  bar <$> d ≡ₚ bar <$> d' → row_key <$> d ≡ₚ row_key <$> d'.
Proof.
  intros H.
  assert (E : ∀ l : list Row,
            row_key <$> l = (λ b, (symbol b, date b)) <$> (bar <$> l)).
  { intros l. rewrite <- list_fmap_compose. done. }
  rewrite !E. by apply fmap_Permutation.
Qed.

Lemma with_indicators_to_record series :
  Forall (is_Some ∘ to_record) (with_indicators series).
Proof.
  apply Forall_lookup. intros i row Hrow.
  destruct (indicator_columns_record series _ i row
              (with_indicators_columns series) Hrow) as (r & Hr & _).
  by exists r.
Qed.

Lemma process_frame_to_record d :
  Forall (is_Some ∘ to_record) (process_frame d).
Proof.
  unfold process_frame.
  induction (symbols_of d) as [| s ss IH].
  - rewrite fmap_nil. apply Forall_nil_2.
  - rewrite fmap_cons.
    change (concat (?x :: ?l)) with (x ++ concat l).
    apply Forall_app. split; [| exact IH].
    unfold process_symbol. apply with_indicators_to_record.
Qed.

Lemma pipeline_stores (fault : nat → bool) (db : Store)
    (raw_data : list Row) :
  raw_data ≠ [] → NoDup (row_key <$> raw_data) → (∀ j, fault j = false) →
  ∃ db',
    process_and_store_stocks fault db raw_data = (db', Returned true) ∧
    dom (table db') = list_to_set (row_key <$> raw_data) ∪ dom (table db) ∧
    ∀ row, row ∈ raw_data →
      ∃ stored, table db' !! row_key row = Some stored ∧
        open (vals stored) = Frame.open (bar row) ∧
        high (vals stored) = Frame.high (bar row) ∧
        low (vals stored) = Frame.low (bar row) ∧
        close (vals stored) = Frame.close (bar row) ∧
        volume (vals stored) = Frame.volume (bar row).
Proof.
  intros Hne Hnd Hf.
  pose proof (run_frame_process [raw_data] 0%nat raw_data eq_refl) as Hrun.
  rewrite decide_False in Hrun by exact Hne.
  unfold process_and_store_stocks.
  destruct raw_data as [| r0 raw] eqn:Eraw; [done |]. rewrite <- Eraw in *.
  rewrite Hrun. clear Hrun.
  pose proof (process_frame_bars_perm raw_data) as Hperm.
  pose proof (process_frame_to_record raw_data) as Hrec.
  revert Hperm Hrec. generalize (process_frame raw_data) as processed.
  intros processed Hperm Hrec.
  apply mapM_is_Some in Hrec as [records Hrecords].
  pose proof (to_dict_records_keys processed records Hrecords) as Hkeys.
  pose proof (row_key_bars _ _ Hperm) as Hkperm.
  assert (Hndr : NoDup (key <$> records)).
  { rewrite Hkeys, Hkperm. exact Hnd. }
  pose proof (store_data_ok fault db processed records Hrecords Hndr Hf) as Hok.
  destruct (store_data_returned fault db processed Hok)
    as (records' & Hrecords' & Htable).
  unfold to_dict_records in Hrecords'.
  assert (records' = records) as -> by congruence.
  destruct (_store_data fault db processed) as [db' o].
  cbn [fst snd] in Hok, Htable. subst o.
  exists db'. split; [done |]. split.
  - rewrite Htable, foldl_upsert_dom, Hkeys. f_equal.
    by apply list_to_set_perm_L.
  - intros row Hrow.
    assert (Hb : bar row ∈ bar <$> processed).
    { rewrite Hperm. by apply list_elem_of_fmap_2. }
    apply list_elem_of_fmap in Hb as (row' & Hbar & Hrow').
    apply list_elem_of_lookup in Hrow' as [i Hi].
    apply mapM_Some_1 in Hrecords.
    destruct (Forall2_lookup_l _ _ _ _ _ Hrecords Hi) as (r & Hri & Hr).
    apply to_record_bar in Hr as (Hk & Ho & Hh & Hl & Hc & Hv).
    assert (Hkey : key r = row_key row).
    { rewrite Hk. unfold row_key. by rewrite <- Hbar. }
    assert (Hin : r ∈ records) by (apply list_elem_of_lookup; by exists i).
    apply list_elem_of_split in Hin as (rs1 & rs2 & ->).
    rewrite fmap_app, fmap_cons in Hndr.
    apply NoDup_app in Hndr as (_ & _ & Hndr).
    apply NoDup_cons in Hndr as [Hnotin _].
    destruct (foldl_upsert_last rs1 r rs2 (table db) (id_seq db) Hnotin)
      as (x & Hx & Hvals).
    exists x. rewrite Htable, <- Hkey. split; [exact Hx |].
    rewrite Hvals, Hbar. by repeat split.
Qed.

(** Without a fault of the store, a non-empty fetched frame with one row per
    (symbol, date) is processed and stored: the call returns [True], the
    table then holds exactly the keys it held and the keys of the fetched
    rows, and under the key of each fetched row the five bar columns of that
    row. *)
Theorem pipeline_stores_every_bar (fault : nat → bool) (db : Store)
    (raw_data : list Row) :
  raw_data ≠ [] → NoDup (row_key <$> raw_data) → (∀ j, fault j = false) →
  ∃ db',
    process_and_store_stocks fault db raw_data = (db', Returned true) ∧
    dom (table db') = list_to_set (row_key <$> raw_data) ∪ dom (table db) ∧
    ∀ row, row ∈ raw_data →
      ∃ stored, table db' !! row_key row = Some stored ∧
        open (vals stored) = Frame.open (bar row) ∧
        high (vals stored) = Frame.high (bar row) ∧
        low (vals stored) = Frame.low (bar row) ∧
        close (vals stored) = Frame.close (bar row) ∧
        volume (vals stored) = Frame.volume (bar row).
Proof. apply pipeline_stores. Qed.

Lemma pipeline_stores_every_bar_witness :
  let raw_data := [ mkRow (mkBar "X" 2 12 12 11 12 200) ∅;
                    mkRow (mkBar "Y" 1 20 21 19 20 300) ∅;
                    mkRow (mkBar "X" 1 10 10 9 10 100) ∅ ] in
  let db := {| table := ∅; id_seq := 1 |} in
  ∃ db',
    process_and_store_stocks (λ _, false) db raw_data = (db', Returned true) ∧
    dom (table db') = list_to_set (row_key <$> raw_data) ∪ dom (table db) ∧
    ∀ row, row ∈ raw_data →
      ∃ stored, table db' !! row_key row = Some stored ∧
        open (vals stored) = Frame.open (bar row) ∧
        high (vals stored) = Frame.high (bar row) ∧
        low (vals stored) = Frame.low (bar row) ∧
        close (vals stored) = Frame.close (bar row) ∧
        volume (vals stored) = Frame.volume (bar row).
Proof.
  intros raw_data db.
  apply (pipeline_stores_every_bar (λ _, false) db raw_data).
  - discriminate.
  - vm_compute. repeat constructor; set_unfold; intuition congruence.
  - reflexivity.
Defined.

End Pipeline.

(** * The fetcher *)

Section Fetcher.

Lemma fetch_stock_data_Some gh s d :
  fetch_stock_data gh s = Some d ↔
  ∃ data, gh s = FeedFrame data ∧ data ≠ [] ∧ d = fetched_row s <$> data.
Proof.
  unfold fetch_stock_data. split.
  - destruct (gh s) as [| | [| r data]]; try discriminate.
    intros [= <-]. by exists (r :: data).
  - intros (data & -> & Hne & ->). by destruct data.
Qed.

Lemma fetch_stock_data_None gh s :
  fetch_stock_data gh s = None ↔
  gh s = FeedRaises ∨ gh s = FeedNone ∨ gh s = FeedFrame [].
Proof.
  unfold fetch_stock_data. split.
  - destruct (gh s) as [| | [| r data]]; try discriminate; tauto.
  - by intros [-> | [-> | ->]].
Qed.

Lemma fetch_multiple_stocks_concat gh symbols :
  fetch_multiple_stocks gh symbols = concat (all_data gh 0 symbols).
Proof. unfold fetch_multiple_stocks. by destruct (all_data gh 0 symbols). Qed.

Lemma all_data_cons gh i s symbols :
  concat (all_data gh i (s :: symbols)) =
    default [] (fetch_stock_data (gh i) s)
      ++ concat (all_data gh (S i) symbols).
Proof.
  cbn [all_data]. by destruct (fetch_stock_data (gh i) s).
Qed.

Lemma fetched_frame_elem gh s row :
  row ∈ default [] (fetch_stock_data gh s) ↔
  ∃ data r, gh s = FeedFrame data ∧ r ∈ data ∧ row = fetched_row s r.
Proof.
  split.
  - destruct (fetch_stock_data gh s) as [d |] eqn:E.
    + apply fetch_stock_data_Some in E as (data & Hg & _ & ->). simpl.
      intros (r & -> & Hr)%list_elem_of_fmap. by exists data, r.
    + simpl. by intros ?%elem_of_nil.
  - intros (data & r & Hg & Hr & ->).
    assert (E : fetch_stock_data gh s = Some (fetched_row s <$> data)).
    { apply fetch_stock_data_Some. exists data. split; [done |].
      split; [| done]. intros ->. by apply elem_of_nil in Hr. }
    rewrite E. simpl. by apply list_elem_of_fmap_2.
Qed.

Lemma all_data_elem gh symbols : ∀ i row,
  row ∈ concat (all_data gh i symbols) ↔
  ∃ j s data r, symbols !! j = Some s ∧ gh (i + j)%nat s = FeedFrame data ∧
    r ∈ data ∧ row = fetched_row s r.
Proof.
  induction symbols as [| s symbols IH]; intros i row.
  - split; [by intros ?%elem_of_nil |]. by intros (j & ? & ? & ? & ? & _).
  - rewrite all_data_cons, elem_of_app, fetched_frame_elem, IH. split.
    + intros [(data & r & Hg & Hr & ->) | (j & t & data & r & Hj & Hg & Hr & ->)].
      * exists 0%nat, s, data, r. by rewrite Nat.add_0_r.
      * exists (S j), t, data, r. by rewrite Nat.add_succ_r.
    + intros ([| j] & t & data & r & Hj & Hg & Hr & ->).
      * injection Hj as <-. rewrite Nat.add_0_r in Hg. left. by exists data, r.
      * right. exists j, t, data, r. by rewrite Nat.add_succ_r in Hg.
Qed.

Lemma all_data_symbols gh symbols i :
  Forall (λ row, symbol (bar row) ∈ symbols) (concat (all_data gh i symbols)).
Proof.
  apply Forall_forall. intros row (j & s & data & r & Hj & _ & _ & ->)%all_data_elem.
  apply list_elem_of_lookup. by exists j.
Qed.

Lemma select_symbol_none s (d : list Row) :
  Forall (λ row, symbol (bar row) ≠ s) d → select_symbol s d = [].
Proof.
  unfold select_symbol. induction 1 as [| r d Hr _ IH]; [done |].
  by rewrite filter_cons_False.
Qed.

Lemma select_symbol_all s (d : list Row) :
  Forall (λ row, symbol (bar row) = s) d → select_symbol s d = d.
Proof.
  unfold select_symbol. induction 1 as [| r d Hr _ IH]; [done |].
  rewrite filter_cons_True by done. by rewrite IH.
Qed.

Lemma fetched_frame_symbol gh s :
  Forall (λ row, symbol (bar row) = s) (default [] (fetch_stock_data gh s)).
Proof.
  apply Forall_forall. by intros row (data & r & _ & _ & ->)%fetched_frame_elem.
Qed.

Lemma all_data_select_absent gh symbols i s :
  s ∉ symbols → select_symbol s (concat (all_data gh i symbols)) = [].
Proof.
  intros Hs. apply select_symbol_none.
  eapply Forall_impl; [apply all_data_symbols |].
  intros row Hrow. simpl in Hrow. congruence.
Qed.

Lemma all_data_select gh symbols : ∀ i j s,
  NoDup symbols → symbols !! j = Some s →
  select_symbol s (concat (all_data gh i symbols)) =
    default [] (fetch_stock_data (gh (i + j)%nat) s).
Proof.
  induction symbols as [| t symbols IH]; intros i j s Hnd Hj; [done |].
  apply NoDup_cons in Hnd as [Ht Hnd].
  rewrite all_data_cons. unfold select_symbol. rewrite filter_app.
  fold (select_symbol s (default [] (fetch_stock_data (gh i) t))).
  fold (select_symbol s (concat (all_data gh (S i) symbols))).
  destruct j as [| j].
  - injection Hj as ->. rewrite Nat.add_0_r.
    rewrite all_data_select_absent by done. rewrite app_nil_r.
    apply select_symbol_all, fetched_frame_symbol.
  - cbn [lookup list_lookup] in Hj.
    assert (Hne : t ≠ s).
    { intros ->. apply Ht. apply list_elem_of_lookup. by exists j. }
    rewrite (select_symbol_none s (default [] (fetch_stock_data (gh i) t))).
    + rewrite app_nil_l, Nat.add_succ_r. exact (IH (S i) j s Hnd Hj).
    + eapply Forall_impl; [apply fetched_frame_symbol |].
      intros row Hrow. simpl in Hrow. congruence.
Qed.

Lemma fetched_frame_keys gh s :
  (∀ data, gh s = FeedFrame data → NoDup (day ∘ datetime <$> data)) →
  NoDup (row_key <$> default [] (fetch_stock_data gh s)).
Proof.
  intros Hd. destruct (fetch_stock_data gh s) as [d |] eqn:E;
    [| apply NoDup_nil_2].
  apply fetch_stock_data_Some in E as (data & Hg & _ & ->). simpl.
  specialize (Hd data Hg).
  assert (Ek : row_key <$> (fetched_row s <$> data) =
               pair s <$> (day ∘ datetime <$> data)).
  { rewrite <- !list_fmap_compose. done. }
  rewrite Ek. apply NoDup_fmap_2; [| done]. by intros x y [= ->].
Qed.

Lemma all_data_keys_NoDup gh symbols : ∀ i,
  NoDup symbols →
  (∀ j s data, symbols !! j = Some s → gh (i + j)%nat s = FeedFrame data →
     NoDup (day ∘ datetime <$> data)) →
  NoDup (row_key <$> concat (all_data gh i symbols)).
Proof.
  induction symbols as [| s symbols IH]; intros i Hnd Hdays;
    [apply NoDup_nil_2 |].
  apply NoDup_cons in Hnd as [Hs Hnd].
  rewrite all_data_cons, fmap_app. apply NoDup_app. split; [| split].
  - apply fetched_frame_keys. intros data Hg.
    apply (Hdays 0%nat s data); [done | by rewrite Nat.add_0_r].
  - intros k (row & -> & Hrow)%list_elem_of_fmap
             (row' & Hk & Hrow')%list_elem_of_fmap.
    pose proof (fetched_frame_symbol (gh i) s) as H1.
    pose proof (all_data_symbols gh symbols (S i)) as H2.
    rewrite Forall_forall in H1, H2.
    specialize (H1 row Hrow). specialize (H2 row' Hrow'). simpl in H2.
    apply Hs. unfold row_key in Hk. congruence.
  - apply IH; [done |]. intros j t data Hj Hg.
    apply (Hdays (S j) t data); [done | by rewrite Nat.add_succ_r].
Qed.

Lemma all_data_nil gh symbols : ∀ i,
  concat (all_data gh i symbols) = [] ↔
  ∀ j s, symbols !! j = Some s →
    gh (i + j)%nat s = FeedRaises ∨ gh (i + j)%nat s = FeedNone ∨
    gh (i + j)%nat s = FeedFrame [].
Proof.
  induction symbols as [| s symbols IH]; intros i; [done |].
  rewrite all_data_cons. split.
  - intros [H1 H2]%app_eq_nil [| j] t Hj.
    + injection Hj as <-. rewrite Nat.add_0_r.
      apply fetch_stock_data_None.
      destruct (fetch_stock_data (gh i) s) as [d |] eqn:E; [| done].
      apply fetch_stock_data_Some in E as (data & _ & Hne & ->).
      simpl in H1. by destruct data.
    + rewrite Nat.add_succ_r. by apply (proj1 (IH (S i)) H2).
  - intros H.
    assert (E : fetch_stock_data (gh i) s = None).
    { apply fetch_stock_data_None.
      specialize (H 0%nat s eq_refl). by rewrite Nat.add_0_r in H. }
    rewrite E. simpl. apply IH. intros j t Hj.
    specialize (H (S j) t Hj). by rewrite Nat.add_succ_r in H.
Qed.

(** [fetch_multiple_stocks] returns the empty frame exactly when every call
    of the feed raised, returned [None] or returned an empty frame. *)
Theorem fetch_multiple_stocks_empty_iff (get_hist : nat → string → feed)
    (symbols : list string) :
  fetch_multiple_stocks get_hist symbols = [] ↔
  ∀ j s, symbols !! j = Some s →
    get_hist j s = FeedRaises ∨ get_hist j s = FeedNone ∨
    get_hist j s = FeedFrame [].
Proof.
  rewrite fetch_multiple_stocks_concat. apply (all_data_nil get_hist symbols 0).
Qed.

(** The rows of the combined frame are the rows the feed delivered, each
    once per delivery: the row of the feed with its [datetime] cut to the
    day, and with the symbol that was asked for in place of the symbol the
    feed wrote; no other column.  Its length is the number of rows
    delivered. *)
Theorem fetch_multiple_stocks_rows (get_hist : nat → string → feed)
    (symbols : list string) (row : Row) :
  row ∈ fetch_multiple_stocks get_hist symbols ↔
  ∃ j s data r, symbols !! j = Some s ∧ get_hist j s = FeedFrame data ∧
    r ∈ data ∧
    row = mkRow (mkBar s (day (datetime r)) (feed_open r) (feed_high r)
                   (feed_low r) (feed_close r) (feed_volume r)) ∅.
Proof.
  rewrite fetch_multiple_stocks_concat.
  apply (all_data_elem get_hist symbols 0).
Qed.

(** When no symbol is asked for twice, the rows of a symbol in the combined
    frame are the rows fetched for it, in the order of the feed; a symbol
    that was not asked for has no rows. *)
Theorem fetch_multiple_stocks_groups (get_hist : nat → string → feed)
    (symbols : list string) :
  NoDup symbols →
  (∀ j s, symbols !! j = Some s →
     select_symbol s (fetch_multiple_stocks get_hist symbols) =
       default [] (fetch_stock_data (get_hist j) s)) ∧
  (∀ s, s ∉ symbols →
     select_symbol s (fetch_multiple_stocks get_hist symbols) = []).
Proof.
  intros Hnd. rewrite fetch_multiple_stocks_concat. split.
  - intros j s Hj. by apply (all_data_select get_hist symbols 0).
  - intros s Hs. by apply all_data_select_absent.
Qed.

Lemma fetch_multiple_stocks_groups_witness :
  let get_hist := λ (j : nat) (s : string),
    if decide (s = "X") then
      FeedFrame [ mkFeedRow (mkTimestamp 1 0) "NSE:X" 10 10 9 10 100;
                  mkFeedRow (mkTimestamp 2 0) "NSE:X" 12 12 11 12 200 ]
    else if decide (s = "Y") then FeedRaises
    else FeedFrame [ mkFeedRow (mkTimestamp 1 0) "NSE:Z" 20 21 19 20 300 ] in
  let symbols := ["X"; "Y"; "Z"] in
  (∀ j s, symbols !! j = Some s →
     select_symbol s (fetch_multiple_stocks get_hist symbols) =
       default [] (fetch_stock_data (get_hist j) s)) ∧
  (∀ s, s ∉ symbols →
     select_symbol s (fetch_multiple_stocks get_hist symbols) = []).
Proof.
  intros get_hist symbols.
  apply (fetch_multiple_stocks_groups get_hist symbols).
  vm_compute. repeat constructor; set_unfold; intuition congruence.
Defined.

(** When no symbol is asked for twice and no delivered frame has two rows on
    one day, no two rows of the combined frame have the same symbol and
    date: the frame can be written in one statement per batch. *)
Theorem fetch_multiple_stocks_keys_distinct (get_hist : nat → string → feed)
    (symbols : list string) :
  NoDup symbols →
  (∀ j s data, symbols !! j = Some s → get_hist j s = FeedFrame data →
     NoDup (day ∘ datetime <$> data)) →
  NoDup (row_key <$> fetch_multiple_stocks get_hist symbols).
Proof.
  intros Hnd Hdays. rewrite fetch_multiple_stocks_concat.
  by apply (all_data_keys_NoDup get_hist symbols 0).
Qed.

Lemma fetch_multiple_stocks_keys_distinct_witness :
  let get_hist := λ (j : nat) (s : string),
    FeedFrame [ mkFeedRow (mkTimestamp 1 0) s 10 10 9 10 100;
                mkFeedRow (mkTimestamp 2 0) s 12 12 11 12 200 ] in
  NoDup (row_key <$> fetch_multiple_stocks get_hist ["X"; "Y"]).
Proof.
  intros get_hist.
  apply (fetch_multiple_stocks_keys_distinct get_hist ["X"; "Y"]).
  - vm_compute. repeat constructor; set_unfold; intuition congruence.
  - intros j s data _ [= <-]. vm_compute.
    repeat constructor; set_unfold; intuition congruence.
Defined.

End Fetcher.

(** * From the symbols to the table *)

Section EndToEnd.
Import Database.

(** [process_and_store_stocks(symbols)] as a whole.  When no symbol is asked
    for twice, no delivered frame has two rows on one day, the feed delivers
    at least one row and the store does not fail, the call returns [True]
    and every row the feed delivered is in the table, under the symbol asked
    for and the day of its [datetime], with its five price and volume
    columns. *)
Theorem fetched_rows_are_stored (get_hist : nat → string → feed)
    (fault : nat → bool) (db : Store) (symbols : list string) :
  NoDup symbols →
  (∀ j s data, symbols !! j = Some s → get_hist j s = FeedFrame data →
     NoDup (day ∘ datetime <$> data)) →
  (∃ j s data r, symbols !! j = Some s ∧ get_hist j s = FeedFrame data ∧
     r ∈ data) →
  (∀ j, fault j = false) →
  ∃ db',
    process_and_store_stocks fault db
      (fetch_multiple_stocks get_hist symbols) = (db', Returned true) ∧
    ∀ j s data r, symbols !! j = Some s → get_hist j s = FeedFrame data →
      r ∈ data →
      ∃ stored, table db' !! (s, day (datetime r)) = Some stored ∧
        open (vals stored) = feed_open r ∧
        high (vals stored) = feed_high r ∧
        low (vals stored) = feed_low r ∧
        close (vals stored) = feed_close r ∧
        volume (vals stored) = feed_volume r.
Proof.
  intros Hnd Hdays (j0 & s0 & data0 & r0 & Hj0 & Hg0 & Hr0) Hf.
  pose proof (all_data_elem get_hist symbols 0) as Helem.
  pose proof (all_data_keys_NoDup get_hist symbols 0 Hnd Hdays) as Hkeys.
  rewrite <- fetch_multiple_stocks_concat in Hkeys.
  setoid_rewrite <- fetch_multiple_stocks_concat in Helem.
  revert Helem Hkeys.
  generalize (fetch_multiple_stocks get_hist symbols) as raw_data.
  intros raw_data Helem Hkeys.
  assert (Hne : raw_data ≠ []).
  { intros ->. eapply elem_of_nil, Helem. by exists j0, s0, data0, r0. }
  destruct (pipeline_stores fault db raw_data Hne Hkeys Hf)
    as (db' & Hrun & _ & Hrows).
  exists db'. split; [exact Hrun |].
  intros j s data r Hj Hg Hr.
  apply (Hrows (fetched_row s r)), Helem. by exists j, s, data, r.
Qed.

Lemma fetched_rows_are_stored_witness :
  let get_hist := λ (j : nat) (s : string),
    FeedFrame [ mkFeedRow (mkTimestamp 1 0) s 10 10 9 10 100;
                mkFeedRow (mkTimestamp 2 0) s 12 12 11 12 200 ] in
  let symbols := ["X"; "Y"] in
  let db := {| table := ∅; id_seq := 1 |} in
  ∃ db',
    process_and_store_stocks (λ _, false) db
      (fetch_multiple_stocks get_hist symbols) = (db', Returned true) ∧
    ∀ j s data r, symbols !! j = Some s → get_hist j s = FeedFrame data →
      r ∈ data →
      ∃ stored, table db' !! (s, day (datetime r)) = Some stored ∧
        open (vals stored) = feed_open r ∧
        high (vals stored) = feed_high r ∧
        low (vals stored) = feed_low r ∧
        close (vals stored) = feed_close r ∧
        volume (vals stored) = feed_volume r.
Proof.
  intros get_hist symbols db.
  apply (fetched_rows_are_stored get_hist (λ _, false) db symbols).
  - vm_compute. repeat constructor; set_unfold; intuition congruence.
  - intros j s data _ [= <-]. vm_compute.
    repeat constructor; set_unfold; intuition congruence.
  - exists 0%nat, "X". eexists _, _. split; [reflexivity |].
    split; [reflexivity |]. apply list_elem_of_here.
  - reflexivity.
Defined.

End EndToEnd.

(** * The statistics of the table *)

Section StatisticsFacts.
Import Database.

Lemma foldr_min_spec (l : list Z) : ∀ x,
  foldr Z.min x l ∈ x :: l ∧ ∀ y, y ∈ x :: l → (foldr Z.min x l ≤ y)%Z.
Proof.
  induction l as [| a l IH]; intros x.
  - cbn [foldr]. split; [apply list_elem_of_here |].
    intros y ->%list_elem_of_singleton. lia.
  - cbn [foldr]. destruct (IH x) as [Hin Hle]. split.
    + destruct (Z.min_spec a (foldr Z.min x l)) as [[_ ->] | [_ ->]].
      * apply list_elem_of_further, list_elem_of_here.
      * apply elem_of_cons in Hin as [-> | Hin];
          [apply list_elem_of_here |].
        by apply list_elem_of_further, list_elem_of_further.
    + intros y Hy.
      assert (Hy' : y = a ∨ y ∈ x :: l).
      { apply elem_of_cons in Hy as [-> | Hy];
          [right; apply list_elem_of_here |].
        apply elem_of_cons in Hy as [-> | Hy]; [by left |].
        right. by apply list_elem_of_further. }
      destruct Hy' as [-> | Hy']; [lia |]. specialize (Hle y Hy'). lia.
Qed.

Lemma foldr_max_spec (l : list Z) : ∀ x,
  foldr Z.max x l ∈ x :: l ∧ ∀ y, y ∈ x :: l → (y ≤ foldr Z.max x l)%Z.
Proof.
  induction l as [| a l IH]; intros x.
  - cbn [foldr]. split; [apply list_elem_of_here |].
    intros y ->%list_elem_of_singleton. lia.
  - cbn [foldr]. destruct (IH x) as [Hin Hle]. split.
    + destruct (Z.max_spec a (foldr Z.max x l)) as [[_ ->] | [_ ->]].
      * apply elem_of_cons in Hin as [-> | Hin];
          [apply list_elem_of_here |].
        by apply list_elem_of_further, list_elem_of_further.
      * apply list_elem_of_further, list_elem_of_here.
    + intros y Hy.
      assert (Hy' : y = a ∨ y ∈ x :: l).
      { apply elem_of_cons in Hy as [-> | Hy];
          [right; apply list_elem_of_here |].
        apply elem_of_cons in Hy as [-> | Hy]; [by left |].
        right. by apply list_elem_of_further. }
      destruct Hy' as [-> | Hy']; [lia |]. specialize (Hle y Hy'). lia.
Qed.

Lemma func_min_spec (l : list Z) x :
  x ∈ l → ∃ m, func_min l = Some m ∧ m ∈ l ∧ ∀ y, y ∈ l → (m ≤ y)%Z.
Proof.
  destruct l as [| a l]; [by intros ?%elem_of_nil |]. intros _.
  exists (foldr Z.min a l). split; [done |]. apply foldr_min_spec.
Qed.

Lemma func_max_spec (l : list Z) x :
  x ∈ l → ∃ m, func_max l = Some m ∧ m ∈ l ∧ ∀ y, y ∈ l → (y ≤ m)%Z.
Proof.
  destruct l as [| a l]; [by intros ?%elem_of_nil |]. intros _.
  exists (foldr Z.max a l). split; [done |]. apply foldr_max_spec.
Qed.

Lemma func_min_Some (l : list Z) m :
  func_min l = Some m → m ∈ l ∧ ∀ y, y ∈ l → (m ≤ y)%Z.
Proof.
  destruct l as [| a l]; [done |]. intros [= <-]. apply foldr_min_spec.
Qed.

Lemma func_max_Some (l : list Z) m :
  func_max l = Some m → m ∈ l ∧ ∀ y, y ∈ l → (y ≤ m)%Z.
Proof.
  destruct l as [| a l]; [done |]. intros [= <-]. apply foldr_max_spec.
Qed.

Lemma stored_keys (t : gmap (string * Z) StockData) k :
  k ∈ elements (dom t) ↔ is_Some (t !! k).
Proof. by rewrite elem_of_elements, elem_of_dom. Qed.

Lemma stored_dates (t : gmap (string * Z) StockData) d :
  d ∈ snd <$> elements (dom t) ↔ ∃ s, is_Some (t !! (s, d)).
Proof.
  rewrite list_elem_of_fmap. split.
  - intros ([s d'] & -> & Hk%stored_keys). by exists s.
  - intros (s & Hs). exists (s, d). split; [done |]. by apply stored_keys.
Qed.

Lemma stored_symbols (t : gmap (string * Z) StockData) s :
  s ∈ (list_to_set (fst <$> elements (dom t)) : gset string) ↔
  ∃ d, is_Some (t !! (s, d)).
Proof.
  rewrite elem_of_list_to_set, list_elem_of_fmap. split.
  - intros ([s' d] & -> & Hk%stored_keys). by exists d.
  - intros (d & Hd). exists (s, d). split; [done |]. by apply stored_keys.
Qed.

Lemma store_data_dom fault db df :
  dom (table db) ⊆ dom (table (_store_data fault db df).1).
Proof.
  destruct ((_store_data fault db df).2) as [[] |] eqn:E.
  - destruct (store_data_returned fault db df E) as (rs & _ & ->).
    rewrite foldl_upsert_dom. apply union_subseteq_r.
  - by rewrite store_data_raised.
Qed.

(** The statistics see every stored row: its symbol is among the symbols,
    the date range is not [None] and holds its date, the count is not zero;
    and the two ends of the range are dates of stored rows. *)
Theorem get_data_stats_covers_every_row (db : Store) (s : string) (d : Z)
    (x : StockData) :
  table db !! (s, d) = Some x →
  (0 < total_records (get_data_stats db))%nat ∧
  s ∈ symbols (get_data_stats db) ∧
  ∃ lo hi, date_range (get_data_stats db) = (Some lo, Some hi) ∧
    (lo ≤ d ≤ hi)%Z ∧
    (∃ s1, is_Some (table db !! (s1, lo))) ∧
    (∃ s2, is_Some (table db !! (s2, hi))).
Proof.
  intros Hx. unfold get_data_stats.
  cbn [total_records symbols date_range].
  assert (Hd : d ∈ snd <$> elements (dom (table db))).
  { apply stored_dates. by exists s, x. }
  split; [| split].
  - destruct (size (table db)) eqn:E; [| lia].
    apply map_size_empty_iff in E. rewrite E in Hx.
    by rewrite lookup_empty in Hx.
  - apply stored_symbols. by exists d, x.
  - destruct (func_min_spec _ d Hd) as (lo & -> & Hlo & Hmin).
    destruct (func_max_spec _ d Hd) as (hi & -> & Hhi & Hmax).
    exists lo, hi. split; [done |]. split; [| split].
    + split; [by apply Hmin | by apply Hmax].
    + by apply stored_dates.
    + by apply stored_dates.
Qed.

Lemma get_data_stats_covers_every_row_witness :
  let x := {| id := 1;
              vals := mkValues 10 10 9 10 100 NaN NaN NaN NaN NaN NaN
                        NaN NaN NaN NaN true true true true |} in
  let db := {| table := {[ ("X", 3%Z) := x; ("Y", 5%Z) := x ]};
               id_seq := 3 |} in
  (0 < total_records (get_data_stats db))%nat ∧
  "X" ∈ symbols (get_data_stats db) ∧
  ∃ lo hi, date_range (get_data_stats db) = (Some lo, Some hi) ∧
    (lo ≤ 3 ≤ hi)%Z ∧
    (∃ s1, is_Some (table db !! (s1, lo))) ∧
    (∃ s2, is_Some (table db !! (s2, hi))).
Proof.
  intros x db. apply (get_data_stats_covers_every_row db "X" 3 x).
  vm_compute. reflexivity.
Defined.

(** On an empty table, and only there, the count is zero, there is no
    symbol, and the date range is [(None, None)]. *)
Theorem get_data_stats_empty_iff (db : Store) :
  (total_records (get_data_stats db) = 0%nat ↔ table db = ∅) ∧
  (symbols (get_data_stats db) = ∅ ↔ table db = ∅) ∧
  (date_range (get_data_stats db) = (None, None) ↔ table db = ∅) ∧
  (fst (date_range (get_data_stats db)) = None ↔
   snd (date_range (get_data_stats db)) = None).
Proof.
  unfold get_data_stats. cbn [total_records symbols date_range fst snd].
  assert (Hnil : elements (dom (table db)) = [] ↔ table db = ∅).
  { rewrite elements_empty_iff. apply dom_empty_iff. }
  split; [apply map_size_empty_iff |]. split; [| split].
  - rewrite <- Hnil. split.
    + intros H. destruct (elements (dom (table db))) as [| k ks]; [done |].
      exfalso. apply (not_elem_of_empty (C := gset string) (fst k)).
      rewrite <- H. apply elem_of_list_to_set. rewrite fmap_cons.
      apply list_elem_of_here.
    + by intros ->.
  - rewrite <- Hnil.
    destruct (elements (dom (table db))) as [| k ks]; [done |].
    rewrite fmap_cons. cbn [func_min func_max]. split; discriminate.
  - destruct (elements (dom (table db))) as [| k ks]; [done |].
    rewrite fmap_cons. cbn [func_min func_max]. split; discriminate.
Qed.

(** The statistics never shrink across a write, whatever its outcome: the
    count does not go down, no symbol is lost, and the date range only
    widens. *)
Theorem get_data_stats_monotone (fault : nat → bool) (db : Store)
    (df : list Row) :
  let before := get_data_stats db in
  let after := get_data_stats (_store_data fault db df).1 in
  (total_records before ≤ total_records after)%nat ∧
  symbols before ⊆ symbols after ∧
  ∀ lo hi, date_range before = (Some lo, Some hi) →
    ∃ lo' hi', date_range after = (Some lo', Some hi') ∧
      (lo' ≤ lo)%Z ∧ (hi ≤ hi')%Z.
Proof.
  intros before after. subst before after.
  pose proof (store_data_dom fault db df) as Hdom.
  revert Hdom. generalize ((_store_data fault db df).1) as db'.
  intros db' Hdom. unfold get_data_stats.
  cbn [total_records symbols date_range].
  assert (Hkeys : ∀ k, is_Some (table db !! k) → is_Some (table db' !! k)).
  { intros k Hk. apply elem_of_dom, Hdom, elem_of_dom, Hk. }
  split; [| split].
  - rewrite <- !size_dom. by apply subseteq_size.
  - intros s (d & Hd)%stored_symbols. apply stored_symbols.
    exists d. by apply Hkeys.
  - intros lo hi [= Hlo Hhi].
    apply func_min_Some in Hlo as [Hlo _].
    apply func_max_Some in Hhi as [Hhi _].
    assert (Hlo' : lo ∈ snd <$> elements (dom (table db'))).
    { apply stored_dates. apply stored_dates in Hlo as (s & Hs).
      exists s. by apply Hkeys. }
    assert (Hhi' : hi ∈ snd <$> elements (dom (table db'))).
    { apply stored_dates. apply stored_dates in Hhi as (s & Hs).
      exists s. by apply Hkeys. }
    destruct (func_min_spec _ lo Hlo') as (lo' & -> & _ & Hmin).
    destruct (func_max_spec _ hi Hhi') as (hi' & -> & _ & Hmax).
    exists lo', hi'. split; [done |].
    split; [by apply Hmin | by apply Hmax].
Qed.

(** After a first run into an empty table (no fault of the store, one
    fetched row per symbol and date), the count is the number of fetched
    rows and the symbols are the symbols of the fetched frame. *)
Theorem get_data_stats_after_first_run (fault : nat → bool) (db : Store)
    (raw_data : list Row) :
  table db = ∅ →
  raw_data ≠ [] → NoDup (row_key <$> raw_data) → (∀ j, fault j = false) →
  ∃ db',
    process_and_store_stocks fault db raw_data = (db', Returned true) ∧
    total_records (get_data_stats db') = length raw_data ∧
    symbols (get_data_stats db') = list_to_set (symbols_of raw_data).
Proof.
  intros Hempty Hne Hnd Hf.
  destruct (pipeline_stores fault db raw_data Hne Hnd Hf)
    as (db' & Hrun & Hdom & _).
  exists db'. split; [exact Hrun |].
  rewrite Hempty, dom_empty_L, (right_id_L ∅ (∪)) in Hdom.
  unfold get_data_stats. cbn [total_records symbols].
  split.
  - rewrite <- size_dom, Hdom, size_list_to_set by done.
    by rewrite length_fmap.
  - apply set_eq. intros s. rewrite stored_symbols.
    unfold symbols_of. rewrite elem_of_list_to_set, elem_of_unique.
    rewrite list_elem_of_fmap. split.
    + intros (d & Hd). apply elem_of_dom in Hd. rewrite Hdom in Hd.
      apply elem_of_list_to_set, list_elem_of_fmap in Hd
        as (row & Hk & Hrow).
      exists row. split; [| done]. unfold row_key in Hk. simpl. congruence.
    + intros (row & -> & Hrow). exists (date (bar row)).
      apply elem_of_dom. rewrite Hdom.
      apply elem_of_list_to_set, list_elem_of_fmap. by exists row.
Qed.

Lemma get_data_stats_after_first_run_witness :
  let raw_data := [ mkRow (mkBar "X" 2 12 12 11 12 200) ∅;
                    mkRow (mkBar "Y" 1 20 21 19 20 300) ∅;
                    mkRow (mkBar "X" 1 10 10 9 10 100) ∅ ] in
  let db := {| table := ∅; id_seq := 1 |} in
  ∃ db',
    process_and_store_stocks (λ _, false) db raw_data = (db', Returned true) ∧
    total_records (get_data_stats db') = length raw_data ∧
    symbols (get_data_stats db') = list_to_set (symbols_of raw_data).
Proof.
  intros raw_data db.
  apply (get_data_stats_after_first_run (λ _, false) db raw_data).
  - reflexivity.
  - discriminate.
  - vm_compute. repeat constructor; set_unfold; intuition congruence.
  - reflexivity.
Defined.

End StatisticsFacts.
